(** * PointerSubgraph: the pointer state subgraph and its worklist solver

    A shallow embedding of [src/analysis/PointsTo/PointerSubgraph.h]:
    the node record [PSNode] with its constructor, its points-to mutators
    and its graph-mutation primitives, and the class [PointerSubgraph]
    with the traversal enumerator [getNodes] and the solver [run].

    Nodes live in a heap addressed by [NodeRef]; a [PSNode *] of the
    source is an address, and [nullptr] is the address 0.  Vectors are
    lists, [std::set] is [gset], the FIFO queue is a list that is popped
    at its head and pushed at its back.  A call returns a [result]: its
    value, or the way in which it failed.

    The header declares [processNode] and [addPointsToUnknownOffset]
    without a body, and takes [Offset] and [Pointer] from [Pointer.h];
    these are modelled from the specification and marked as such.  The
    definitions come first, the theorems after them. *)

From stdpp Require Import base decidable countable option list sorting
  relations gmap sets.

Local Open Scope N_scope.

(** ** Outcomes of a call *)

(** What a call can end in besides returning: a failed [assert], a
    dereference the language leaves undefined (null or dangling pointer,
    a [va_arg] of the wrong type), the [std::length_error] of an oversized
    [reserve], and the exhaustion of the fuel of a loop of the model. *)
Inductive failure : Set :=
  | AssertionFailed
  | UndefinedBehaviour
  | LengthError
  | OutOfFuel.

Inductive result (A : Type) : Type :=
  | Ok (a : A)
  | Err (e : failure).
Arguments Ok {A} a.
Arguments Err {A} e.

#[global] Instance result_ret : MRet result := @Ok.
#[global] Instance result_bind : MBind result := λ A B f m,
  match m with
  | Ok a => f a
  | Err e => Err e
  end.

Definition assert (b : bool) : result unit :=
  if b then Ok tt else Err AssertionFailed.

#[global] Instance failure_eq_dec : EqDecision failure.
Proof. solve_decision. Defined.

#[global] Instance result_eq_dec `{EqDecision A} : EqDecision (result A).
Proof. solve_decision. Defined.

(** ** Offsets and pointers *)

Definition NodeRef := N.
Definition nullptr : NodeRef := 0.

(** Modelled from the spec: the class [Offset] of [Pointer.h], which is
    not part of the sources.  "Either a concrete non-negative integer or
    the sentinel UNKNOWN"; "UNKNOWN compares equal only to itself". *)
Inductive Offset : Set :=
  | Concrete (n : N)
  | UNKNOWN_OFFSET.

Definition isUnknown (o : Offset) : bool :=
  match o with
  | UNKNOWN_OFFSET => true
  | Concrete _ => false
  end.

(** Modelled from the spec: the addition of offsets used by GEP,
    "concrete addition unless either operand is UNKNOWN, yielding
    UNKNOWN". *)
Definition Offset_add (a b : Offset) : Offset :=
  match a, b with
  | Concrete x, Concrete y => Concrete (x + y)
  | _, _ => UNKNOWN_OFFSET
  end.

#[global] Instance Offset_eq_dec : EqDecision Offset.
Proof. solve_decision. Defined.

#[global] Instance Offset_countable : Countable Offset.
Proof.
  refine (inj_countable'
    (λ o, match o with Concrete n => Some n | UNKNOWN_OFFSET => None end)
    (λ x, match x with Some n => Concrete n | None => UNKNOWN_OFFSET end) _).
  by intros [].
Defined.

(** Modelled from the spec: the struct [Pointer] of [Pointer.h], the pair
    of a target node and an offset; the source reads its two fields as
    [ptr.target] and [ptr.offset]. *)
Record Pointer : Set := Ptr { ptr_target : NodeRef; ptr_offset : Offset }.

#[global] Instance Pointer_eq_dec : EqDecision Pointer.
Proof. solve_decision. Defined.

#[global] Instance Pointer_countable : Countable Pointer.
Proof.
  refine (inj_countable'
    (λ p, (ptr_target p, ptr_offset p))
    (λ x, Ptr x.1 x.2) _).
  by intros [].
Defined.

Abbreviation PointsToSetT := (gset Pointer).

(** ** Nodes *)

Inductive PSNodeType : Set :=
  | ALLOC
  | DYN_ALLOC
  | LOAD
  | STORE
  | GEP
  | PHI
  | CAST
  | FUNCTION
  | CALL
  | CALL_FUNCPTR
  | CALL_RETURN
  | ENTRY
  | RETURN
  | CONSTANT
  | NOOP
  | MEMCPY
  | NULL_ADDR
  | UNKNOWN_MEM.

#[global] Instance PSNodeType_eq_dec : EqDecision PSNodeType.
Proof. solve_decision. Defined.

(** The fields of [class PSNode].  The opaque slots [data], [user_data]
    and the debugging [name] carry nothing the analysis reads and are
    left out. *)
Record PSNode : Set := mkPSNode {
  operands : list NodeRef;
  successors : list NodeRef;
  predecessors : list NodeRef;
  type : PSNodeType;
  offset : Offset;
  len : Offset;
  pairedNode : NodeRef;
  zeroInitialized : bool;
  is_heap : bool;
  size : N;
  dfsid : N;
  pointsTo : PointsToSetT;
}.

Definition set_operands (v : list NodeRef) (n : PSNode) : PSNode :=
  mkPSNode v (successors n) (predecessors n) (type n) (offset n) (len n)
    (pairedNode n) (zeroInitialized n) (is_heap n) (size n) (dfsid n)
    (pointsTo n).

Definition set_successors (v : list NodeRef) (n : PSNode) : PSNode :=
  mkPSNode (operands n) v (predecessors n) (type n) (offset n) (len n)
    (pairedNode n) (zeroInitialized n) (is_heap n) (size n) (dfsid n)
    (pointsTo n).

Definition set_predecessors (v : list NodeRef) (n : PSNode) : PSNode :=
  mkPSNode (operands n) (successors n) v (type n) (offset n) (len n)
    (pairedNode n) (zeroInitialized n) (is_heap n) (size n) (dfsid n)
    (pointsTo n).

Definition set_offset (v : Offset) (n : PSNode) : PSNode :=
  mkPSNode (operands n) (successors n) (predecessors n) (type n) v (len n)
    (pairedNode n) (zeroInitialized n) (is_heap n) (size n) (dfsid n)
    (pointsTo n).

Definition set_len (v : Offset) (n : PSNode) : PSNode :=
  mkPSNode (operands n) (successors n) (predecessors n) (type n) (offset n) v
    (pairedNode n) (zeroInitialized n) (is_heap n) (size n) (dfsid n)
    (pointsTo n).

Definition set_dfsid (v : N) (n : PSNode) : PSNode :=
  mkPSNode (operands n) (successors n) (predecessors n) (type n) (offset n)
    (len n) (pairedNode n) (zeroInitialized n) (is_heap n) (size n) v
    (pointsTo n).

Definition set_pointsTo (v : PointsToSetT) (n : PSNode) : PSNode :=
  mkPSNode (operands n) (successors n) (predecessors n) (type n) (offset n)
    (len n) (pairedNode n) (zeroInitialized n) (is_heap n) (size n) (dfsid n)
    v.

(** *** Points-to mutators *)

(** [pointsTo.insert(p)]: the set after the insertion, and the [.second]
    of the returned pair, true iff [p] was not there. *)
Definition pts_insert (p : Pointer) (s : PointsToSetT) : PointsToSetT * bool :=
  ({[p]} ∪ s, bool_decide (p ∉ s)).

(** [pointsTo.count(p)], 0 or 1 for a set. *)
Definition pts_count (p : Pointer) (s : PointsToSetT) : N :=
  if decide (p ∈ s) then 1 else 0.

(** Modelled from the spec: [PSNode::addPointsToUnknownOffset] is only
    declared in the header, its body is not part of the sources.
    "Inserting (t, UNKNOWN) must replace all (t, c_i) by the UNKNOWN
    entry", and a mutation "returns a boolean changed". *)
Definition addPointsToUnknownOffset (target : NodeRef) (this : PSNode)
  : bool * PSNode :=
  let kept :=
    filter (λ p, ¬ (ptr_target p = target ∧ isUnknown (ptr_offset p) = false))
           (pointsTo this) in
  let pts' := {[Ptr target UNKNOWN_OFFSET]} ∪ kept in
  (bool_decide (pts' ≠ pointsTo this), set_pointsTo pts' this).

(** [bool addPointsTo(PSNode *n, Offset o)] *)
Definition addPointsTo (n : NodeRef) (o : Offset) (this : PSNode)
  : bool * PSNode :=
  if negb (pts_count (Ptr n UNKNOWN_OFFSET) (pointsTo this) =? 0) then
    (false, this)
  else if isUnknown o then
    addPointsToUnknownOffset n this
  else
    let '(pts', second) := pts_insert (Ptr n o) (pointsTo this) in
    (second, set_pointsTo pts' this).

(** [bool addPointsTo(const Pointer& ptr)] *)
Definition addPointsTo_ptr (ptr : Pointer) (this : PSNode) : bool * PSNode :=
  addPointsTo (ptr_target ptr) (ptr_offset ptr) this.

(** The loop of [bool addPointsTo(const std::set<Pointer>& ptrs)] over a
    sequence of pointers: [changed |= addPointsTo(ptr)]. *)
Fixpoint addPointsTo_list (ptrs : list Pointer) (changed : bool)
    (this : PSNode) : bool * PSNode :=
  match ptrs with
  | [] => (changed, this)
  | ptr :: rest =>
      let '(c, this') := addPointsTo_ptr ptr this in
      addPointsTo_list rest (changed || c) this'
  end.

(** [bool addPointsTo(const std::set<Pointer>& ptrs)] *)
Definition addPointsTo_set (ptrs : PointsToSetT) (this : PSNode)
  : bool * PSNode :=
  addPointsTo_list (elements ptrs) false this.

(** [bool doesPointsTo(const Pointer& p)] *)
Definition doesPointsTo (p : Pointer) (this : PSNode) : bool :=
  pts_count p (pointsTo this) =? 1.

(** *** The constructor *)

(** One argument of the variadic constructor: a node, or a value read
    through [va_arg(args, uint64_t)] into an [Offset]. *)
Inductive va_item : Set :=
  | VaNode (n : NodeRef)
  | VaU64 (o : Offset).

Definition va_arg_node (args : list va_item) : result (NodeRef * list va_item) :=
  match args with
  | VaNode n :: rest => Ok (n, rest)
  | _ => Err UndefinedBehaviour
  end.

Definition va_arg_u64 (args : list va_item) : result (Offset * list va_item) :=
  match args with
  | VaU64 o :: rest => Ok (o, rest)
  | _ => Err UndefinedBehaviour
  end.

(** [op = va_arg(args, PSNode * ); while (op) { operands.push_back(op);
    op = va_arg(args, PSNode * ); }] *)
Fixpoint va_null_terminated (args : list va_item) : result (list NodeRef) :=
  match args with
  | VaNode n :: rest =>
      if n =? nullptr then Ok []
      else ops ← va_null_terminated rest; Ok (n :: ops)
  | _ => Err UndefinedBehaviour
  end.

(** Modelled from the spec: the value that the default constructor of
    [Offset] gives to the field [len], which the constructor of [PSNode]
    leaves out of its initialiser list.  [len] is "meaningful for MEMCPY
    only", where the constructor assigns it; for the other kinds the
    sentinel stands for a value that is never read. *)
Definition Offset_default : Offset := UNKNOWN_OFFSET.

(** The member initialiser list of [PSNode(PSNodeType t, ...)]. *)
Definition PSNode_init (t : PSNodeType) : PSNode :=
  {| operands := []; successors := []; predecessors := [];
     type := t; offset := Concrete 0; len := Offset_default;
     pairedNode := nullptr; zeroInitialized := false; is_heap := false;
     size := 0; dfsid := 0; pointsTo := ∅ |}.

(** [PSNode(PSNodeType t, ...)], for the node built at address [this]. *)
Definition PSNode_new (this : NodeRef) (t : PSNodeType) (args : list va_item)
  : result PSNode :=
  let nd := PSNode_init t in
  match t with
  | ALLOC | DYN_ALLOC | FUNCTION =>
      Ok (addPointsTo this (Concrete 0) nd).2
  | NOOP | ENTRY =>
      Ok nd
  | CAST | LOAD | CALL_FUNCPTR =>
      '(a, _) ← va_arg_node args;
      Ok (set_operands [a] nd)
  | STORE =>
      '(a, args) ← va_arg_node args;
      '(b, _) ← va_arg_node args;
      Ok (set_operands [a; b] nd)
  | MEMCPY =>
      '(a, args) ← va_arg_node args;
      '(b, args) ← va_arg_node args;
      '(off, args) ← va_arg_u64 args;
      '(l, _) ← va_arg_u64 args;
      Ok (set_len l (set_offset off (set_operands [a; b] nd)))
  | GEP =>
      '(a, args) ← va_arg_node args;
      '(off, _) ← va_arg_u64 args;
      Ok (set_offset off (set_operands [a] nd))
  | CONSTANT =>
      '(op, args) ← va_arg_node args;
      '(off, _) ← va_arg_u64 args;
      let nd := set_offset off nd in
      Ok (set_pointsTo (pts_insert (Ptr op off) (pointsTo nd)).1 nd)
  | NULL_ADDR =>
      Ok (set_pointsTo (pts_insert (Ptr this (Concrete 0)) (pointsTo nd)).1 nd)
  | UNKNOWN_MEM =>
      Ok (set_pointsTo (pts_insert (Ptr this UNKNOWN_OFFSET) (pointsTo nd)).1 nd)
  | CALL_RETURN | PHI | RETURN | CALL =>
      ops ← va_null_terminated args;
      Ok (set_operands ops nd)
  end.

(** [PSNode *getOperand(int idx) const] *)
Definition getOperand (idx : Z) (this : PSNode) : result NodeRef :=
  _ ← assert ((0 <=? idx)%Z && (Z.to_nat idx <? length (operands this))%nat);
  match operands this !! Z.to_nat idx with
  | Some op => Ok op
  | None => Err UndefinedBehaviour
  end.

(** [size_t addOperand(PSNode *n)] *)
Definition addOperand (n : NodeRef) (this : PSNode) : N * PSNode :=
  let this' := set_operands (operands this ++ [n]) this in
  (N.of_nat (length (operands this')), this').

(** ** The heap of nodes and the graph-mutation primitives *)

Abbreviation Heap := (gmap NodeRef PSNode).

(** [*p] and [p->...]: undefined for the null pointer and for an address
    that holds no node. *)
Definition deref (h : Heap) (p : NodeRef) : result PSNode :=
  if p =? nullptr then Err UndefinedBehaviour
  else match h !! p with
       | Some nd => Ok nd
       | None => Err UndefinedBehaviour
       end.

(** An assignment to fields of [*p]. *)
Definition modify (p : NodeRef) (f : PSNode → PSNode) (h : Heap)
  : result Heap :=
  nd ← deref h p;
  Ok (<[p := f nd]> h).

Definition predecessorsNum (this : PSNode) : N :=
  N.of_nat (length (predecessors this)).
Definition successorsNum (this : PSNode) : N :=
  N.of_nat (length (successors this)).

(** [void addSuccessor(PSNode *succ)] *)
Definition addSuccessor (this succ : NodeRef) (h : Heap) : result Heap :=
  h ← modify this (λ nd, set_successors (successors nd ++ [succ]) nd) h;
  modify succ (λ sn, set_predecessors (predecessors sn ++ [this]) sn) h.

(** [void replaceSingleSuccessor(PSNode *succ)].  [reserve] is called
    with [predecessorsNum() - 1] computed in [size_t]: for an old
    successor without predecessors the request wraps around and throws. *)
Definition replaceSingleSuccessor (this succ : NodeRef) (h : Heap)
  : result Heap :=
  nd ← deref h this;
  _ ← assert (N.of_nat (length (successors nd)) =? 1);
  old ← match successors nd !! 0%nat with
        | Some o => Ok o
        | None => Err UndefinedBehaviour
        end;
  h ← modify this (set_successors []) h;
  h ← addSuccessor this succ h;
  on ← deref h old;
  _ ← (if predecessorsNum on =? 0 then Err LengthError else Ok tt);
  let tmp := foldl (λ tmp p, tmp ++ [p]) [] (predecessors on) in
  modify old (set_predecessors tmp) h.

(** [if (v[i] == old) v[i] = new;] *)
Definition replace_at (old new : NodeRef) (v : list NodeRef) (i : nat)
  : list NodeRef :=
  if decide (v !! i = Some old) then <[i := new]> v else v.

(** [for (unsigned i = 0; i < v.size(); ++i) if (v[i] == old) v[i] = new;] *)
Definition replace_refs (old new : NodeRef) (v : list NodeRef)
  : list NodeRef :=
  foldl (replace_at old new) v (seq 0 (length v)).

(** The loop [for (PSNode *succ : successors)] of [insertAfter]. *)
Fixpoint redirect_predecessors (n this : NodeRef) (succs : list NodeRef)
    (h : Heap) : result Heap :=
  match succs with
  | [] => Ok h
  | succ :: rest =>
      h ← modify succ
            (λ sn, set_predecessors (replace_refs n this (predecessors sn)) sn)
            h;
      redirect_predecessors n this rest h
  end.

(** [void insertAfter(PSNode *n)] *)
Definition insertAfter (this n : NodeRef) (h : Heap) : result Heap :=
  nd ← deref h this;
  _ ← assert (predecessorsNum nd =? 0);
  _ ← assert (successorsNum nd =? 0);
  nn ← deref h n;
  h ← modify this (set_successors (successors nn)) h;
  h ← modify n (set_successors (successors nd)) h;
  h ← addSuccessor n this h;
  nd ← deref h this;
  redirect_predecessors n this (successors nd) h.

(** *** Edges of a heap *)

Definition succs_of (h : Heap) (a : NodeRef) : list NodeRef :=
  match deref h a with
  | Ok nd => successors nd
  | Err _ => []
  end.

Definition preds_of (h : Heap) (b : NodeRef) : list NodeRef :=
  match deref h b with
  | Ok nd => predecessors nd
  | Err _ => []
  end.

Definition occurrences (x : NodeRef) (l : list NodeRef) : nat :=
  count_occ N.eq_dec l x.

(** P3, edge symmetry: [b] is among the successors of [a] as often as
    [a] is among the predecessors of [b]. *)
Definition edge_symmetric (h : Heap) : Prop :=
  ∀ a b, occurrences b (succs_of h a) = occurrences a (preds_of h b).

(** The addresses at which [h] holds a node that a pointer can reach. *)
Definition node_refs (h : Heap) : list NodeRef :=
  filter (λ a, a ≠ nullptr) (elements (dom h)).

(** A check of edge symmetry by enumeration: every edge end is a node of
    the heap, and the two counts agree on every pair of nodes. *)
Definition edge_symmetricb (h : Heap) : bool :=
  forallb (λ a,
      forallb (λ x, bool_decide (x ∈ node_refs h))
              (succs_of h a ++ preds_of h a)
      && forallb (λ b,
           Nat.eqb (occurrences b (succs_of h a))
                   (occurrences a (preds_of h b)))
           (node_refs h))
    (node_refs h).

(** [n] is reachable from [start] along successor edges. *)
Inductive reachable (h : Heap) (start : NodeRef) : NodeRef → Prop :=
  | reachable_refl : reachable h start start
  | reachable_step n m :
      reachable h start n → m ∈ succs_of h n → reachable h start m.

(** ** The subgraph and its traversal enumerator *)

(** Modelled from the spec: the memory objects of the external
    collaborator behind [getMemoryObjects]; "each memory object models a
    mapping from offset intervals to points-to sets". *)
Abbreviation MemoryObject := (gmap Offset PointsToSetT).

(** The members of [class PointerSubgraph] ([dfsnum], [root], [queue]),
    the memory its pointers refer to ([nodes], and the memory objects
    handed out by the collaborator), and the two globals [NULLPTR] and
    [UNKNOWN_MEMORY] declared [extern] by the header. *)
Record PointerSubgraph : Type := mkPointerSubgraph {
  dfsnum : N;
  root : NodeRef;
  queue : list NodeRef;
  nodes : Heap;
  NULLPTR : NodeRef;
  UNKNOWN_MEMORY : NodeRef;
  objects : gmap NodeRef MemoryObject;
}.

Definition set_dfsnum (v : N) (ps : PointerSubgraph) : PointerSubgraph :=
  mkPointerSubgraph v (root ps) (queue ps) (nodes ps) (NULLPTR ps)
    (UNKNOWN_MEMORY ps) (objects ps).

Definition set_queue (v : list NodeRef) (ps : PointerSubgraph)
  : PointerSubgraph :=
  mkPointerSubgraph (dfsnum ps) (root ps) v (nodes ps) (NULLPTR ps)
    (UNKNOWN_MEMORY ps) (objects ps).

Definition set_nodes (v : Heap) (ps : PointerSubgraph) : PointerSubgraph :=
  mkPointerSubgraph (dfsnum ps) (root ps) (queue ps) v (NULLPTR ps)
    (UNKNOWN_MEMORY ps) (objects ps).

Definition set_objects (v : gmap NodeRef MemoryObject) (ps : PointerSubgraph)
  : PointerSubgraph :=
  mkPointerSubgraph (dfsnum ps) (root ps) (queue ps) (nodes ps) (NULLPTR ps)
    (UNKNOWN_MEMORY ps) v.

(** Modelled from the spec: [ADT::QueueFIFO] of [ADT/Queue.h], which is
    not part of the sources; "the queue is FIFO".  A queue is the list
    of its elements, the oldest first: [push] appends at the back, and
    [pop] takes the head off (the [cur :: q] of the loops below). *)
Definition QueueFIFO_push (x : NodeRef) (q : list NodeRef) : list NodeRef :=
  q ++ [x].

(** [++dfsnum] on an [unsigned int]. *)
Definition UINT_MODULUS : N := 2 ^ 32.
Definition incr_dfsnum (d : N) : N := (d + 1) mod UINT_MODULUS.

(** The inner loop of the traversal:
    [for (PSNode *succ : cur->successors)
       if (succ->dfsid != dfsnum) { succ->dfsid = dfsnum; fifo.push(succ); }] *)
Fixpoint visit_successors (num : N) (succs fifo : list NodeRef) (h : Heap)
  : result (list NodeRef * Heap) :=
  match succs with
  | [] => Ok (fifo, h)
  | succ :: rest =>
      sn ← deref h succ;
      if negb (dfsid sn =? num) then
        h ← modify succ (set_dfsid num) h;
        visit_successors num rest (QueueFIFO_push succ fifo) h
      else
        visit_successors num rest fifo h
  end.

(** The loop [while (!fifo.empty())] of the traversal; an iteration takes
    one unit of [fuel]. *)
Fixpoint getNodes_loop (fuel : nat) (num : N) (fifo cont : list NodeRef)
    (h : Heap) : result (list NodeRef * Heap) :=
  match fifo with
  | [] => Ok (cont, h)
  | cur :: fifo =>
      match fuel with
      | O => Err OutOfFuel
      | S fuel =>
          let cont := QueueFIFO_push cur cont in
          cn ← deref h cur;
          '(fifo, h) ← visit_successors num (successors cn) fifo h;
          getNodes_loop fuel num fifo cont h
      end
  end.

(** The order in which a [std::set<PSNode *>] is iterated: by address. *)
Definition std_set_order (s : gset NodeRef) : list NodeRef :=
  merge_sort N.le (elements s).

(** [template <typename ContT> void getNodes(ContT& cont,
       PSNode *start_node = nullptr, std::set<PSNode *> *start_set = nullptr)].
    The container is the sequence of the nodes pushed into it.  Every
    iteration of the loop takes a node off the queue, and a node is put
    on the queue only when it gets marked, so the fuel given here is
    never used up ([getNodes_terminates] below). *)
Definition getNodes (cont : list NodeRef) (start_node : NodeRef)
    (start_set : option (gset NodeRef)) (ps : PointerSubgraph)
  : result (list NodeRef * PointerSubgraph) :=
  _ ← assert (negb (root ps =? nullptr));
  _ ← assert (negb (bool_decide (is_Some start_set)
                    && negb (start_node =? nullptr)));
  let ps := set_dfsnum (incr_dfsnum (dfsnum ps)) ps in
  let fifo :=
    match start_set with
    | Some s => std_set_order s
    | None => [if start_node =? nullptr then root ps else start_node]
    end in
  h ← modify (root ps) (set_dfsid (dfsnum ps)) (nodes ps);
  '(cont, h) ← getNodes_loop (length fifo + base.size h) (dfsnum ps) fifo cont h;
  Ok (cont, set_nodes h ps).

(** ** The solver *)

(** The virtual member functions of [PointerSubgraph], the points at
    which a derived analysis changes the solver.  [getMemoryObjects] is
    pure virtual; its vector of objects is the list of their addresses. *)
Class Hooks : Type := {
  getMemoryObjects : NodeRef → NodeRef → PointerSubgraph → list NodeRef;
  enqueue : NodeRef → PointerSubgraph → result PointerSubgraph;
  beforeProcessed : NodeRef → PointerSubgraph → result PointerSubgraph;
  afterProcessed : NodeRef → PointerSubgraph → result PointerSubgraph;
  error : NodeRef → PointerSubgraph → result (bool * PointerSubgraph);
  errorEmptyPointsTo :
    NodeRef → NodeRef → PointerSubgraph → result (bool * PointerSubgraph);
  functionPointerCall :
    NodeRef → NodeRef → PointerSubgraph → result (bool * PointerSubgraph);
}.

(** [virtual void enqueue(PSNode *n) { getNodes(queue, n); }] *)
Definition enqueue_default (n : NodeRef) (ps : PointerSubgraph)
  : result PointerSubgraph :=
  '(q, ps) ← getNodes (queue ps) n None ps;
  Ok (set_queue q ps).

(** The bodies the base class gives to its virtual functions, around a
    given [getMemoryObjects]. *)
Definition base_hooks
    (gmo : NodeRef → NodeRef → PointerSubgraph → list NodeRef) : Hooks :=
  {| getMemoryObjects := gmo;
     enqueue := enqueue_default;
     beforeProcessed := λ n ps, Ok ps;
     afterProcessed := λ n ps, Ok ps;
     error := λ at_ ps, Ok (false, ps);
     errorEmptyPointsTo := λ from to ps, Ok (false, ps);
     functionPointerCall := λ where_ what ps, Ok (false, ps) |}.

(** What the solver does, in the order in which it does it. *)
Inductive event : Set :=
  | EvPop (cur : NodeRef)
  | EvBeforeProcessed (cur : NodeRef)
  | EvProcessNode (cur : NodeRef) (changed : bool)
  | EvEnqueue (cur : NodeRef)
  | EvAfterProcessed (cur : NodeRef).

#[global] Instance event_eq_dec : EqDecision event.
Proof. solve_decision. Defined.

Section Solver.
Context `{Hooks}.

(** [bool processNode(PSNode * )] is declared by the header; its body
    is not part of the sources, and the loops below call whatever it
    is. *)
Variable processNode :
  NodeRef → PointerSubgraph → result (bool * PointerSubgraph).

(** The body of the two [while (!queue.empty())] loops of [run], after
    [PSNode *cur = queue.pop()]; [tr] is the log of the calls made so
    far. *)
Definition loop_body (cur : NodeRef) (ps : PointerSubgraph)
    (tr : list event) : result (PointerSubgraph * list event) :=
  let tr := tr ++ [EvPop cur] in
  ps ← beforeProcessed cur ps;
  let tr := tr ++ [EvBeforeProcessed cur] in
  '(changed, ps) ← processNode cur ps;
  let tr := tr ++ [EvProcessNode cur changed] in
  '(ps, tr) ← (if changed : bool then
                 ps ← enqueue cur ps; Ok (ps, tr ++ [EvEnqueue cur])
               else Ok (ps, tr));
  ps ← afterProcessed cur ps;
  Ok (ps, tr ++ [EvAfterProcessed cur]).

(** [while (!queue.empty()) { PSNode *cur = queue.pop(); ... }] *)
Fixpoint run_loop (fuel : nat) (ps : PointerSubgraph) (tr : list event)
  : result (PointerSubgraph * list event) :=
  match queue ps with
  | [] => Ok (ps, tr)
  | cur :: q =>
      match fuel with
      | O => Err OutOfFuel
      | S fuel =>
          '(ps, tr) ← loop_body cur (set_queue q ps) tr;
          run_loop fuel ps tr
      end
  end.

(** The body of the loop under [DEBUG_ENABLED]: [changed] is assigned
    and nothing is enqueued. *)
Definition debug_body (cur : NodeRef) (ps : PointerSubgraph)
    (tr : list event) : result (PointerSubgraph * list event) :=
  let tr := tr ++ [EvPop cur] in
  ps ← beforeProcessed cur ps;
  let tr := tr ++ [EvBeforeProcessed cur] in
  '(changed, ps) ← processNode cur ps;
  let tr := tr ++ [EvProcessNode cur changed] in
  ps ← afterProcessed cur ps;
  Ok (ps, tr ++ [EvAfterProcessed cur]).

Fixpoint debug_loop (fuel : nat) (ps : PointerSubgraph) (tr : list event)
  : result (PointerSubgraph * list event) :=
  match queue ps with
  | [] => Ok (ps, tr)
  | cur :: q =>
      match fuel with
      | O => Err OutOfFuel
      | S fuel =>
          '(ps, tr) ← debug_body cur (set_queue q ps) tr;
          debug_loop fuel ps tr
      end
  end.

(** [queue.push(root); getNodes(queue);] *)
Definition seed_queue (ps : PointerSubgraph) : result PointerSubgraph :=
  let ps := set_queue (QueueFIFO_push (root ps) (queue ps)) ps in
  '(q, ps) ← getNodes (queue ps) nullptr None ps;
  Ok (set_queue q ps).

Definition debug_pass (DEBUG_ENABLED : bool) (fuel : nat)
    (ps : PointerSubgraph) (tr : list event)
  : result (PointerSubgraph * list event) :=
  if DEBUG_ENABLED then
    ps ← seed_queue ps;
    debug_loop fuel ps tr
  else Ok (ps, tr).

(** [void run()].  Each of its loops may run for [fuel] iterations. *)
Definition run (DEBUG_ENABLED : bool) (fuel : nat) (ps : PointerSubgraph)
  : result (PointerSubgraph * list event) :=
  _ ← assert (negb (root ps =? nullptr));
  ps ← seed_queue ps;
  '(ps, tr) ← run_loop fuel ps [];
  '(ps, tr) ← run_loop fuel ps tr;
  debug_pass DEBUG_ENABLED fuel ps tr.

(** [run] without its second [while] loop. *)
Definition run_single_phase (DEBUG_ENABLED : bool) (fuel : nat)
    (ps : PointerSubgraph) : result (PointerSubgraph * list event) :=
  _ ← assert (negb (root ps =? nullptr));
  ps ← seed_queue ps;
  '(ps, tr) ← run_loop fuel ps [];
  debug_pass DEBUG_ENABLED fuel ps tr.

(** One more pass of [processNode] over the nodes, tracking whether a
    call returned true. *)
Fixpoint process_all (l : list NodeRef) (changed : bool)
    (ps : PointerSubgraph) : result (bool * PointerSubgraph) :=
  match l with
  | [] => Ok (changed, ps)
  | cur :: rest =>
      '(c, ps) ← processNode cur ps;
      process_all rest (changed || c) ps
  end.

(** The pass of P5: [processNode] over every node the enumerator
    reaches from the root. *)
Definition additional_pass (ps : PointerSubgraph)
  : result (bool * PointerSubgraph) :=
  '(l, ps) ← getNodes [] nullptr None ps;
  process_all l false ps.
End Solver.

(** The log of one iteration on [cur] in which [processNode] returned
    [changed]. *)
Definition iteration_events (cur : NodeRef) (changed : bool) : list event :=
  [EvPop cur; EvBeforeProcessed cur; EvProcessNode cur changed]
  ++ (if changed then [EvEnqueue cur] else [])
  ++ [EvAfterProcessed cur].

(** ** The transfer functions *)

(** Modelled from the spec: reading a memory object.  "Read the
    points-to set stored at offset [o] within [m]"; "if [o = UNKNOWN],
    the read must fold over all offsets of [m] (i.e., the union)". *)
Definition object_read (m : MemoryObject) (o : Offset) : PointsToSetT :=
  if isUnknown o then ⋃ (map_to_list m).*2
  else default ∅ (m !! o).

(** Modelled from the spec: writing a memory object.  "Into each [m] at
    offset [o], union [value.pointsTo].  If [o = UNKNOWN], the store
    weakens to every known offset of [m] (a weak update)". *)
Definition object_write (o : Offset) (s : PointsToSetT) (m : MemoryObject)
  : MemoryObject :=
  if isUnknown o then (λ old, old ∪ s) <$> m
  else <[o := default ∅ (m !! o) ∪ s]> m.

(** Modelled from the spec: the region copied by MEMCPY, "[off, off+len)",
    and "if [off] or [len] is UNKNOWN, copy across the entire object". *)
Definition in_region (off l : Offset) (k : Offset) : bool :=
  match off, l with
  | Concrete a, Concrete n =>
      match k with
      | Concrete x => (a <=? x) && (x <? a + n)
      | UNKNOWN_OFFSET => false
      end
  | _, _ => true
  end.

Definition object_copy (off l : Offset) (src dst : MemoryObject)
  : MemoryObject :=
  union_with (λ a b, Some (a ∪ b)) dst
             (filter (λ kv, in_region off l kv.1 = true) src).

Section Transfer.
Context `{Hooks}.

Definition object_of (ps : PointerSubgraph) (m : NodeRef) : MemoryObject :=
  default ∅ (objects ps !! m).

Definition update_object (m : NodeRef) (f : MemoryObject → MemoryObject)
    (ps : PointerSubgraph) : bool * PointerSubgraph :=
  let old := object_of ps m in
  (bool_decide (f old ≠ old), set_objects (<[m := f old]> (objects ps)) ps).

(** [self->addPointsTo(ptr)] for each of [ptrs] in turn, on the node
    at [self]. *)
Definition node_addPointsTo (self : NodeRef) (ptrs : list Pointer)
    (ps : PointerSubgraph) : result (bool * PointerSubgraph) :=
  nd ← deref (nodes ps) self;
  let '(c, nd') := addPointsTo_list ptrs false nd in
  Ok (c, set_nodes (<[self := nd']> (nodes ps)) ps).

(** [self->getOperand(idx)->pointsTo] *)
Definition operand_pointsTo (self : NodeRef) (idx : Z)
    (ps : PointerSubgraph) : result PointsToSetT :=
  nd ← deref (nodes ps) self;
  op ← getOperand idx nd;
  on ← deref (nodes ps) op;
  Ok (pointsTo on).

(** A loop over a sequence whose body returns a "changed" flag. *)
Fixpoint for_each {A : Type}
    (body : A → PointerSubgraph → result (bool * PointerSubgraph))
    (l : list A) (changed : bool) (ps : PointerSubgraph)
  : result (bool * PointerSubgraph) :=
  match l with
  | [] => Ok (changed, ps)
  | x :: rest =>
      '(c, ps) ← body x ps;
      for_each body rest (changed || c) ps
  end.

(** Modelled from the spec: LOAD.  "For each [(t, o) ∈ ptr.pointsTo],
    call [getMemoryObjects(self, t, M)]; for each [m ∈ M], read the
    points-to set stored at offset [o] within [m] and union it into
    [self.pointsTo].  If that stored set is empty: if
    [t.zeroInitialized] is true, add [(NULL_ADDR, 0)] to
    [self.pointsTo]; otherwise invoke the [errorEmptyPointsTo(self, t)]
    hook". *)
Definition processLoad (self : NodeRef) (ps : PointerSubgraph)
  : result (bool * PointerSubgraph) :=
  ptrs ← operand_pointsTo self 0 ps;
  for_each (λ p ps,
      for_each (λ m ps,
          let stored := object_read (object_of ps m) (ptr_offset p) in
          if decide (stored = ∅) then
            tn ← deref (nodes ps) (ptr_target p);
            if zeroInitialized tn then
              node_addPointsTo self [Ptr (NULLPTR ps) (Concrete 0)] ps
            else errorEmptyPointsTo self (ptr_target p) ps
          else node_addPointsTo self (elements stored) ps)
        (getMemoryObjects self (ptr_target p) ps) false ps)
    (elements ptrs) false ps.

(** Modelled from the spec: STORE.  "For each [(t, o) ∈ dest.pointsTo],
    call [getMemoryObjects(self, t, M)]; into each [m ∈ M] at offset
    [o], union [value.pointsTo]"; "no change to self". *)
Definition processStore (self : NodeRef) (ps : PointerSubgraph)
  : result (bool * PointerSubgraph) :=
  value ← operand_pointsTo self 0 ps;
  dest ← operand_pointsTo self 1 ps;
  for_each (λ p ps,
      for_each (λ m ps,
          Ok (update_object m (object_write (ptr_offset p) value) ps))
        (getMemoryObjects self (ptr_target p) ps) false ps)
    (elements dest) false ps.

(** Modelled from the spec: MEMCPY.  "Copy points-to information from
    the region [off, off+len) of each memory object reachable via [src]
    to the same relative region of each memory object reachable via
    [dst]". *)
Definition processMemcpy (self : NodeRef) (ps : PointerSubgraph)
  : result (bool * PointerSubgraph) :=
  nd ← deref (nodes ps) self;
  src ← operand_pointsTo self 0 ps;
  dst ← operand_pointsTo self 1 ps;
  for_each (λ sp ps,
      for_each (λ sm ps,
          for_each (λ dp ps,
              for_each (λ dm ps,
                  Ok (update_object dm
                        (object_copy (offset nd) (len nd) (object_of ps sm))
                        ps))
                (getMemoryObjects self (ptr_target dp) ps) false ps)
            (elements dst) false ps)
        (getMemoryObjects self (ptr_target sp) ps) false ps)
    (elements src) false ps.

(** Modelled from the spec: GEP.  "For each [(t, o) ∈ base], add
    [(t, o ⊕ offset)]". *)
Definition processGep (self : NodeRef) (ps : PointerSubgraph)
  : result (bool * PointerSubgraph) :=
  nd ← deref (nodes ps) self;
  base ← operand_pointsTo self 0 ps;
  node_addPointsTo self
    (map (λ p, Ptr (ptr_target p) (Offset_add (ptr_offset p) (offset nd)))
         (elements base))
    ps.

(** Modelled from the spec: CAST, "copy [x.pointsTo] into self". *)
Definition processCast (self : NodeRef) (ps : PointerSubgraph)
  : result (bool * PointerSubgraph) :=
  x ← operand_pointsTo self 0 ps;
  node_addPointsTo self (elements x) ps.

(** Modelled from the spec: PHI, CALL_RETURN and RETURN, "union of all
    operands' [pointsTo]". *)
Definition processPhi (self : NodeRef) (ps : PointerSubgraph)
  : result (bool * PointerSubgraph) :=
  nd ← deref (nodes ps) self;
  for_each (λ op ps,
      on ← deref (nodes ps) op;
      node_addPointsTo self (elements (pointsTo on)) ps)
    (operands nd) false ps.

(** Modelled from the spec: CALL_FUNCPTR.  "For each [(t, _)] in
    [fp.pointsTo] with [t.kind == FUNCTION], invoke
    [functionPointerCall(self, t)]". *)
Definition processFuncptr (self : NodeRef) (ps : PointerSubgraph)
  : result (bool * PointerSubgraph) :=
  fp ← operand_pointsTo self 0 ps;
  for_each (λ p ps,
      tn ← deref (nodes ps) (ptr_target p);
      if decide (type tn = FUNCTION) then
        functionPointerCall self (ptr_target p) ps
      else Ok (false, ps))
    (elements fp) false ps.

(** Modelled from the spec: [PointerSubgraph::processNode], declared by
    the header and defined outside the sources; the table of transfer
    functions by kind.  ALLOC, DYN_ALLOC, FUNCTION, CONSTANT, NULL_ADDR
    and UNKNOWN_MEM are "constant", NOOP and ENTRY are "empty; solver
    skips".  For CALL the header is followed, whose enumeration has it
    "a noop", its operands "not used by the analysis itself". *)
Definition processNode (self : NodeRef) (ps : PointerSubgraph)
  : result (bool * PointerSubgraph) :=
  nd ← deref (nodes ps) self;
  match type nd with
  | LOAD => processLoad self ps
  | STORE => processStore self ps
  | GEP => processGep self ps
  | CAST => processCast self ps
  | MEMCPY => processMemcpy self ps
  | PHI | CALL_RETURN | RETURN => processPhi self ps
  | CALL_FUNCPTR => processFuncptr self ps
  | ALLOC | DYN_ALLOC | FUNCTION | CONSTANT | NULL_ADDR | UNKNOWN_MEM
  | NOOP | ENTRY | CALL => Ok (false, ps)
  end.
End Transfer.

(** Modelled from the spec: the collaborator of a flow-insensitive
    analysis, with one memory object per target, the same at every
    program point; the object of a target is kept under the target's
    address. *)
Definition flow_insensitive : Hooks := base_hooks (λ where_ what ps, [what]).

(** ** Building graphs *)

(** [new PSNode(t, args...)] at each of the given addresses. *)
Fixpoint new_nodes (l : list (NodeRef * PSNodeType * list va_item))
    (h : Heap) : result Heap :=
  match l with
  | [] => Ok h
  | (a, t, args) :: rest =>
      nd ← PSNode_new a t args;
      new_nodes rest (<[a := nd]> h)
  end.

(** [a->addSuccessor(b)] for each of the given pairs. *)
Fixpoint add_edges (l : list (NodeRef * NodeRef)) (h : Heap) : result Heap :=
  match l with
  | [] => Ok h
  | (a, b) :: rest =>
      h ← addSuccessor a b h;
      add_edges rest h
  end.

Definition build_graph (ns : list (NodeRef * PSNodeType * list va_item))
    (es : list (NodeRef * NodeRef)) : Heap :=
  match new_nodes ns ∅ ≫= add_edges es with
  | Ok h => h
  | Err _ => ∅
  end.

(** A subgraph over [h] with the given root, as its constructor leaves
    it: [dfsnum(0)], an empty queue.  The two sentinels are taken to
    live at the addresses 100 and 101, and no memory object is written
    yet. *)
Definition PointerSubgraph_new (r : NodeRef) (h : Heap) : PointerSubgraph :=
  {| dfsnum := 0; root := r; queue := []; nodes := h;
     NULLPTR := 100; UNKNOWN_MEMORY := 101; objects := ∅ |}.

(** The chain [A → B] and a fresh node [X]. *)
Definition chain_heap : Heap :=
  build_graph [(1, NOOP, []); (2, NOOP, []); (3, NOOP, [])] [(1, 2)].

(** A root with one successor that leads back to the root. *)
Definition cycle_heap : Heap :=
  build_graph [(1, NOOP, []); (2, NOOP, [])] [(1, 2); (2, 1)].

(** A root with one successor that is its own successor. *)
Definition self_loop_heap : Heap :=
  build_graph [(1, NOOP, []); (2, NOOP, [])] [(1, 2); (2, 2)].

(** [v = alloc; p = alloc; c = cast l; l = load p; store v, p], in this
    control-flow order. *)
Definition store_after_load_heap : Heap :=
  build_graph
    [(1, ALLOC, []); (2, ALLOC, []); (3, CAST, [VaNode 4]);
     (4, LOAD, [VaNode 2]); (5, STORE, [VaNode 1; VaNode 2])]
    [(1, 2); (2, 3); (3, 4); (4, 5)].

(** What the loop of [replace_refs] does to one entry. *)
Definition redirect (old new : NodeRef) (p : NodeRef) : NodeRef :=
  if decide (p = old) then new else p.

(** ** Properties of the solver *)

(** The log of a sequence of iterations, each given by the node it
    popped and by what [processNode] returned for it. *)
Definition iterations (iter : NodeRef → bool → list event)
    (steps : list (NodeRef * bool)) : list event :=
  concat (map (λ s, iter s.1 s.2) steps).

Section Order.
Context `{Hooks}.
Variable processNode :
  NodeRef → PointerSubgraph → result (bool * PointerSubgraph).

(** [if (processNode(cur)) enqueue(cur);] once [processNode] has
    returned [changed]. *)
Definition enqueue_if (changed : bool) (cur : NodeRef) (ps : PointerSubgraph)
  : result PointerSubgraph :=
  if changed then enqueue cur ps else Ok ps.

(** An iteration on [cur] that takes [ps] to [ps'] by the calls
    [beforeProcessed], [processNode], [enqueue] when [processNode]
    returned true, and [afterProcessed], in this order: every call
    starts in the state that the call before it has left. *)
Definition iteration_enqueue_first (cur : NodeRef) (ps : PointerSubgraph)
    (changed : bool) (ps' : PointerSubgraph) : Prop :=
  ∃ ps1 ps2 ps3,
    beforeProcessed cur ps = Ok ps1
    ∧ processNode cur ps1 = Ok (changed, ps2)
    ∧ enqueue_if changed cur ps2 = Ok ps3
    ∧ afterProcessed cur ps3 = Ok ps'.

(** The same calls with the last two the other way round:
    [afterProcessed], and then [enqueue] when [processNode] returned
    true. *)
Definition iteration_enqueue_last (cur : NodeRef) (ps : PointerSubgraph)
    (changed : bool) (ps' : PointerSubgraph) : Prop :=
  ∃ ps1 ps2 ps3,
    beforeProcessed cur ps = Ok ps1
    ∧ processNode cur ps1 = Ok (changed, ps2)
    ∧ afterProcessed cur ps2 = Ok ps3
    ∧ enqueue_if changed cur ps3 = Ok ps'.

(** The body of the loop makes the calls of [iteration]: it takes [ps]
    to [ps'] exactly when they do. *)
Definition calls_in_order
    (iteration : NodeRef → PointerSubgraph → bool → PointerSubgraph → Prop)
  : Prop :=
  ∀ cur ps tr ps',
    (∃ tr', loop_body processNode cur ps tr = Ok (ps', tr'))
    ↔ ∃ changed, iteration cur ps changed ps'.

(** A run of the loop from [ps] to [ps']: it pops the head of the queue
    and makes an iteration on it, as long as the queue is not empty;
    [steps] are the nodes popped, each with what [processNode] returned
    for it. *)
Inductive loop_iterations
  : PointerSubgraph → list (NodeRef * bool) → PointerSubgraph → Prop :=
  | loop_exit ps :
      queue ps = [] → loop_iterations ps [] ps
  | loop_iteration ps cur q changed ps1 steps ps' :
      queue ps = cur :: q →
      iteration_enqueue_first cur (set_queue q ps) changed ps1 →
      loop_iterations ps1 steps ps' →
      loop_iterations ps ((cur, changed) :: steps) ps'.
End Order.

(** A derived analysis that uses [afterProcessed] to schedule the root
    again, [queue.push(getRoot())]; the queue is a protected member.
    Its other virtual functions are those of the base class. *)
Definition restart_hooks : Hooks :=
  {| getMemoryObjects := λ where_ what ps, [what];
     enqueue := enqueue_default;
     beforeProcessed := λ n ps, Ok ps;
     afterProcessed :=
       λ n ps, Ok (set_queue (QueueFIFO_push (root ps) (queue ps)) ps);
     error := λ at_ ps, Ok (false, ps);
     errorEmptyPointsTo := λ from to ps, Ok (false, ps);
     functionPointerCall := λ where_ what ps, Ok (false, ps) |}.

(** An iteration of that analysis on the STORE node of
    [store_after_load_heap], popped off an otherwise empty queue: the
    state and the log it returns. *)
Definition restart_iteration : PointerSubgraph * list event :=
  match loop_body (H := restart_hooks) (processNode (H := restart_hooks)) 5
                  (PointerSubgraph_new 1 store_after_load_heap) [] with
  | Ok r => r
  | Err _ => (PointerSubgraph_new 1 store_after_load_heap, [])
  end.

(** The main loop on [store_after_load_heap] with the STORE node on the
    queue: the state and the log it returns. *)
Definition store_loop_start : PointerSubgraph :=
  set_queue [5] (PointerSubgraph_new 1 store_after_load_heap).

Definition store_loop_result : PointerSubgraph * list event :=
  match run_loop (H := flow_insensitive) (processNode (H := flow_insensitive))
                 100 store_loop_start [] with
  | Ok r => r
  | Err _ => (store_loop_start, [])
  end.

(** Whether the pass of P5, made after [run] has returned on the graph
    [store_after_load_heap], sees a call of [processNode] return true. *)
Definition changed_after_run (DEBUG_ENABLED : bool) : result bool :=
  '(ps, _) ← run (H := flow_insensitive) (processNode (H := flow_insensitive))
                DEBUG_ENABLED 100
                (PointerSubgraph_new 1 store_after_load_heap);
  '(changed, _) ← additional_pass (processNode (H := flow_insensitive)) ps;
  Ok changed.

(** ** What the solver keeps *)

(** The kinds whose points-to set is computed by their transfer
    function; the sets of the other kinds are "constant" or "empty". *)
Definition computed_kind (t : PSNodeType) : bool :=
  match t with
  | LOAD | GEP | CAST | PHI | CALL_RETURN | RETURN => true
  | _ => false
  end.

(** [nd'] is [nd] at a later time: the same kind, and the same points-to
    set unless the kind is a computed one. *)
Definition node_kept (nd nd' : PSNode) : Prop :=
  type nd' = type nd
  ∧ (computed_kind (type nd) = false → pointsTo nd' = pointsTo nd).

Definition nodes_kept (h h' : Heap) : Prop :=
  ∀ n nd, h !! n = Some nd → ∃ nd', h' !! n = Some nd' ∧ node_kept nd nd'.

(** The operations of the solver of the base class, around a given
    [getMemoryObjects]: a transfer, a traversal, an enqueue, a run. *)
Inductive solver_operation
    (gmo : NodeRef → NodeRef → PointerSubgraph → list NodeRef)
    (ps ps' : PointerSubgraph) : Prop :=
  | op_processNode cur changed :
      processNode (H := base_hooks gmo) cur ps = Ok (changed, ps') →
      solver_operation gmo ps ps'
  | op_getNodes cont start_node start_set cont' :
      getNodes cont start_node start_set ps = Ok (cont', ps') →
      solver_operation gmo ps ps'
  | op_enqueue n :
      enqueue (Hooks := base_hooks gmo) n ps = Ok ps' →
      solver_operation gmo ps ps'
  | op_run DEBUG_ENABLED fuel tr :
      run (H := base_hooks gmo) (processNode (H := base_hooks gmo))
          DEBUG_ENABLED fuel ps = Ok (ps', tr) →
      solver_operation gmo ps ps'.

(** The node at [self] is of a computed kind. *)
Definition computed_at (self : NodeRef) (ps : PointerSubgraph) : Prop :=
  ∃ nd, nodes ps !! self = Some nd ∧ computed_kind (type nd) = true.

(** A graph with the two sentinel nodes at the addresses of [NULLPTR]
    and [UNKNOWN_MEMORY]. *)
Definition sentinel_heap : Heap :=
  build_graph
    [(1, ALLOC, []); (2, LOAD, [VaNode 1]); (100, NULL_ADDR, []);
     (101, UNKNOWN_MEM, [])]
    [(1, 2)].

(** The state in which [run] leaves a subgraph, the state itself if
    [run] does not return. *)
Definition state_after_run (DEBUG_ENABLED : bool) (ps : PointerSubgraph)
  : PointerSubgraph :=
  match run (H := flow_insensitive) (processNode (H := flow_insensitive))
            DEBUG_ENABLED 100 ps with
  | Ok (ps', _) => ps'
  | Err _ => ps
  end.

(** The number of nodes that the traversal numbered [num] has not
    marked. *)
Definition unmarked (num : N) (h : Heap) : nat :=
  base.size (filter (λ kv : NodeRef * PSNode, dfsid kv.2 ≠ num) h).

(** ** Properties of the traversal *)

(** The traversal numbered [num] has marked the node at [n]. *)
Definition marked (num : N) (h : Heap) (n : NodeRef) : Prop :=
  ∃ nd, deref h n = Ok nd ∧ dfsid nd = num.

(** Two heaps hold nodes at the same addresses, with the same
    successors. *)
Definition same_edges (h h' : Heap) : Prop :=
  ∀ a, successors <$> h' !! a = successors <$> h !! a.

(** Every successor of a node of the heap is a node of the heap. *)
Definition heap_closed (h : Heap) : Prop :=
  ∀ a b, b ∈ succs_of h a → ∃ nd, deref h b = Ok nd.

(** ** Properties of points-to sets *)

(** P2, saturation: no target has both its UNKNOWN entry and an entry at
    a concrete offset. *)
Definition saturated (s : PointsToSetT) : Prop :=
  ∀ t c, Ptr t UNKNOWN_OFFSET ∈ s → Ptr t (Concrete c) ∉ s.

(** The node after a sequence of calls of [addPointsTo]. *)
Definition after_calls (calls : list Pointer) (this : PSNode) : PSNode :=
  (addPointsTo_list calls false this).2.

(** ** Further operations of the header *)

(** [PSNode *getSingleSuccessor() const] *)
Definition getSingleSuccessor (this : PSNode) : result NodeRef :=
  _ ← assert (N.of_nat (length (successors this)) =? 1);
  match successors this with
  | front :: _ => Ok front
  | [] => Err UndefinedBehaviour
  end.

(** [PSNode *getSinglePredecessor() const] *)
Definition getSinglePredecessor (this : PSNode) : result NodeRef :=
  _ ← assert (N.of_nat (length (predecessors this)) =? 1);
  match predecessors this with
  | front :: _ => Ok front
  | [] => Err UndefinedBehaviour
  end.

(** The loop [for (PSNode *pred : predecessors)] of [insertBefore] and of
    [insertSequenceBefore], which rewrites the successors of each
    predecessor. *)
Fixpoint redirect_successors (n this : NodeRef) (preds : list NodeRef)
    (h : Heap) : result Heap :=
  match preds with
  | [] => Ok h
  | pred :: rest =>
      h ← modify pred
            (λ pn, set_successors (replace_refs n this (successors pn)) pn)
            h;
      redirect_successors n this rest h
  end.

(** [void insertBefore(PSNode *n)] *)
Definition insertBefore (this n : NodeRef) (h : Heap) : result Heap :=
  nd ← deref h this;
  _ ← assert (predecessorsNum nd =? 0);
  _ ← assert (successorsNum nd =? 0);
  nn ← deref h n;
  h ← modify this (set_predecessors (predecessors nn)) h;
  h ← modify n (set_predecessors (predecessors nd)) h;
  h ← addSuccessor this n h;
  nd ← deref h this;
  redirect_successors n this (predecessors nd) h.

(** [void insertSequenceBefore(std::pair<PSNode *, PSNode *>& seq)] *)
Definition insertSequenceBefore (this : NodeRef) (seq : NodeRef * NodeRef)
    (h : Heap) : result Heap :=
  fn ← deref h seq.1;
  _ ← assert (predecessorsNum fn =? 0);
  ln ← deref h seq.2;
  _ ← assert (successorsNum ln =? 0);
  nd ← deref h this;
  h ← modify this (set_predecessors (predecessors fn)) h;
  h ← modify seq.1 (set_predecessors (predecessors nd)) h;
  fn ← deref h seq.1;
  h ← redirect_successors this seq.1 (predecessors fn) h;
  addSuccessor seq.2 this h.

(** [size_t pendingInQueue() const] *)
Definition pendingInQueue (ps : PointerSubgraph) : N :=
  N.of_nat (length (queue ps)).

(** A node without its edges: what the graph-mutation primitives leave
    alone. *)
Definition erase_edges (nd : PSNode) : PSNode :=
  set_successors [] (set_predecessors [] nd).

(** Two heaps hold nodes at the same addresses, the same but for their
    edges. *)
Definition same_but_edges (h h' : Heap) : Prop :=
  ∀ a, erase_edges <$> h' !! a = erase_edges <$> h !! a.

(** Two heaps hold nodes at the same addresses, the same but for their
    visit marks. *)
Definition same_but_marks (h h' : Heap) : Prop :=
  ∀ a, set_dfsid 0 <$> h' !! a = set_dfsid 0 <$> h !! a.

(** Edge symmetry of a successor function and a predecessor function. *)
Definition symmetric_edges (S P : NodeRef → list NodeRef) : Prop :=
  ∀ a b, occurrences b (S a) = occurrences a (P b).

(** The chain [1 → 2] with the one-node sequence [3] and the two-node
    sequence [4 → 5]. *)
Definition sequence_heap : Heap :=
  build_graph
    [(1, NOOP, []); (2, NOOP, []); (3, NOOP, []); (4, NOOP, []);
     (5, NOOP, [])]
    [(1, 2); (4, 5)].

(** A diamond [1 → 2, 1 → 3, 2 → 4, 3 → 4] with a back edge [4 → 2]. *)
Definition diamond_heap : Heap :=
  build_graph
    [(1, NOOP, []); (2, NOOP, []); (3, NOOP, []); (4, NOOP, [])]
    [(1, 2); (1, 3); (2, 4); (3, 4); (4, 2)].

(** ** The other traversal of the header *)

(** The nodes with which [getNodes] starts its queue. *)
Definition start_nodes (start_node : NodeRef)
    (start_set : option (gset NodeRef)) (ps : PointerSubgraph)
  : list NodeRef :=
  match start_set with
  | Some s => std_set_order s
  | None => [if start_node =? nullptr then root ps else start_node]
  end.

(** The first loop of [getNodes(std::set<PSNode *>&, PSNode * )]:
    [for (PSNode *succ : n->successors)
       { succ->dfsid = dfsnum; fifo.push(succ); }] *)
Fixpoint mark_successors (num : N) (succs fifo : list NodeRef) (h : Heap)
  : result (list NodeRef * Heap) :=
  match succs with
  | [] => Ok (fifo, h)
  | succ :: rest =>
      h ← modify succ (set_dfsid num) h;
      mark_successors num rest (QueueFIFO_push succ fifo) h
  end.

(** Its second loop, with
    [bool ret = cont.insert(cur).second; assert(ret && ...)]. *)
Fixpoint getNodes_set_loop (fuel : nat) (num : N) (fifo : list NodeRef)
    (cont : gset NodeRef) (h : Heap) : result (gset NodeRef * Heap) :=
  match fifo with
  | [] => Ok (cont, h)
  | cur :: fifo =>
      match fuel with
      | O => Err OutOfFuel
      | S fuel =>
          let ret := bool_decide (cur ∉ cont) in
          let cont := {[cur]} ∪ cont in
          _ ← assert ret;
          cn ← deref h cur;
          '(fifo, h) ← visit_successors num (successors cn) fifo h;
          getNodes_set_loop fuel num fifo cont h
      end
  end.

(** [void getNodes(std::set<PSNode *>& cont, PSNode *n = nullptr)] *)
Definition getNodes_set (cont : gset NodeRef) (n : NodeRef)
    (ps : PointerSubgraph) : result (gset NodeRef * PointerSubgraph) :=
  let ps := set_dfsnum (incr_dfsnum (dfsnum ps)) ps in
  let fifo := if n =? nullptr then QueueFIFO_push (root ps) [] else [] in
  let n := if n =? nullptr then root ps else n in
  nn ← deref (nodes ps) n;
  '(fifo, h) ← mark_successors (dfsnum ps) (successors nn) fifo (nodes ps);
  '(cont, h) ← getNodes_set_loop (length fifo + base.size h) (dfsnum ps)
                 fifo cont h;
  Ok (cont, set_nodes h ps).

(** The queue with which the second loop of [getNodes_set] starts. *)
Definition set_start_queue (n : NodeRef) (ps : PointerSubgraph)
  : list NodeRef :=
  if n =? nullptr then root ps :: succs_of (nodes ps) (root ps)
  else succs_of (nodes ps) n.


(** What a traversal returns, the container and the state as they were
    if it does not return. *)
Definition traversal_result (cont : list NodeRef) (start_node : NodeRef)
    (start_set : option (gset NodeRef)) (ps : PointerSubgraph)
  : list NodeRef * PointerSubgraph :=
  match getNodes cont start_node start_set ps with
  | Ok r => r
  | Err _ => (cont, ps)
  end.

(** What the traversal into a set returns, the container and the state
    as they were if it does not return. *)
Definition set_traversal_result (cont : gset NodeRef) (n : NodeRef)
    (ps : PointerSubgraph) : gset NodeRef * PointerSubgraph :=
  match getNodes_set cont n ps with
  | Ok r => r
  | Err _ => (cont, ps)
  end.

(** * Theorems *)

(** ** Points-to mutators and the constructor *)

Lemma pointsTo_set_pointsTo s nd : pointsTo (set_pointsTo s nd) = s.
Proof. reflexivity. Qed.

Lemma elem_of_addPointsToUnknownOffset t nd p :
  p ∈ pointsTo (addPointsToUnknownOffset t nd).2 ↔
  p = Ptr t UNKNOWN_OFFSET
  ∨ (p ∈ pointsTo nd
     ∧ ¬ (ptr_target p = t ∧ isUnknown (ptr_offset p) = false)).
Proof.
  unfold addPointsToUnknownOffset. simpl.
  rewrite elem_of_union, elem_of_singleton, elem_of_filter. tauto.
Qed.

Lemma pts_count_zero p s : (pts_count p s =? 0) = bool_decide (p ∉ s).
Proof.
  unfold pts_count. destruct (decide (p ∈ s)) as [Hin|Hin].
  - by rewrite bool_decide_eq_false_2 by tauto.
  - by rewrite bool_decide_eq_true_2.
Qed.

Lemma addPointsTo_present t o nd :
  Ptr t UNKNOWN_OFFSET ∈ pointsTo nd → addPointsTo t o nd = (false, nd).
Proof.
  intros Hin. unfold addPointsTo.
  rewrite pts_count_zero, bool_decide_eq_false_2 by tauto. done.
Qed.

Lemma addPointsTo_absent_concrete t c nd :
  Ptr t UNKNOWN_OFFSET ∉ pointsTo nd →
  addPointsTo t (Concrete c) nd =
  (bool_decide (Ptr t (Concrete c) ∉ pointsTo nd),
   set_pointsTo ({[Ptr t (Concrete c)]} ∪ pointsTo nd) nd).
Proof.
  intros Hin. unfold addPointsTo.
  rewrite pts_count_zero, bool_decide_eq_true_2 by done. done.
Qed.

Lemma addPointsTo_absent_unknown t nd :
  Ptr t UNKNOWN_OFFSET ∉ pointsTo nd →
  addPointsTo t UNKNOWN_OFFSET nd = addPointsToUnknownOffset t nd.
Proof.
  intros Hin. unfold addPointsTo.
  rewrite pts_count_zero, bool_decide_eq_true_2 by done. done.
Qed.

Lemma addPointsTo_saturated t o nd :
  saturated (pointsTo nd) → saturated (pointsTo (addPointsTo t o nd).2).
Proof.
  intros Hsat.
  destruct (decide (Ptr t UNKNOWN_OFFSET ∈ pointsTo nd)) as [Hin|Hin].
  { by rewrite addPointsTo_present. }
  destruct o as [c|].
  - rewrite addPointsTo_absent_concrete by done. simpl.
    intros t' c' Hu Hc.
    apply elem_of_union in Hu as [Hu|Hu]; [set_solver|].
    apply elem_of_union in Hc as [Hc|Hc].
    + apply elem_of_singleton in Hc. injection Hc as -> ->. done.
    + by apply (Hsat t' c').
  - rewrite addPointsTo_absent_unknown by done.
    intros t' c' Hu Hc.
    apply elem_of_addPointsToUnknownOffset in Hu, Hc.
    destruct Hc as [Hc|[Hc Hne]]; [done|].
    destruct Hu as [Hu|[Hu _]].
    + injection Hu as ->. apply Hne. done.
    + by apply (Hsat t' c').
Qed.

Lemma addPointsTo_list_saturated calls changed nd :
  saturated (pointsTo nd) →
  saturated (pointsTo (addPointsTo_list calls changed nd).2).
Proof.
  revert changed nd. induction calls as [|p calls IH]; intros changed nd Hsat.
  - done.
  - simpl. unfold addPointsTo_ptr.
    pose proof (addPointsTo_saturated (ptr_target p) (ptr_offset p) nd Hsat) as H1.
    destruct (addPointsTo (ptr_target p) (ptr_offset p) nd) as [c nd'].
    by apply IH.
Qed.

Lemma saturated_empty : saturated ∅.
Proof. intros t c Hin. set_solver. Qed.

Lemma saturated_singleton p : saturated {[p]}.
Proof.
  intros t c Hu Hc. apply elem_of_singleton in Hu, Hc. congruence.
Qed.

(** What the constructor leaves in the points-to set, by kind. *)
Lemma PSNode_new_pointsTo this t args nd :
  PSNode_new this t args = Ok nd →
  pointsTo nd =
    match t with
    | ALLOC | DYN_ALLOC | FUNCTION | NULL_ADDR => {[Ptr this (Concrete 0)]}
    | UNKNOWN_MEM => {[Ptr this UNKNOWN_OFFSET]}
    | CONSTANT =>
        match args with
        | VaNode op :: VaU64 off :: _ => {[Ptr op off]}
        | _ => ∅
        end
    | _ => ∅
    end.
Proof.
  unfold PSNode_new. intros Hnew.
  destruct t; simpl in Hnew;
    repeat match type of Hnew with
    | context [va_arg_node ?a] =>
        destruct a as [|[?|?] ?]; simpl in Hnew; try discriminate
    | context [va_arg_u64 ?a] =>
        destruct a as [|[?|?] ?]; simpl in Hnew; try discriminate
    | context [va_null_terminated ?a] =>
        destruct (va_null_terminated a); simpl in Hnew; try discriminate
    end;
    inversion Hnew; subst nd; simpl; try reflexivity;
    unfold pts_insert; simpl; apply (right_id_L ∅ (∪)).
Qed.

Lemma PSNode_new_saturated this t args nd :
  PSNode_new this t args = Ok nd → saturated (pointsTo nd).
Proof.
  intros Hnew. rewrite (PSNode_new_pointsTo _ _ _ _ Hnew).
  destruct t; try apply saturated_empty; try apply saturated_singleton.
  destruct args as [|[?|?] [|[?|?] ?]];
    try apply saturated_empty; apply saturated_singleton.
Qed.

(** C1.  Whatever node the constructor builds and whatever pointers are
    then added through [addPointsTo], the points-to set never holds both
    [(t, UNKNOWN)] and [(t, c)] for a concrete [c].  Adding [(t, c)]
    while [(t, UNKNOWN)] is there returns false and changes nothing, and
    adding [(t, UNKNOWN)] leaves [(t, UNKNOWN)] as the only entry of the
    target [t], the entries of the other targets being kept. *)
Theorem addPointsTo_saturation :
  (∀ this t args nd calls,
      PSNode_new this t args = Ok nd →
      saturated (pointsTo (after_calls calls nd)))
  ∧ (∀ nd t c,
      Ptr t UNKNOWN_OFFSET ∈ pointsTo nd →
      addPointsTo t (Concrete c) nd = (false, nd))
  ∧ (∀ nd t,
      saturated (pointsTo nd) →
      ∀ p, p ∈ pointsTo (addPointsTo t UNKNOWN_OFFSET nd).2 ↔
           p = Ptr t UNKNOWN_OFFSET ∨ (p ∈ pointsTo nd ∧ ptr_target p ≠ t)).
Proof.
  split; [|split].
  - intros this t args nd calls Hnew. unfold after_calls.
    apply addPointsTo_list_saturated. by eapply PSNode_new_saturated.
  - intros nd t c Hin. by apply addPointsTo_present.
  - intros nd t Hsat p.
    destruct (decide (Ptr t UNKNOWN_OFFSET ∈ pointsTo nd)) as [Hin|Hin].
    + rewrite addPointsTo_present by done. simpl. split.
      * intros Hp. destruct p as [t' [c|]].
        -- right. split; [done|]. simpl. intros ->. by apply (Hsat t c).
        -- destruct (decide (t' = t)) as [->|Hne]; [by left|by right].
      * intros [->|[Hp _]]; done.
    + rewrite addPointsTo_absent_unknown by done.
      rewrite elem_of_addPointsToUnknownOffset. split.
      * intros [->|[Hp Hne]]; [by left|].
        right. split; [done|]. intros Heq. destruct p as [t' [c|]]; simpl in *.
        -- apply Hne. done.
        -- subst. done.
      * intros [->|[Hp Hne]]; [by left|]. right. split; [done|]. tauto.
Qed.

Lemma addPointsTo_saturation_witness :
  addPointsTo 7 (Concrete 4) (set_pointsTo {[Ptr 7 UNKNOWN_OFFSET]} (PSNode_init NOOP))
  = (false, set_pointsTo {[Ptr 7 UNKNOWN_OFFSET]} (PSNode_init NOOP))
  ∧ saturated (pointsTo (after_calls [Ptr 1 UNKNOWN_OFFSET; Ptr 1 (Concrete 8)]
                           (addPointsTo 1 (Concrete 0) (PSNode_init ALLOC)).2)).
Proof.
  split.
  - apply (proj1 (proj2 addPointsTo_saturation)). by vm_compute.
  - apply (proj1 addPointsTo_saturation 1 ALLOC []). reflexivity.
Defined.

(** ** Operands *)

(** C9.  [getOperand(idx)] fails its assertion when [idx] is negative or
    not below the number of operands, and returns the operand at [idx]
    otherwise. *)
Theorem getOperand_in_range_or_abort (nd : PSNode) (idx : Z) :
  ((idx < 0 ∨ Z.of_nat (length (operands nd)) ≤ idx)%Z →
     getOperand idx nd = Err AssertionFailed)
  ∧ ((0 ≤ idx < Z.of_nat (length (operands nd)))%Z →
     ∃ op, operands nd !! Z.to_nat idx = Some op
           ∧ getOperand idx nd = Ok op).
Proof.
  unfold getOperand. split.
  - intros Hout.
    assert (((0 <=? idx)%Z && (Z.to_nat idx <? length (operands nd))%nat)
            = false) as ->; [|done].
    apply andb_false_iff. destruct Hout as [Hneg|Hbig].
    + left. apply Z.leb_gt. done.
    + right. apply Nat.ltb_ge. lia.
  - intros [Hlo Hhi].
    assert (((0 <=? idx)%Z && (Z.to_nat idx <? length (operands nd))%nat)
            = true) as ->.
    { apply andb_true_iff. split; [by apply Z.leb_le|apply Nat.ltb_lt; lia]. }
    simpl.
    destruct (lookup_lt_is_Some_2 (operands nd) (Z.to_nat idx)) as [op Hop];
      [lia|].
    exists op. by rewrite Hop.
Qed.

Lemma getOperand_in_range_or_abort_witness :
  getOperand 5 (set_operands [7; 8] (PSNode_init STORE)) = Err AssertionFailed
  ∧ getOperand (-1) (set_operands [7; 8] (PSNode_init STORE))
    = Err AssertionFailed
  ∧ ∃ op, [7; 8] !! Z.to_nat 1 = Some op
          ∧ getOperand 1 (set_operands [7; 8] (PSNode_init STORE)) = Ok op.
Proof.
  split; [|split].
  - apply (proj1 (getOperand_in_range_or_abort _ 5)). simpl. lia.
  - apply (proj1 (getOperand_in_range_or_abort _ (-1))). simpl. lia.
  - apply (proj2 (getOperand_in_range_or_abort
                    (set_operands [7; 8] (PSNode_init STORE)) 1)).
    simpl. lia.
Defined.

(** ** The heap *)

Lemma deref_Ok h p nd : deref h p = Ok nd ↔ p ≠ nullptr ∧ h !! p = Some nd.
Proof.
  unfold deref. destruct (N.eqb_spec p nullptr) as [->|Hne].
  - split; [done|]. intros [? _]. done.
  - destruct (h !! p) as [nd'|]; split; try done.
    + intros [= ->]. done.
    + intros [_ [= ->]]. done.
    + intros [_ ?]. done.
Qed.

Lemma deref_insert h p nd a :
  p ≠ nullptr →
  deref (<[p := nd]> h) a = if decide (a = p) then Ok nd else deref h a.
Proof.
  intros Hp. unfold deref. destruct (decide (a = p)) as [->|Hne].
  - destruct (N.eqb_spec p nullptr); [done|]. by rewrite lookup_insert_eq.
  - by rewrite lookup_insert_ne.
Qed.

Lemma modify_Ok p f h h' :
  modify p f h = Ok h' ↔ ∃ nd, deref h p = Ok nd ∧ h' = <[p := f nd]> h.
Proof.
  unfold modify. destruct (deref h p) as [nd|e]; simpl.
  - split.
    + intros [= <-]. by exists nd.
    + intros (nd' & [= <-] & ->). done.
  - split; [done|]. intros (nd' & ? & _). done.
Qed.

Lemma succs_of_insert h p nd a :
  p ≠ nullptr →
  succs_of (<[p := nd]> h) a
  = if decide (a = p) then successors nd else succs_of h a.
Proof.
  intros Hp. unfold succs_of. rewrite deref_insert by done.
  by destruct (decide (a = p)).
Qed.

Lemma preds_of_insert h p nd a :
  p ≠ nullptr →
  preds_of (<[p := nd]> h) a
  = if decide (a = p) then predecessors nd else preds_of h a.
Proof.
  intros Hp. unfold preds_of. rewrite deref_insert by done.
  by destruct (decide (a = p)).
Qed.

Lemma succs_of_deref h a nd : deref h a = Ok nd → succs_of h a = successors nd.
Proof. unfold succs_of. by intros ->. Qed.

Lemma preds_of_deref h a nd :
  deref h a = Ok nd → preds_of h a = predecessors nd.
Proof. unfold preds_of. by intros ->. Qed.

(** ** Replacing references in a vector *)

Lemma replace_refs_prefix old new v k :
  (k ≤ length v)%nat →
  foldl (replace_at old new) v (seq 0 k)
  = map (redirect old new) (take k v) ++ drop k v.
Proof.
  induction k as [|k IH]; intros Hk.
  - simpl. by rewrite drop_0.
  - rewrite seq_S, foldl_app, IH by lia. simpl.
    destruct (lookup_lt_is_Some_2 v k) as [x Hx]; [lia|].
    rewrite (take_S_r _ _ _ Hx), map_app, <- app_assoc. simpl.
    rewrite (drop_S _ _ _ Hx).
    assert (length (map (redirect old new) (take k v)) = k) as Hlen.
    { rewrite length_map, length_take. lia. }
    unfold replace_at.
    assert ((map (redirect old new) (take k v) ++ x :: drop (S k) v) !! k
            = Some x) as Hlook.
    { rewrite lookup_app_r by lia. by rewrite Hlen, Nat.sub_diag. }
    rewrite Hlook.
    destruct (decide (x = old)) as [->|Hne].
    + rewrite decide_True by done.
      rewrite insert_app_r_alt by lia. rewrite Hlen, Nat.sub_diag. simpl.
      unfold redirect at 3. by rewrite decide_True.
    + rewrite decide_False by congruence.
      unfold redirect at 3. by rewrite decide_False.
Qed.

Lemma replace_refs_map old new v :
  replace_refs old new v = map (redirect old new) v.
Proof.
  unfold replace_refs. rewrite replace_refs_prefix by lia.
  by rewrite firstn_all, drop_all, app_nil_r.
Qed.

Lemma replace_refs_idemp old new v :
  replace_refs old new (replace_refs old new v) = replace_refs old new v.
Proof.
  rewrite !replace_refs_map, map_map. apply map_ext. intros p.
  unfold redirect. repeat case_decide; congruence.
Qed.

Lemma occurrences_app x l1 l2 :
  occurrences x (l1 ++ l2) = (occurrences x l1 + occurrences x l2)%nat.
Proof. apply count_occ_app. Qed.

Lemma occurrences_zero x l : x ∉ l ↔ occurrences x l = 0%nat.
Proof.
  rewrite list_elem_of_In, (count_occ_not_In N.eq_dec). done.
Qed.

Lemma occurrences_pos x l : x ∈ l ↔ (0 < occurrences x l)%nat.
Proof.
  rewrite list_elem_of_In, (count_occ_In N.eq_dec). unfold occurrences. lia.
Qed.

Lemma occurrences_replace_refs old new a l :
  old ≠ new →
  occurrences a (replace_refs old new l)
  = if decide (a = new) then (occurrences new l + occurrences old l)%nat
    else if decide (a = old) then 0%nat
    else occurrences a l.
Proof.
  intros Hne. rewrite replace_refs_map. unfold occurrences.
  induction l as [|x l IH]; simpl.
  - by repeat case_decide.
  - rewrite IH. unfold redirect.
    destruct (decide (x = old)), (decide (a = new)), (decide (a = old));
      repeat destruct (N.eq_dec _ _); subst; try congruence; lia.
Qed.

Lemma replace_refs_absent old new l :
  old ∉ l → replace_refs old new l = l.
Proof.
  intros Hnot. rewrite replace_refs_map.
  induction l as [|x l IH]; [done|]. simpl.
  apply not_elem_of_cons in Hnot as [Hx Hl].
  rewrite IH by done. unfold redirect. by rewrite decide_False.
Qed.

(** ** Inserting a node after another *)

Lemma modify_deref p f h nd :
  deref h p = Ok nd → modify p f h = Ok (<[p := f nd]> h).
Proof. intros Hd. apply modify_Ok. by exists nd. Qed.

Lemma redirect_predecessors_spec n this succs h :
  (∀ s, s ∈ succs → ∃ nd, deref h s = Ok nd) →
  ∃ h', redirect_predecessors n this succs h = Ok h'
    ∧ (∀ a, succs_of h' a = succs_of h a)
    ∧ (∀ b, preds_of h' b
            = if decide (b ∈ succs) then replace_refs n this (preds_of h b)
              else preds_of h b).
Proof.
  revert h. induction succs as [|s succs IH]; intros h Hok.
  - exists h. split; [done|]. split; [done|]. intros b.
    rewrite decide_False; [done|]. apply not_elem_of_nil.
  - destruct (Hok s) as [sn Hs]; [left|].
    pose proof Hs as [Hs0 _]%deref_Ok.
    simpl. rewrite (modify_deref _ _ _ _ Hs). simpl.
    set (h1 := <[s := _]> h).
    destruct (IH h1) as (h' & Hrun & Hsuccs & Hpreds).
    { intros s' Hin. unfold h1. rewrite deref_insert by done.
      case_decide; [by eexists|]. apply Hok. by right. }
    exists h'. split; [done|]. split.
    + intros a. rewrite Hsuccs. unfold h1. rewrite succs_of_insert by done.
      case_decide; [|done]. subst a. simpl. by rewrite (succs_of_deref _ _ _ Hs).
    + intros b. rewrite Hpreds. unfold h1. rewrite !preds_of_insert by done.
      rewrite <- (preds_of_deref _ _ _ Hs). simpl.
      destruct (decide (b = s)) as [->|Hne].
      * rewrite (decide_True (P := (s ∈ s :: succs))) by left.
        case_decide; [apply replace_refs_idemp|done].
      * destruct (decide (b ∈ succs)) as [Hin|Hin].
        -- rewrite decide_True by (by right). done.
        -- rewrite decide_False; [done|].
           intros [?|?]%elem_of_cons; done.
Qed.

(** C6.  In a heap whose edges are symmetric, let [B] be a successor of
    [A] and let [X] be a node without successors and predecessors.
    Then [X.insertAfter(A)] returns, and afterwards [X] is the successor
    of [A], [B] is a successor of [X], the matching predecessor entries
    are there, [A] is no predecessor of [B] any more, and the edges of
    the heap are symmetric again. *)
Theorem insertAfter_chain (h : Heap) (X A B : NodeRef) (nx na : PSNode) :
  edge_symmetric h →
  deref h X = Ok nx → successors nx = [] → predecessors nx = [] →
  deref h A = Ok na → B ∈ successors na →
  ∃ h', insertAfter X A h = Ok h'
    ∧ succs_of h' A = [X]
    ∧ B ∈ succs_of h' X
    ∧ A ∈ preds_of h' X
    ∧ X ∈ preds_of h' B
    ∧ (A ∉ preds_of h' B)
    ∧ edge_symmetric h'.
Proof.
  intros Hsym HX Hs Hp HA HB.
  assert (X ≠ A) as HXA.
  { intros ->. rewrite HX in HA. injection HA as ->.
    rewrite Hs in HB. by apply elem_of_nil in HB. }
  pose proof HX as [HX0 _]%deref_Ok. pose proof HA as [HA0 _]%deref_Ok.
  pose proof (succs_of_deref _ _ _ HX) as HsX. rewrite Hs in HsX.
  pose proof (preds_of_deref _ _ _ HX) as HpX. rewrite Hp in HpX.
  pose proof (succs_of_deref _ _ _ HA) as HsA.
  assert (∀ a, occurrences X (succs_of h a) = 0%nat) as G1.
  { intros a. by rewrite Hsym, HpX. }
  assert (∀ b, occurrences X (preds_of h b) = 0%nat) as G2.
  { intros b. by rewrite <- Hsym, HsX. }
  (* the calls before the loop *)
  unfold insertAfter. rewrite HX. simpl.
  unfold predecessorsNum, successorsNum. rewrite Hs, Hp. simpl.
  rewrite HA. simpl.
  rewrite (modify_deref _ _ _ _ HX). simpl.
  set (h1 := <[X := _]> h).
  assert (deref h1 A = Ok na) as HA1.
  { unfold h1. rewrite deref_insert, decide_False by done. done. }
  rewrite (modify_deref _ _ _ _ HA1). simpl.
  set (h2 := <[A := _]> h1).
  unfold addSuccessor.
  assert (deref h2 A = Ok (set_successors [] na)) as HA2.
  { unfold h2. rewrite deref_insert, decide_True by done. done. }
  rewrite (modify_deref _ _ _ _ HA2). simpl.
  set (h3 := <[A := _]> h2).
  assert (deref h3 X = Ok (set_successors (successors na) nx)) as HX3.
  { unfold h3, h2, h1.
    rewrite !deref_insert, decide_False, decide_False, decide_True by done.
    done. }
  rewrite (modify_deref _ _ _ _ HX3). simpl.
  set (h4 := <[X := _]> h3).
  assert (∀ a, succs_of h4 a
               = if decide (a = X) then successors na
                 else if decide (a = A) then [X] else succs_of h a) as Hs4.
  { intros a. unfold h4, h3, h2, h1. rewrite !succs_of_insert by done.
    repeat case_decide; done. }
  assert (∀ b, preds_of h4 b
               = if decide (b = X) then [A] else preds_of h b) as Hp4.
  { intros b. unfold h4, h3, h2, h1. rewrite !preds_of_insert by done.
    repeat case_decide; subst; try done; simpl.
    - by rewrite Hp.
    - symmetry. by apply preds_of_deref. }
  assert (deref h4 X
          = Ok (set_predecessors ([] ++ [A]) (set_successors (successors na) nx)))
    as HX4.
  { unfold h4. rewrite deref_insert, decide_True by done. by rewrite Hp. }
  rewrite HX4. simpl.
  (* the loop *)
  destruct (redirect_predecessors_spec A X (successors na) h4)
    as (h' & Hrun & Hs' & Hp').
  { intros s Hin.
    assert (∃ nd, deref h s = Ok nd) as [nd Hnd].
    { apply occurrences_pos in Hin. rewrite <- HsA, Hsym in Hin.
      unfold preds_of in Hin. destruct (deref h s); [by eexists|].
      simpl in Hin. lia. }
    unfold h4, h3, h2, h1. rewrite !deref_insert by done.
    repeat case_decide; by eexists. }
  assert (X ∉ successors na) as HXS.
  { apply occurrences_zero. rewrite <- HsA. apply G1. }
  assert (∀ b, b ≠ X → preds_of h' b = replace_refs A X (preds_of h b)) as Hp''.
  { intros b Hb. rewrite Hp', Hp4.
    rewrite (decide_False (P := (b = X))) by done.
    case_decide as Hin; [done|]. symmetry. apply replace_refs_absent.
    apply occurrences_zero. rewrite <- Hsym, HsA. by apply occurrences_zero. }
  assert (B ≠ X) as HBX by (intros ->; done).
  exists h'. split; [done|].
  split. { rewrite Hs', Hs4. by rewrite decide_False, decide_True. }
  split. { rewrite Hs', Hs4. by rewrite decide_True. }
  split.
  { rewrite Hp', Hp4.
    rewrite (decide_False (P := (X ∈ successors na))) by done.
    rewrite decide_True by done. left. }
  split.
  { rewrite Hp'' by done. apply occurrences_pos.
    rewrite occurrences_replace_refs, decide_True by done.
    apply occurrences_pos in HB. rewrite <- HsA, Hsym in HB. lia. }
  split.
  { rewrite Hp'' by done. apply occurrences_zero.
    rewrite occurrences_replace_refs by done.
    rewrite decide_False, decide_True by done. done. }
  intros a b. rewrite Hs', Hs4.
  destruct (decide (b = X)) as [->|Hb].
  - assert (preds_of h' X = [A]) as ->.
    { rewrite Hp', Hp4.
      rewrite (decide_False (P := (X ∈ successors na))) by done.
      by rewrite decide_True. }
    unfold occurrences at 2. simpl.
    destruct (decide (a = X)) as [->|Ha].
    + rewrite <- HsA, G1. by destruct (N.eq_dec A X).
    + destruct (decide (a = A)) as [->|Ha'].
      * unfold occurrences. simpl.
        destruct (N.eq_dec X X), (N.eq_dec A A); done.
      * rewrite G1. by destruct (N.eq_dec A a).
  - rewrite Hp'' by done. rewrite occurrences_replace_refs by done.
    destruct (decide (a = X)) as [->|Ha].
    + rewrite G2, <- HsA, Hsym. done.
    + destruct (decide (a = A)) as [->|Ha'].
      * unfold occurrences. simpl. by destruct (N.eq_dec X b).
      * apply Hsym.
Qed.

Lemma elem_of_node_refs h a : a ∈ node_refs h ↔ ∃ nd, deref h a = Ok nd.
Proof.
  unfold node_refs. rewrite list_elem_of_filter, elem_of_elements, elem_of_dom.
  split.
  - intros [Ha [nd Hnd]]. exists nd. by apply deref_Ok.
  - intros [nd [Ha Hnd]%deref_Ok]. split; [done|by exists nd].
Qed.

Lemma not_node_ref_edges h a :
  a ∉ node_refs h → succs_of h a = [] ∧ preds_of h a = [].
Proof.
  intros Hnot. unfold succs_of, preds_of.
  destruct (deref h a) as [nd|] eqn:Hd; [|done].
  exfalso. apply Hnot, elem_of_node_refs. by exists nd.
Qed.

Lemma edge_symmetricb_sound h : edge_symmetricb h = true → edge_symmetric h.
Proof.
  unfold edge_symmetricb. rewrite forallb_forall. intros Hall.
  assert (∀ a, a ∈ node_refs h →
            (∀ x, x ∈ succs_of h a ++ preds_of h a → x ∈ node_refs h)
            ∧ ∀ b, b ∈ node_refs h →
                occurrences b (succs_of h a) = occurrences a (preds_of h b))
    as Hchk.
  { intros a Ha. apply list_elem_of_In, Hall, andb_true_iff in Ha as [H1 H2].
    rewrite forallb_forall in H1, H2. split.
    - intros x Hx. apply list_elem_of_In, H1 in Hx.
      by apply bool_decide_eq_true in Hx.
    - intros b Hb. apply list_elem_of_In, H2 in Hb. by apply Nat.eqb_eq. }
  intros a b.
  destruct (decide (a ∈ node_refs h)) as [Ha|Ha],
           (decide (b ∈ node_refs h)) as [Hb|Hb].
  - by apply Hchk.
  - destruct (not_node_ref_edges _ _ Hb) as [_ ->].
    transitivity 0%nat; [|done]. apply occurrences_zero. intros Hin.
    apply Hb, (proj1 (Hchk a Ha)), elem_of_app. by left.
  - destruct (not_node_ref_edges _ _ Ha) as [-> _].
    transitivity 0%nat; [done|]. symmetry. apply occurrences_zero. intros Hin.
    apply Ha, (proj1 (Hchk b Hb)), elem_of_app. by right.
  - destruct (not_node_ref_edges _ _ Ha) as [-> _].
    destruct (not_node_ref_edges _ _ Hb) as [_ ->]. done.
Qed.

Lemma insertAfter_chain_witness :
  ∃ h', insertAfter 3 1 chain_heap = Ok h'
    ∧ succs_of h' 1 = [3]
    ∧ 2 ∈ succs_of h' 3
    ∧ 1 ∈ preds_of h' 3
    ∧ 3 ∈ preds_of h' 2
    ∧ (1 ∉ preds_of h' 2)
    ∧ edge_symmetric h'.
Proof.
  apply (insertAfter_chain chain_heap 3 1 2
           (PSNode_init NOOP) (set_successors [2] (PSNode_init NOOP))).
  - apply edge_symmetricb_sound. vm_compute. reflexivity.
  - vm_compute. reflexivity.
  - reflexivity.
  - reflexivity.
  - vm_compute. reflexivity.
  - simpl. left.
Defined.

(** ** Replacing the single successor *)

Lemma copy_by_push_back (acc l : list NodeRef) :
  foldl (λ tmp p, tmp ++ [p]) acc l = acc ++ l.
Proof.
  revert acc. induction l as [|x l IH]; intros acc; simpl.
  - by rewrite app_nil_r.
  - rewrite IH, <- app_assoc. done.
Qed.

(** The vector that [replaceSingleSuccessor] swaps into the old
    successor is a copy of all its predecessors: the old successor keeps
    every predecessor it had. *)
Lemma replaceSingleSuccessor_old_predecessors h this succ old nd :
  deref h this = Ok nd → successors nd = [old] →
  old ≠ this → old ≠ succ →
  ∀ h', replaceSingleSuccessor this succ h = Ok h' →
        preds_of h' old = preds_of h old.
Proof.
  intros Hthis Hs Hot Hos h'. unfold replaceSingleSuccessor.
  rewrite Hthis. simpl. rewrite Hs. simpl.
  pose proof Hthis as [Ht0 _]%deref_Ok.
  rewrite (modify_deref _ _ _ _ Hthis). simpl.
  unfold addSuccessor.
  rewrite (modify_deref _ _ (<[this:=_]> h) (set_successors [] nd))
    by (by rewrite deref_insert, decide_True).
  simpl.
  destruct (modify succ _ _) as [h2|] eqn:Hm; simpl; [|done].
  apply modify_Ok in Hm as (sn & Hsn & ->).
  pose proof Hsn as [Hs0 _]%deref_Ok.
  rewrite !deref_insert, !(decide_False (P := (old = _))) by done.
  destruct (deref h old) as [on|] eqn:Hold; simpl; [|done].
  pose proof Hold as [Ho0 _]%deref_Ok.
  destruct (predecessorsNum on =? 0); simpl; [done|].
  rewrite copy_by_push_back. simpl.
  rewrite (modify_deref _ _ _ on)
    by (by rewrite !deref_insert, !(decide_False (P := (old = _)))).
  intros [= <-].
  rewrite preds_of_insert, decide_True by done. simpl.
  symmetry. by apply preds_of_deref.
Qed.

(** C4.  On the chain [1 → 2] with a third node [3], after
    [1.replaceSingleSuccessor(3)] the successors of [1] are [[3]] and [1]
    is a predecessor of [3], but [1] is still a predecessor of the old
    successor [2]: the edges are no longer symmetric. *)
Theorem replaceSingleSuccessor_keeps_back_edge :
  ∃ h', replaceSingleSuccessor 1 3 chain_heap = Ok h'
    ∧ succs_of h' 1 = [3]
    ∧ preds_of h' 3 = [1]
    ∧ preds_of h' 2 = [1]
    ∧ ¬ edge_symmetric h'.
Proof.
  destruct (replaceSingleSuccessor 1 3 chain_heap) as [h'|] eqn:Hrun;
    [|by vm_compute in Hrun].
  exists h'. split; [done|].
  assert (succs_of h' 1 = [3] ∧ preds_of h' 3 = [1] ∧ preds_of h' 2 = [1])
    as (H1 & H3 & H2).
  { revert Hrun. vm_compute. intros [= <-]. done. }
  repeat (split; [done|]).
  intros Hsym. specialize (Hsym 1 2). rewrite H1, H2 in Hsym.
  by vm_compute in Hsym.
Qed.

(** ** The traversal enumerator *)

(** C3.  With root [1], the edges [1 → 2 → 1] and the start node [2],
    the enumerator emits [2] only, although [1] is reachable from [2]:
    the root is marked as visited without being the start.  With the
    edges [1 → 2 → 2] and the start node [2] it emits [2] twice: the
    start node is not marked. *)
Theorem getNodes_marks_root_not_start :
  (∃ ps', getNodes [] 2 None (PointerSubgraph_new 1 cycle_heap)
          = Ok ([2], ps'))
  ∧ reachable cycle_heap 2 1
  ∧ (∃ ps', getNodes [] 2 None (PointerSubgraph_new 1 self_loop_heap)
            = Ok ([2; 2], ps')).
Proof.
  split; [|split].
  - destruct (getNodes [] 2 None (PointerSubgraph_new 1 cycle_heap))
      as [[l ps']|] eqn:Hrun; [|by vm_compute in Hrun].
    exists ps'. f_equal. f_equal.
    revert Hrun. vm_compute. by intros [= <- _].
  - eapply reachable_step; [apply reachable_refl|].
    vm_compute. left.
  - destruct (getNodes [] 2 None (PointerSubgraph_new 1 self_loop_heap))
      as [[l ps']|] eqn:Hrun; [|by vm_compute in Hrun].
    exists ps'. f_equal. f_equal.
    revert Hrun. vm_compute. by intros [= <- _].
Qed.

(** ** The solver *)

Section SolverFacts.
Context `{Hooks}.
Variable processNode :
  NodeRef → PointerSubgraph → result (bool * PointerSubgraph).

Lemma loop_body_order cur ps tr ps' tr' :
  loop_body processNode cur ps tr = Ok (ps', tr') →
  ∃ changed, iteration_enqueue_first processNode cur ps changed ps'
             ∧ tr' = tr ++ iteration_events cur changed.
Proof.
  unfold loop_body, iteration_enqueue_first, enqueue_if.
  destruct (beforeProcessed cur ps) as [ps1|] eqn:Hb; simpl; [|done].
  destruct (processNode cur ps1) as [[changed ps2]|] eqn:Hp; simpl; [|done].
  destruct changed; simpl.
  - destruct (enqueue cur ps2) as [ps3|] eqn:He; simpl; [|done].
    destruct (afterProcessed cur ps3) as [ps4|] eqn:Ha; simpl; [|done].
    intros [= <- <-]. exists true. split.
    + by exists ps1, ps2, ps3.
    + unfold iteration_events. by rewrite <- !app_assoc.
  - destruct (afterProcessed cur ps2) as [ps4|] eqn:Ha; simpl; [|done].
    intros [= <- <-]. exists false. split.
    + by exists ps1, ps2, ps2.
    + unfold iteration_events. by rewrite <- !app_assoc.
Qed.

Lemma loop_body_complete cur ps tr changed ps' :
  iteration_enqueue_first processNode cur ps changed ps' →
  loop_body processNode cur ps tr
  = Ok (ps', tr ++ iteration_events cur changed).
Proof.
  intros (ps1 & ps2 & ps3 & Hb & Hp & He & Ha).
  unfold loop_body. rewrite Hb. simpl. rewrite Hp. simpl.
  unfold enqueue_if in He. destruct changed; simpl.
  - rewrite He. simpl. rewrite Ha. simpl.
    unfold iteration_events. by rewrite <- !app_assoc.
  - injection He as ->. rewrite Ha. simpl.
    unfold iteration_events. by rewrite <- !app_assoc.
Qed.

Lemma run_loop_order fuel ps tr ps' tr' :
  run_loop processNode fuel ps tr = Ok (ps', tr') →
  ∃ steps, loop_iterations processNode ps steps ps'
           ∧ tr' = tr ++ iterations iteration_events steps.
Proof.
  revert ps tr. induction fuel as [|fuel IH]; intros ps tr; simpl.
  - destruct (queue ps) as [|cur q] eqn:Hq; [|done].
    intros [= <- <-]. exists []. split; [by constructor|].
    by rewrite app_nil_r.
  - destruct (queue ps) as [|cur q] eqn:Hq.
    + intros [= <- <-]. exists []. split; [by constructor|].
      by rewrite app_nil_r.
    + destruct (loop_body processNode cur (set_queue q ps) tr)
        as [[ps1 tr1]|] eqn:Hbody; simpl; [|done].
      intros Hrest. apply IH in Hrest as (steps & Hsteps & ->).
      apply loop_body_order in Hbody as (changed & Hiter & ->).
      exists ((cur, changed) :: steps). split.
      * by eapply loop_iteration.
      * unfold iterations. simpl. by rewrite <- app_assoc.
Qed.

Lemma run_loop_complete ps steps ps' tr :
  loop_iterations processNode ps steps ps' →
  run_loop processNode (length steps) ps tr
  = Ok (ps', tr ++ iterations iteration_events steps).
Proof.
  intros Hl. revert tr.
  induction Hl as [ps Hq|ps cur q changed ps1 steps ps' Hq Hiter _ IH];
    intros tr; simpl; rewrite Hq.
  - by rewrite app_nil_r.
  - rewrite (loop_body_complete _ _ tr _ _ Hiter). simpl.
    rewrite IH. unfold iterations. simpl. by rewrite <- app_assoc.
Qed.

Lemma run_loop_exit fuel ps tr ps' tr' :
  run_loop processNode fuel ps tr = Ok (ps', tr') → queue ps' = [].
Proof.
  revert ps tr. induction fuel as [|fuel IH]; intros ps tr; simpl.
  - destruct (queue ps) as [|cur q] eqn:Hq; [|done]. by intros [= <- <-].
  - destruct (queue ps) as [|cur q] eqn:Hq; [by intros [= <- <-]|].
    destruct (loop_body processNode cur (set_queue q ps) tr)
      as [[ps1 tr1]|]; simpl; [|done].
    apply IH.
Qed.

Lemma run_loop_empty_queue fuel ps tr :
  queue ps = [] → run_loop processNode fuel ps tr = Ok (ps, tr).
Proof. intros Hq. destruct fuel; simpl; by rewrite Hq. Qed.
End SolverFacts.

(** C10.  When the first loop of [run] exits, the queue is empty and a
    second loop started in that state returns it as it is, with nothing
    added to the log; [run] and [run] without the second loop are the
    same function. *)
Theorem run_second_loop_idle `{Hooks}
    (processNode : NodeRef → PointerSubgraph → result (bool * PointerSubgraph))
    (DEBUG_ENABLED : bool) (fuel : nat) (ps : PointerSubgraph) :
  (∀ tr ps1 tr1,
     run_loop processNode fuel ps tr = Ok (ps1, tr1) →
     queue ps1 = [] ∧ run_loop processNode fuel ps1 tr1 = Ok (ps1, tr1))
  ∧ run processNode DEBUG_ENABLED fuel ps
    = run_single_phase processNode DEBUG_ENABLED fuel ps.
Proof.
  split.
  - intros tr ps1 tr1 Hloop. apply run_loop_exit in Hloop.
    split; [done|]. by apply run_loop_empty_queue.
  - unfold run, run_single_phase.
    destruct (assert _); simpl; [|done].
    destruct (seed_queue ps) as [ps0|]; simpl; [|done].
    destruct (run_loop processNode fuel ps0 []) as [[ps1 tr1]|] eqn:Hloop;
      simpl; [|done].
    apply run_loop_exit in Hloop.
    by rewrite (run_loop_empty_queue _ _ _ _ Hloop).
Qed.

Lemma run_second_loop_idle_witness :
  queue store_loop_result.1 = []
  ∧ run_loop (H := flow_insensitive) (processNode (H := flow_insensitive)) 100
      store_loop_result.1 store_loop_result.2
    = Ok (store_loop_result.1, store_loop_result.2).
Proof.
  apply (proj1 (run_second_loop_idle (H := flow_insensitive)
                  (processNode (H := flow_insensitive)) false 100
                  store_loop_start) []).
  vm_compute. reflexivity.
Defined.

(** C2.  On the graph [store_after_load_heap], where a load precedes the
    store it reads from and a cast precedes the load, [run] returns and
    the pass made afterwards still sees [processNode] return true, with
    and without the pass of [DEBUG_ENABLED]. *)
Theorem run_stops_before_fixpoint :
  changed_after_run false = Ok true ∧ changed_after_run true = Ok true.
Proof. split; vm_compute; reflexivity. Qed.

(** ** The traversal terminates *)

Lemma unmarked_mark num h p nd :
  h !! p = Some nd → dfsid nd ≠ num →
  S (unmarked num (<[p := set_dfsid num nd]> h)) = unmarked num h.
Proof.
  intros Hp Hne. unfold unmarked.
  rewrite map_filter_insert_False by (simpl; tauto).
  rewrite map_filter_delete, map_size_delete_Some.
  - assert (base.size (filter (λ kv : NodeRef * PSNode, dfsid kv.2 ≠ num) h)
            ≠ 0%nat) as Hpos; [|lia].
    apply (map_size_ne_0_lookup_2 _ p). exists nd.
    by apply map_lookup_filter_Some.
  - exists nd. by apply map_lookup_filter_Some.
Qed.

Lemma unmarked_remark num h p nd :
  h !! p = Some nd →
  (unmarked num (<[p := set_dfsid num nd]> h) ≤ unmarked num h)%nat.
Proof.
  intros Hp. destruct (decide (dfsid nd = num)) as [Heq|Hne].
  - assert (set_dfsid num nd = nd) as ->.
    { destruct nd. simpl in *. by subst. }
    by rewrite insert_id.
  - rewrite <- (unmarked_mark num h p nd) by done. lia.
Qed.

Lemma visit_successors_measure num succs fifo h fifo' h' :
  visit_successors num succs fifo h = Ok (fifo', h') →
  (length fifo' + unmarked num h' = length fifo + unmarked num h)%nat.
Proof.
  revert fifo h. induction succs as [|s succs IH]; intros fifo h; simpl.
  - by intros [= <- <-].
  - destruct (deref h s) as [sn|] eqn:Hs; simpl; [|done].
    pose proof Hs as [_ Hl]%deref_Ok.
    destruct (N.eqb_spec (dfsid sn) num) as [Heq|Hne]; simpl.
    + apply IH.
    + rewrite (modify_deref _ _ _ _ Hs). simpl. intros Hrest.
      apply IH in Hrest. unfold QueueFIFO_push in Hrest.
      rewrite length_app in Hrest. simpl in Hrest.
      pose proof (unmarked_mark num h s sn Hl Hne). lia.
Qed.

Lemma deref_fuel h p : deref h p ≠ Err OutOfFuel.
Proof. unfold deref. by repeat case_match. Qed.

Lemma modify_fuel p f h : modify p f h ≠ Err OutOfFuel.
Proof.
  unfold modify. pose proof (deref_fuel h p).
  by destruct (deref h p) as [|[]].
Qed.

Lemma visit_successors_fuel num succs fifo h :
  visit_successors num succs fifo h ≠ Err OutOfFuel.
Proof.
  revert fifo h. induction succs as [|s succs IH]; intros fifo h; simpl; [done|].
  pose proof (deref_fuel h s).
  destruct (deref h s) as [sn|[]] eqn:Hs; simpl; try done.
  destruct (negb (dfsid sn =? num)); [|apply IH].
  rewrite (modify_deref _ _ _ _ Hs). simpl. apply IH.
Qed.

Lemma getNodes_loop_fuel fuel num fifo cont h :
  (length fifo + unmarked num h ≤ fuel)%nat →
  getNodes_loop fuel num fifo cont h ≠ Err OutOfFuel.
Proof.
  revert fifo cont h. induction fuel as [|fuel IH]; intros fifo cont h Hle.
  - destruct fifo; simpl in *; [done|lia].
  - destruct fifo as [|cur fifo]; simpl; [done|].
    pose proof (deref_fuel h cur).
    destruct (deref h cur) as [cn|[]]; simpl; try done.
    pose proof (visit_successors_fuel num (successors cn) fifo h).
    destruct (visit_successors num (successors cn) fifo h)
      as [[fifo' h']|[]] eqn:Hv; simpl; try done.
    apply IH. apply visit_successors_measure in Hv. simpl in Hle. lia.
Qed.

(** The traversal never runs out of the fuel that [getNodes] gives to
    its loop. *)
Lemma getNodes_terminates cont start_node start_set ps :
  getNodes cont start_node start_set ps ≠ Err OutOfFuel.
Proof.
  unfold getNodes, assert.
  destruct (negb (root ps =? nullptr)); simpl; [|done].
  destruct (negb _); simpl; [|done].
  match goal with
  | |- context [modify ?p ?f ?hh] =>
      pose proof (modify_fuel p f hh);
      destruct (modify p f hh) as [h|[]]
  end; simpl; try done.
  match goal with
  | |- context [getNodes_loop ?f ?n ?q ?c ?hh] =>
      pose proof (getNodes_loop_fuel f n q c hh) as Hfuel;
      destruct (getNodes_loop f n q c hh) as [[cont' h']|[]]
  end; simpl; try done.
  exfalso. apply Hfuel; [|done].
  pose proof (map_size_filter
                (λ kv : NodeRef * PSNode, dfsid kv.2 ≠ incr_dfsnum (dfsnum ps)) h).
  unfold unmarked. simpl. lia.
Qed.

(** ** What the solver keeps of a node *)

Lemma node_kept_refl nd : node_kept nd nd.
Proof. by split. Qed.

Lemma nodes_kept_refl h : nodes_kept h h.
Proof. intros n nd Hn. exists nd. split; [done|apply node_kept_refl]. Qed.

Lemma nodes_kept_trans h1 h2 h3 :
  nodes_kept h1 h2 → nodes_kept h2 h3 → nodes_kept h1 h3.
Proof.
  intros H12 H23 n nd Hn.
  destruct (H12 n nd Hn) as (nd2 & Hn2 & Ht2 & Hp2).
  destruct (H23 n nd2 Hn2) as (nd3 & Hn3 & Ht3 & Hp3).
  exists nd3. split; [done|]. split; [congruence|].
  intros Hk. rewrite Hp3, Hp2; [done..|]. by rewrite Ht2.
Qed.

Lemma nodes_kept_insert h p nd nd' :
  h !! p = Some nd → node_kept nd nd' → nodes_kept h (<[p := nd']> h).
Proof.
  intros Hp Hk n x Hn. destruct (decide (n = p)) as [->|Hne].
  - rewrite lookup_insert_eq. exists nd'. split; [done|]. congruence.
  - rewrite lookup_insert_ne by done. exists x.
    split; [done|apply node_kept_refl].
Qed.

Lemma modify_kept p f h h' :
  (∀ nd, node_kept nd (f nd)) → modify p f h = Ok h' → nodes_kept h h'.
Proof.
  intros Hf (nd & [_ Hnd]%deref_Ok & ->)%modify_Ok.
  by eapply nodes_kept_insert.
Qed.

Lemma set_dfsid_kept num nd : node_kept nd (set_dfsid num nd).
Proof. by split. Qed.

Lemma visit_successors_kept num succs fifo h fifo' h' :
  visit_successors num succs fifo h = Ok (fifo', h') → nodes_kept h h'.
Proof.
  revert fifo h. induction succs as [|s succs IH]; intros fifo h; simpl.
  - intros [= _ <-]. apply nodes_kept_refl.
  - destruct (deref h s) as [sn|]; simpl; [|done].
    destruct (negb (dfsid sn =? num)); [|apply IH].
    destruct (modify s (set_dfsid num) h) as [h1|] eqn:Hm; simpl; [|done].
    intros Hrest. eapply nodes_kept_trans; [|by eapply IH].
    eapply modify_kept; [|done]. apply set_dfsid_kept.
Qed.

Lemma getNodes_loop_kept fuel num fifo cont h cont' h' :
  getNodes_loop fuel num fifo cont h = Ok (cont', h') → nodes_kept h h'.
Proof.
  revert fifo cont h. induction fuel as [|fuel IH]; intros fifo cont h; simpl.
  - destruct fifo; [|done]. intros [= _ <-]. apply nodes_kept_refl.
  - destruct fifo as [|cur fifo]; [intros [= _ <-]; apply nodes_kept_refl|].
    destruct (deref h cur) as [cn|]; simpl; [|done].
    destruct (visit_successors num (successors cn) fifo h)
      as [[fifo1 h1]|] eqn:Hv; simpl; [|done].
    intros Hrest. eapply nodes_kept_trans; [by eapply visit_successors_kept|].
    by eapply IH.
Qed.

Lemma getNodes_kept cont start_node start_set ps cont' ps' :
  getNodes cont start_node start_set ps = Ok (cont', ps') →
  nodes_kept (nodes ps) (nodes ps').
Proof.
  unfold getNodes, assert.
  destruct (negb (root ps =? nullptr)); simpl; [|done].
  destruct (negb _); simpl; [|done].
  destruct (modify _ _ _) as [h|] eqn:Hm; simpl; [|done].
  destruct (getNodes_loop _ _ _ _ _) as [[c h']|] eqn:Hl; simpl; [|done].
  intros [= _ <-]. simpl.
  eapply nodes_kept_trans; [|by eapply getNodes_loop_kept].
  eapply modify_kept; [|done]. apply set_dfsid_kept.
Qed.

Lemma enqueue_default_kept n ps ps' :
  enqueue_default n ps = Ok ps' → nodes_kept (nodes ps) (nodes ps').
Proof.
  unfold enqueue_default.
  destruct (getNodes _ _ _ _) as [[q ps1]|] eqn:Hg; simpl; [|done].
  intros [= <-]. simpl. by eapply getNodes_kept.
Qed.

Lemma seed_queue_kept ps ps' :
  seed_queue ps = Ok ps' → nodes_kept (nodes ps) (nodes ps').
Proof.
  unfold seed_queue.
  destruct (getNodes _ _ _ _) as [[q ps1]|] eqn:Hg; simpl; [|done].
  intros [= <-]. simpl. by apply getNodes_kept in Hg.
Qed.

(** *** The transfer functions *)

Lemma addPointsTo_type t o nd : type (addPointsTo t o nd).2 = type nd.
Proof.
  unfold addPointsTo, addPointsToUnknownOffset, pts_insert.
  by repeat case_match.
Qed.

Lemma addPointsTo_list_type ptrs changed nd :
  type (addPointsTo_list ptrs changed nd).2 = type nd.
Proof.
  revert changed nd. induction ptrs as [|p ptrs IH]; intros changed nd; [done|].
  simpl. unfold addPointsTo_ptr.
  pose proof (addPointsTo_type (ptr_target p) (ptr_offset p) nd) as Ht.
  destruct (addPointsTo _ _ nd) as [c nd1]. simpl in Ht.
  by rewrite IH.
Qed.

Lemma computed_at_kept self ps ps' :
  computed_at self ps → nodes_kept (nodes ps) (nodes ps') →
  computed_at self ps'.
Proof.
  intros (nd & Hn & Hk) Hkept.
  destruct (Hkept self nd Hn) as (nd' & Hn' & Ht & _).
  exists nd'. split; [done|]. by rewrite Ht.
Qed.

Lemma node_addPointsTo_kept self ptrs ps changed ps' :
  computed_at self ps →
  node_addPointsTo self ptrs ps = Ok (changed, ps') →
  nodes_kept (nodes ps) (nodes ps').
Proof.
  intros (nd & Hn & Hk). unfold node_addPointsTo.
  destruct (deref (nodes ps) self) as [nd0|] eqn:Hd; simpl; [|done].
  apply deref_Ok in Hd as [_ Hd]. rewrite Hn in Hd. injection Hd as <-.
  pose proof (addPointsTo_list_type ptrs false nd) as Ht.
  destruct (addPointsTo_list ptrs false nd) as [c nd1]. simpl in Ht.
  intros [= _ <-]. simpl. eapply nodes_kept_insert; [done|].
  split; [done|]. intros Hc. congruence.
Qed.

Lemma for_each_kept {A} (I : PointerSubgraph → Prop)
    (body : A → PointerSubgraph → result (bool * PointerSubgraph)) l :
  (∀ ps ps', I ps → nodes_kept (nodes ps) (nodes ps') → I ps') →
  (∀ x ps c ps',
     I ps → body x ps = Ok (c, ps') → nodes_kept (nodes ps) (nodes ps')) →
  ∀ changed ps c ps',
    I ps → for_each body l changed ps = Ok (c, ps') →
    nodes_kept (nodes ps) (nodes ps').
Proof.
  intros Hstable Hbody. induction l as [|x l IH]; intros changed ps c ps' HI.
  - simpl. intros [= _ <-]. apply nodes_kept_refl.
  - simpl. destruct (body x ps) as [[c1 ps1]|] eqn:Hb; simpl; [|done].
    intros Hrest. pose proof (Hbody _ _ _ _ HI Hb) as Hk.
    eapply nodes_kept_trans; [done|].
    eapply IH; [|done]. by eapply Hstable.
Qed.

Lemma update_object_nodes m f ps : nodes (update_object m f ps).2 = nodes ps.
Proof. done. Qed.

Section BaseSolver.
Variable gmo : NodeRef → NodeRef → PointerSubgraph → list NodeRef.

Lemma processLoad_kept self ps c ps' :
  computed_at self ps →
  processLoad (H := base_hooks gmo) self ps = Ok (c, ps') →
  nodes_kept (nodes ps) (nodes ps').
Proof.
  intros HI. unfold processLoad.
  destruct (operand_pointsTo self 0 ps) as [ptrs|]; simpl; [|done].
  intros Hfe.
  refine (for_each_kept (computed_at self) _ _
            (computed_at_kept self) _ _ _ _ _ HI Hfe).
  clear. intros p ps c ps' HI Hfe.
  refine (for_each_kept (computed_at self) _ _
            (computed_at_kept self) _ _ _ _ _ HI Hfe).
  clear. intros m ps c ps' HI. simpl.
  destruct (decide _); [|by apply node_addPointsTo_kept].
  destruct (deref (nodes ps) (ptr_target p)) as [tn|]; simpl; [|done].
  destruct (zeroInitialized tn); [by apply node_addPointsTo_kept|].
  intros [= _ <-]. apply nodes_kept_refl.
Qed.

Lemma processStore_kept self ps c ps' :
  processStore (H := base_hooks gmo) self ps = Ok (c, ps') →
  nodes_kept (nodes ps) (nodes ps').
Proof.
  unfold processStore.
  destruct (operand_pointsTo self 0 ps) as [value|]; simpl; [|done].
  destruct (operand_pointsTo self 1 ps) as [dest|]; simpl; [|done].
  intros Hfe.
  refine (for_each_kept (λ _, True) _ _ (λ _ _ _ _, I) _ _ _ _ _ I Hfe).
  clear. intros p ps c ps' _ Hfe.
  refine (for_each_kept (λ _, True) _ _ (λ _ _ _ _, I) _ _ _ _ _ I Hfe).
  clear. intros m ps c ps' _ [= _ <-]. apply nodes_kept_refl.
Qed.

Lemma processMemcpy_kept self ps c ps' :
  processMemcpy (H := base_hooks gmo) self ps = Ok (c, ps') →
  nodes_kept (nodes ps) (nodes ps').
Proof.
  unfold processMemcpy.
  destruct (deref (nodes ps) self) as [nd|]; simpl; [|done].
  destruct (operand_pointsTo self 0 ps) as [src|]; simpl; [|done].
  destruct (operand_pointsTo self 1 ps) as [dst|]; simpl; [|done].
  intros Hfe.
  refine (for_each_kept (λ _, True) _ _ (λ _ _ _ _, I) _ _ _ _ _ I Hfe).
  clear. intros sp ps c ps' _ Hfe.
  refine (for_each_kept (λ _, True) _ _ (λ _ _ _ _, I) _ _ _ _ _ I Hfe).
  clear. intros sm ps c ps' _ Hfe.
  refine (for_each_kept (λ _, True) _ _ (λ _ _ _ _, I) _ _ _ _ _ I Hfe).
  clear. intros dp ps c ps' _ Hfe.
  refine (for_each_kept (λ _, True) _ _ (λ _ _ _ _, I) _ _ _ _ _ I Hfe).
  clear. intros dm ps c ps' _ [= _ <-]. apply nodes_kept_refl.
Qed.

Lemma processGep_kept self ps c ps' :
  computed_at self ps →
  processGep self ps = Ok (c, ps') →
  nodes_kept (nodes ps) (nodes ps').
Proof.
  intros HI. unfold processGep.
  destruct (deref (nodes ps) self) as [nd|]; simpl; [|done].
  destruct (operand_pointsTo self 0 ps) as [base|]; simpl; [|done].
  by apply node_addPointsTo_kept.
Qed.

Lemma processCast_kept self ps c ps' :
  computed_at self ps →
  processCast self ps = Ok (c, ps') →
  nodes_kept (nodes ps) (nodes ps').
Proof.
  intros HI. unfold processCast.
  destruct (operand_pointsTo self 0 ps) as [x|]; simpl; [|done].
  by apply node_addPointsTo_kept.
Qed.

Lemma processPhi_kept self ps c ps' :
  computed_at self ps →
  processPhi self ps = Ok (c, ps') →
  nodes_kept (nodes ps) (nodes ps').
Proof.
  intros HI. unfold processPhi.
  destruct (deref (nodes ps) self) as [nd|]; simpl; [|done].
  intros Hfe.
  refine (for_each_kept (computed_at self) _ _
            (computed_at_kept self) _ _ _ _ _ HI Hfe).
  clear. intros op ps c ps' HI. cbv beta.
  destruct (deref (nodes ps) op) as [on|]; simpl; [|done].
  by apply node_addPointsTo_kept.
Qed.

Lemma processFuncptr_kept self ps c ps' :
  processFuncptr (H := base_hooks gmo) self ps = Ok (c, ps') →
  nodes_kept (nodes ps) (nodes ps').
Proof.
  unfold processFuncptr.
  destruct (operand_pointsTo self 0 ps) as [fp|]; simpl; [|done].
  intros Hfe.
  refine (for_each_kept (λ _, True) _ _ (λ _ _ _ _, I) _ _ _ _ _ I Hfe).
  clear. intros p ps c ps' _. cbv beta.
  destruct (deref (nodes ps) (ptr_target p)) as [tn|]; simpl; [|done].
  case_decide; intros [= _ <-]; apply nodes_kept_refl.
Qed.

Lemma processNode_kept self ps c ps' :
  processNode (H := base_hooks gmo) self ps = Ok (c, ps') →
  nodes_kept (nodes ps) (nodes ps').
Proof.
  unfold processNode.
  destruct (deref (nodes ps) self) as [nd|] eqn:Hd; simpl; [|done].
  apply deref_Ok in Hd as [_ Hd].
  destruct (type nd) eqn:Ht;
    try (intros [= _ <-]; apply nodes_kept_refl);
    try apply processStore_kept; try apply processMemcpy_kept;
    try apply processFuncptr_kept;
    (assert (computed_at self ps) as HI
       by (exists nd; split; [done|by rewrite Ht]));
    first [by apply processLoad_kept | by apply processGep_kept
          | by apply processCast_kept | by apply processPhi_kept].
Qed.

Lemma loop_body_kept cur ps tr ps' tr' :
  loop_body (H := base_hooks gmo) (processNode (H := base_hooks gmo))
    cur ps tr = Ok (ps', tr') →
  nodes_kept (nodes ps) (nodes ps').
Proof.
  unfold loop_body. simpl.
  destruct (processNode cur ps) as [[changed ps1]|] eqn:Hp; simpl; [|done].
  apply processNode_kept in Hp. destruct changed; simpl.
  - destruct (enqueue_default cur ps1) as [ps2|] eqn:He; simpl; [|done].
    apply enqueue_default_kept in He. intros [= <- _].
    by eapply nodes_kept_trans.
  - by intros [= <- _].
Qed.

Lemma run_loop_kept fuel ps tr ps' tr' :
  run_loop (H := base_hooks gmo) (processNode (H := base_hooks gmo))
    fuel ps tr = Ok (ps', tr') →
  nodes_kept (nodes ps) (nodes ps').
Proof.
  revert ps tr. induction fuel as [|fuel IH]; intros ps tr; simpl.
  - destruct (queue ps); [|done]. intros [= <- _]. apply nodes_kept_refl.
  - destruct (queue ps) as [|cur q];
      [intros [= <- _]; apply nodes_kept_refl|].
    destruct (loop_body _ cur (set_queue q ps) tr) as [[ps1 tr1]|] eqn:Hb;
      simpl; [|done].
    apply loop_body_kept in Hb. intros Hrest. apply IH in Hrest.
    by eapply nodes_kept_trans.
Qed.

Lemma debug_loop_kept fuel ps tr ps' tr' :
  debug_loop (H := base_hooks gmo) (processNode (H := base_hooks gmo))
    fuel ps tr = Ok (ps', tr') →
  nodes_kept (nodes ps) (nodes ps').
Proof.
  revert ps tr. induction fuel as [|fuel IH]; intros ps tr; simpl.
  - destruct (queue ps); [|done]. intros [= <- _]. apply nodes_kept_refl.
  - destruct (queue ps) as [|cur q];
      [intros [= <- _]; apply nodes_kept_refl|].
    unfold debug_body at 1. simpl.
    destruct (processNode cur (set_queue q ps)) as [[changed ps1]|] eqn:Hp;
      simpl; [|done].
    apply processNode_kept in Hp. intros Hrest. apply IH in Hrest.
    by eapply nodes_kept_trans.
Qed.

Lemma run_kept DEBUG_ENABLED fuel ps ps' tr :
  run (H := base_hooks gmo) (processNode (H := base_hooks gmo))
    DEBUG_ENABLED fuel ps = Ok (ps', tr) →
  nodes_kept (nodes ps) (nodes ps').
Proof.
  unfold run. destruct (assert _); simpl; [|done].
  destruct (seed_queue ps) as [ps0|] eqn:Hs; simpl; [|done].
  apply seed_queue_kept in Hs.
  destruct (run_loop _ fuel ps0 []) as [[ps1 tr1]|] eqn:H1; simpl; [|done].
  apply run_loop_kept in H1.
  destruct (run_loop _ fuel ps1 tr1) as [[ps2 tr2]|] eqn:H2; simpl; [|done].
  apply run_loop_kept in H2.
  assert (nodes_kept (nodes ps) (nodes ps2)) as H02
    by (eapply nodes_kept_trans; [|done]; by eapply nodes_kept_trans).
  unfold debug_pass. destruct DEBUG_ENABLED.
  - destruct (seed_queue ps2) as [ps3|] eqn:Hs3; simpl; [|done].
    apply seed_queue_kept in Hs3. intros Hd%debug_loop_kept.
    eapply nodes_kept_trans; [done|]. by eapply nodes_kept_trans.
  - by intros [= <- _].
Qed.

Lemma solver_operation_kept ps ps' :
  solver_operation gmo ps ps' → nodes_kept (nodes ps) (nodes ps').
Proof.
  intros [cur c Hop|cont sn ss cont' Hop|n Hop|dbg fuel tr Hop].
  - by eapply processNode_kept.
  - by eapply getNodes_kept.
  - by eapply enqueue_default_kept.
  - by eapply run_kept.
Qed.

Lemma solver_operations_kept ps ps' :
  rtc (solver_operation gmo) ps ps' → nodes_kept (nodes ps) (nodes ps').
Proof.
  induction 1 as [|ps1 ps2 ps3 Hop _ IH]; [apply nodes_kept_refl|].
  eapply nodes_kept_trans; [|done]. by apply solver_operation_kept.
Qed.

Lemma solver_operations_constant ps ps' n nd :
  rtc (solver_operation gmo) ps ps' →
  deref (nodes ps) n = Ok nd → computed_kind (type nd) = false →
  ∃ nd', deref (nodes ps') n = Ok nd'
         ∧ type nd' = type nd ∧ pointsTo nd' = pointsTo nd.
Proof.
  intros Hops [Hn Hd]%deref_Ok Hk.
  destruct (solver_operations_kept _ _ Hops n nd Hd) as (nd' & Hd' & Ht & Hp).
  exists nd'. split; [by apply deref_Ok|]. split; [done|by apply Hp].
Qed.
End BaseSolver.

(** ** Sentinels and allocation sites *)

(** C7.  The constructor gives a NULL_ADDR node the points-to set
    [{(self, 0)}] and an UNKNOWN_MEM node the set [{(self, UNKNOWN)}],
    and no sequence of operations of the solver (transfers, traversals,
    enqueues, runs) changes the kind or the points-to set of such a
    node. *)
Theorem sentinel_pointsTo_constant :
  (∀ this args nd,
     PSNode_new this NULL_ADDR args = Ok nd →
     pointsTo nd = {[Ptr this (Concrete 0)]})
  ∧ (∀ this args nd,
       PSNode_new this UNKNOWN_MEM args = Ok nd →
       pointsTo nd = {[Ptr this UNKNOWN_OFFSET]})
  ∧ (∀ gmo ps ps' n nd,
       rtc (solver_operation gmo) ps ps' →
       deref (nodes ps) n = Ok nd →
       type nd = NULL_ADDR ∨ type nd = UNKNOWN_MEM →
       ∃ nd', deref (nodes ps') n = Ok nd'
              ∧ type nd' = type nd ∧ pointsTo nd' = pointsTo nd).
Proof.
  split; [|split].
  - intros this args nd Hnew. by rewrite (PSNode_new_pointsTo _ _ _ _ Hnew).
  - intros this args nd Hnew. by rewrite (PSNode_new_pointsTo _ _ _ _ Hnew).
  - intros gmo ps ps' n nd Hops Hn Ht.
    eapply solver_operations_constant; [done..|].
    by destruct Ht as [-> | ->].
Qed.

Lemma sentinel_pointsTo_constant_witness :
  ∃ nd', deref (nodes (state_after_run true (PointerSubgraph_new 1 sentinel_heap)))
               100 = Ok nd'
         ∧ type nd' = type (set_pointsTo {[Ptr 100 (Concrete 0)]}
                              (PSNode_init NULL_ADDR))
         ∧ pointsTo nd' = pointsTo (set_pointsTo {[Ptr 100 (Concrete 0)]}
                                      (PSNode_init NULL_ADDR)).
Proof.
  apply (proj2 (proj2 sentinel_pointsTo_constant)
           (λ where_ what ps, [what])
           (PointerSubgraph_new 1 sentinel_heap)).
  - apply rtc_once.
    apply (op_run _ _ _ true 100%nat
             (match run (H := flow_insensitive)
                        (processNode (H := flow_insensitive)) true 100
                        (PointerSubgraph_new 1 sentinel_heap) with
              | Ok (_, tr) => tr
              | Err _ => []
              end)).
    vm_compute. reflexivity.
  - vm_compute. reflexivity.
  - left. reflexivity.
Defined.

(** C8.  The constructor puts [(self, 0)] into the points-to set of an
    ALLOC, DYN_ALLOC or FUNCTION node, and no sequence of operations of
    the solver changes the points-to set of such a node.  A call of
    [addPointsTo] keeps the entry, but for the call
    [addPointsTo(self, UNKNOWN)], which leaves [(self, UNKNOWN)] in its
    place. *)
Theorem alloc_self_pointer :
  (∀ this t args nd,
     t ∈ [ALLOC; DYN_ALLOC; FUNCTION] →
     PSNode_new this t args = Ok nd →
     Ptr this (Concrete 0) ∈ pointsTo nd)
  ∧ (∀ gmo ps ps' n nd,
       rtc (solver_operation gmo) ps ps' →
       deref (nodes ps) n = Ok nd →
       type nd ∈ [ALLOC; DYN_ALLOC; FUNCTION] →
       ∃ nd', deref (nodes ps') n = Ok nd'
              ∧ type nd' = type nd ∧ pointsTo nd' = pointsTo nd)
  ∧ (∀ nd self t o,
       Ptr self (Concrete 0) ∈ pointsTo nd →
       Ptr self (Concrete 0) ∈ pointsTo (addPointsTo t o nd).2
       ∨ (t = self ∧ o = UNKNOWN_OFFSET
          ∧ Ptr self UNKNOWN_OFFSET ∈ pointsTo (addPointsTo t o nd).2)).
Proof.
  split; [|split].
  - intros this t args nd Ht Hnew. rewrite (PSNode_new_pointsTo _ _ _ _ Hnew).
    repeat (apply elem_of_cons in Ht as [->|Ht]; [by apply elem_of_singleton|]).
    by apply elem_of_nil in Ht.
  - intros gmo ps ps' n nd Hops Hn Ht.
    eapply solver_operations_constant; [done..|].
    repeat (apply elem_of_cons in Ht as [->|Ht]; [done|]).
    by apply elem_of_nil in Ht.
  - intros nd self t o Hin.
    destruct (decide (Ptr t UNKNOWN_OFFSET ∈ pointsTo nd)) as [Hu|Hu].
    { left. by rewrite addPointsTo_present. }
    destruct o as [c|].
    + left. rewrite addPointsTo_absent_concrete by done. simpl.
      apply elem_of_union. by right.
    + rewrite addPointsTo_absent_unknown by done.
      destruct (decide (t = self)) as [->|Hne].
      * right. split; [done|]. split; [done|].
        apply elem_of_addPointsToUnknownOffset. by left.
      * left. apply elem_of_addPointsToUnknownOffset. right.
        split; [done|]. simpl. intros [? _]. congruence.
Qed.

Lemma alloc_self_pointer_witness :
  Ptr 1 (Concrete 0) ∈ pointsTo (addPointsTo 1 (Concrete 0) (PSNode_init ALLOC)).2
  ∧ (Ptr 1 (Concrete 0)
       ∈ pointsTo (addPointsTo 2 UNKNOWN_OFFSET
                     (addPointsTo 1 (Concrete 0) (PSNode_init ALLOC)).2).2
     ∨ (2 = 1 ∧ UNKNOWN_OFFSET = UNKNOWN_OFFSET
        ∧ Ptr 1 UNKNOWN_OFFSET
            ∈ pointsTo (addPointsTo 2 UNKNOWN_OFFSET
                          (addPointsTo 1 (Concrete 0) (PSNode_init ALLOC)).2).2)).
Proof.
  split.
  - apply (proj1 alloc_self_pointer 1 ALLOC []); [left|reflexivity].
  - apply (proj2 (proj2 alloc_self_pointer)). by vm_compute.
Defined.

(** C8 does not extend to every operation of the module.  On a fresh
    ALLOC node at address 1, [addPointsTo(1, UNKNOWN)] replaces [(1, 0)]
    by [(1, UNKNOWN)]. *)
Lemma addPointsTo_unknown_removes_self_pointer :
  ∃ nd, PSNode_new 1 ALLOC [] = Ok nd
        ∧ Ptr 1 (Concrete 0) ∈ pointsTo nd
        ∧ Ptr 1 (Concrete 0) ∉ pointsTo (addPointsTo 1 UNKNOWN_OFFSET nd).2.
Proof.
  eexists. split; [reflexivity|]. split; by vm_compute.
Qed.

(** ** The traversal from the root *)

Lemma same_edges_refl h : same_edges h h.
Proof. by intros a. Qed.

Lemma same_edges_trans h1 h2 h3 :
  same_edges h1 h2 → same_edges h2 h3 → same_edges h1 h3.
Proof. intros H12 H23 a. by rewrite H23, H12. Qed.

Lemma same_edges_mark num h p nd :
  h !! p = Some nd → same_edges h (<[p := set_dfsid num nd]> h).
Proof.
  intros Hp a. destruct (decide (a = p)) as [->|Hne].
  - by rewrite lookup_insert_eq, Hp.
  - by rewrite lookup_insert_ne.
Qed.

Lemma same_edges_deref h h' a nd :
  same_edges h h' → deref h a = Ok nd →
  ∃ nd', deref h' a = Ok nd' ∧ successors nd' = successors nd.
Proof.
  intros Hsame [Ha Hl]%deref_Ok. specialize (Hsame a). rewrite Hl in Hsame.
  destruct (h' !! a) as [nd'|] eqn:Hl'; [|done].
  exists nd'. split; [by apply deref_Ok|]. simpl in Hsame. congruence.
Qed.

Lemma same_edges_succs_of h h' a :
  same_edges h h' → succs_of h' a = succs_of h a.
Proof.
  intros Hsame. unfold succs_of, deref. specialize (Hsame a).
  destruct (a =? nullptr); [done|].
  destruct (h !! a), (h' !! a); simpl in *; congruence.
Qed.

Lemma marked_mark num h s sn n :
  deref h s = Ok sn →
  marked num (<[s := set_dfsid num sn]> h) n ↔ marked num h n ∨ n = s.
Proof.
  intros Hs. pose proof Hs as [Hs0 _]%deref_Ok. unfold marked.
  rewrite deref_insert by done. destruct (decide (n = s)) as [->|Hne].
  - split; [by right|]. intros _. by eexists.
  - split; [by left|]. by intros [?|?].
Qed.

Lemma visit_successors_spec num succs fifo h :
  (∀ s, s ∈ succs → ∃ nd, deref h s = Ok nd) →
  ∃ new h',
    visit_successors num succs fifo h = Ok (fifo ++ new, h')
    ∧ same_edges h h'
    ∧ (∀ n, marked num h' n ↔ marked num h n ∨ n ∈ new)
    ∧ NoDup new
    ∧ (∀ n, n ∈ new → ¬ marked num h n ∧ n ∈ succs)
    ∧ (∀ s, s ∈ succs → marked num h' s).
Proof.
  revert fifo h. induction succs as [|s succs IH]; intros fifo h Hok.
  - exists [], h. simpl. rewrite app_nil_r. split; [done|].
    split; [apply same_edges_refl|]. split.
    { intros n. split; [by left|]. intros [?|Hin]; [done|].
      by apply elem_of_nil in Hin. }
    split; [constructor|]. split; intros n Hin; by apply elem_of_nil in Hin.
  - destruct (Hok s) as [sn Hs]; [left|]. simpl. rewrite Hs. simpl.
    destruct (N.eqb_spec (dfsid sn) num) as [Heq|Hne]; simpl.
    + destruct (IH fifo h) as (new & h' & Hrun & Hsame & Hm & Hnd & Hnew & Hall).
      { intros s' Hin. apply Hok. by right. }
      exists new, h'. split; [done|]. split; [done|]. split; [done|].
      split; [done|]. split.
      * intros n Hin. destruct (Hnew n Hin). split; [done|by right].
      * intros s' [->|Hin]%elem_of_cons; [|by apply Hall].
        apply Hm. left. by exists sn.
    + rewrite (modify_deref _ _ _ _ Hs). simpl.
      pose proof Hs as [Hs0 Hl]%deref_Ok.
      set (h1 := <[s := set_dfsid num sn]> h).
      destruct (IH (QueueFIFO_push s fifo) h1)
        as (new & h' & Hrun & Hsame & Hm & Hnd & Hnew & Hall).
      { intros s' Hin. unfold h1. rewrite deref_insert by done.
        case_decide; [by eexists|]. apply Hok. by right. }
      exists (s :: new), h'. split.
      { rewrite Hrun. unfold QueueFIFO_push. by rewrite <- app_assoc. }
      split.
      { eapply same_edges_trans; [|done]. by apply same_edges_mark. }
      split.
      { intros n. rewrite Hm. unfold h1. rewrite marked_mark by done.
        rewrite elem_of_cons. tauto. }
      split.
      { constructor; [|done]. intros Hin. destruct (Hnew s Hin) as [Hnot _].
        apply Hnot. unfold h1. apply marked_mark; [done|]. by right. }
      split.
      * intros n [->|Hin]%elem_of_cons.
        -- split; [|left]. intros (nd & Hd & Hid). congruence.
        -- destruct (Hnew n Hin) as [Hnot Hin']. split; [|by right].
           intros Hmk. apply Hnot. unfold h1. apply marked_mark; [done|].
           by left.
      * intros s' [->|Hin]%elem_of_cons; [|by apply Hall].
        apply Hm. left. unfold h1. apply marked_mark; [done|]. by right.
Qed.

Lemma traversal_done h0 r (emitted : list NodeRef) :
  (∀ n, n ∈ emitted → reachable h0 r n) →
  (∀ n m, n ∈ emitted → m ∈ succs_of h0 n → m ∈ emitted) →
  r ∈ emitted →
  ∀ n, n ∈ emitted ↔ reachable h0 r n.
Proof.
  intros Hreach Hclosed Hr n. split; [apply Hreach|].
  induction 1 as [|n m _ IH Hm]; [done|]. by eapply Hclosed.
Qed.

Lemma getNodes_loop_spec num h0 r cont0 :
  heap_closed h0 →
  ∀ fuel fifo emitted h,
    same_edges h0 h →
    NoDup (emitted ++ fifo) →
    (∀ n, marked num h n ↔ n ∈ emitted ++ fifo) →
    (∀ n, n ∈ emitted ++ fifo → reachable h0 r n) →
    (∀ n m, n ∈ emitted → m ∈ succs_of h0 n → m ∈ emitted ++ fifo) →
    r ∈ emitted ++ fifo →
    (length fifo + unmarked num h ≤ fuel)%nat →
    ∃ l h',
      getNodes_loop fuel num fifo (cont0 ++ emitted) h = Ok (cont0 ++ l, h')
      ∧ same_edges h0 h'
      ∧ NoDup l
      ∧ ∀ n, n ∈ l ↔ reachable h0 r n.
Proof.
  intros Hcl. induction fuel as [|fuel IH];
    intros fifo emitted h Hsame Hnd Hmk Hreach Hsucc Hr Hfuel.
  - destruct fifo; simpl in Hfuel; [|lia]. rewrite app_nil_r in *.
    exists emitted, h. repeat (split; [done|]). by apply traversal_done.
  - destruct fifo as [|cur rest].
    { rewrite app_nil_r in *. exists emitted, h.
      repeat (split; [done|]). by apply traversal_done. }
    assert (marked num h cur) as (cn & Hcur & Hid).
    { apply Hmk, elem_of_app. right. left. }
    assert (successors cn = succs_of h0 cur) as Hsuccs.
    { rewrite <- (same_edges_succs_of h0 h) by done.
      symmetry. by apply succs_of_deref. }
    destruct (visit_successors_spec num (successors cn) rest h)
      as (new & h1 & Hrun & Hsame1 & Hmk1 & Hnd1 & Hnew & Hall).
    { intros s Hin. rewrite Hsuccs in Hin.
      destruct (Hcl cur s Hin) as [nd Hd].
      destruct (same_edges_deref _ _ _ _ Hsame Hd) as (nd' & Hd' & _).
      by exists nd'. }
    simpl. rewrite Hcur. simpl. rewrite Hrun. simpl.
    unfold QueueFIFO_push. rewrite <- app_assoc.
    assert (∀ n, n ∈ (emitted ++ [cur]) ++ rest ++ new
                 ↔ n ∈ emitted ++ cur :: rest ∨ n ∈ new) as Hmem.
    { intros n. rewrite !elem_of_app, !elem_of_cons, elem_of_nil. tauto. }
    apply IH.
    + by eapply same_edges_trans.
    + replace ((emitted ++ [cur]) ++ rest ++ new)
        with ((emitted ++ cur :: rest) ++ new)
        by (by rewrite <- !app_assoc).
      apply NoDup_app. split; [done|]. split; [|done].
      intros n Hin Hin'. destruct (Hnew n Hin') as [Hnot _].
      by apply Hnot, Hmk.
    + intros n. rewrite Hmk1, Hmk, Hmem. done.
    + intros n [Hin|Hin]%Hmem; [by apply Hreach|].
      destruct (Hnew n Hin) as [_ Hin']. rewrite Hsuccs in Hin'.
      eapply reachable_step; [|done]. apply Hreach, elem_of_app.
      right. left.
    + intros n m [Hin|Hin]%elem_of_app Hm.
      * apply Hmem. left. by eapply Hsucc.
      * apply list_elem_of_singleton in Hin as ->.
        rewrite <- Hsuccs in Hm. apply Hall, Hmk1 in Hm.
        apply Hmem. rewrite <- Hmk. done.
    + apply Hmem. by left.
    + apply visit_successors_measure in Hrun. simpl in Hfuel. lia.
Qed.

(** From the root, with a number that marks no node yet, and in a heap
    where every successor is a node, the enumerator emits every node
    reachable from the root exactly once, and leaves the edges as they
    are. *)
Lemma getNodes_from_root cont ps rn :
  deref (nodes ps) (root ps) = Ok rn →
  heap_closed (nodes ps) →
  (∀ n, ¬ marked (incr_dfsnum (dfsnum ps)) (nodes ps) n) →
  ∃ l ps',
    getNodes cont nullptr None ps = Ok (cont ++ l, ps')
    ∧ same_edges (nodes ps) (nodes ps')
    ∧ NoDup l
    ∧ ∀ n, n ∈ l ↔ reachable (nodes ps) (root ps) n.
Proof.
  intros Hroot Hcl Hfresh. pose proof Hroot as [Hr0 Hrl]%deref_Ok.
  unfold getNodes, assert.
  destruct (N.eqb_spec (root ps) nullptr) as [|_]; [done|]. simpl.
  rewrite (modify_deref _ _ _ _ Hroot). simpl.
  set (num := incr_dfsnum (dfsnum ps)).
  set (h1 := <[root ps := set_dfsid num rn]> (nodes ps)).
  destruct (getNodes_loop_spec num (nodes ps) (root ps) cont Hcl
              (1 + base.size h1) [root ps] [] h1)
    as (l & h' & Hrun & Hsame & Hnd & Hl).
  - by apply same_edges_mark.
  - apply NoDup_singleton.
  - intros n. unfold h1. rewrite marked_mark by done. simpl.
    rewrite list_elem_of_singleton. split; [|by right].
    intros [Hm| ->]; [|done]. by apply Hfresh in Hm.
  - intros n ->%list_elem_of_singleton. apply reachable_refl.
  - intros n m Hin. by apply elem_of_nil in Hin.
  - simpl. left.
  - pose proof (map_size_filter
                  (λ kv : NodeRef * PSNode, dfsid kv.2 ≠ num) h1).
    unfold unmarked. simpl. lia.
  - rewrite app_nil_r in Hrun. simpl in Hrun.
    exists l, (set_nodes h' (set_dfsnum num ps)).
    split; [|done]. simpl. fold num h1. by rewrite Hrun.
Qed.

(** * Further properties of the graph-mutation primitives *)

(** ** What the primitives leave alone *)

Lemma same_but_edges_refl h : same_but_edges h h.
Proof. by intros a. Qed.

Lemma same_but_edges_trans h1 h2 h3 :
  same_but_edges h1 h2 → same_but_edges h2 h3 → same_but_edges h1 h3.
Proof. intros H12 H23 a. by rewrite H23, H12. Qed.

Lemma same_but_edges_insert h p nd nd' :
  h !! p = Some nd → erase_edges nd' = erase_edges nd →
  same_but_edges h (<[p := nd']> h).
Proof.
  intros Hp He a. destruct (decide (a = p)) as [->|Hne].
  - rewrite lookup_insert_eq, Hp. simpl. by rewrite He.
  - by rewrite lookup_insert_ne.
Qed.

Lemma modify_same_but_edges p f h h' :
  (∀ nd, erase_edges (f nd) = erase_edges nd) →
  modify p f h = Ok h' → same_but_edges h h'.
Proof.
  intros Hf (nd & [_ Hnd]%deref_Ok & ->)%modify_Ok.
  by apply (same_but_edges_insert h p nd).
Qed.

Lemma same_but_edges_deref h h' a nd :
  same_but_edges h h' → deref h a = Ok nd →
  ∃ nd', deref h' a = Ok nd' ∧ erase_edges nd' = erase_edges nd.
Proof.
  intros Hsame [Ha Hl]%deref_Ok. specialize (Hsame a). rewrite Hl in Hsame.
  destruct (h' !! a) as [nd'|] eqn:Hl'; [|done].
  exists nd'. split; [by apply deref_Ok|]. simpl in Hsame. congruence.
Qed.

(** ** Adding an edge *)

Lemma addSuccessor_spec a b h na nb :
  deref h a = Ok na → deref h b = Ok nb →
  ∃ h', addSuccessor a b h = Ok h'
    ∧ (∀ x, succs_of h' x
            = if decide (x = a) then succs_of h a ++ [b] else succs_of h x)
    ∧ (∀ x, preds_of h' x
            = if decide (x = b) then preds_of h b ++ [a] else preds_of h x)
    ∧ same_but_edges h h'.
Proof.
  intros Ha Hb. pose proof Ha as [Ha0 Hal]%deref_Ok.
  pose proof Hb as [Hb0 Hbl]%deref_Ok.
  unfold addSuccessor. rewrite (modify_deref _ _ _ _ Ha). simpl.
  set (na' := set_successors (successors na ++ [b]) na).
  set (h1 := <[a := na']> h).
  assert (∃ nb1, deref h1 b = Ok nb1
                 ∧ predecessors nb1 = predecessors nb
                 ∧ successors nb1 = succs_of h1 b
                 ∧ erase_edges nb1 = erase_edges nb) as (nb1 & Hb1 & Hp1 & Hs1 & He1).
  { unfold h1. unfold succs_of. rewrite deref_insert by done.
    destruct (decide (b = a)) as [->|Hne].
    - exists na'. rewrite Ha in Hb. injection Hb as <-. done.
    - exists nb. rewrite Hb. done. }
  rewrite (modify_deref _ _ _ _ Hb1). simpl.
  eexists. split; [done|]. split; [|split].
  - intros x. rewrite succs_of_insert by done. simpl. rewrite Hs1.
    unfold h1. rewrite !succs_of_insert by done.
    rewrite (succs_of_deref _ _ _ Ha).
    repeat case_decide; subst; done.
  - intros x. rewrite preds_of_insert by done. simpl. rewrite Hp1.
    unfold h1. rewrite preds_of_insert by done.
    rewrite (preds_of_deref _ _ _ Hb).
    repeat case_decide; subst; try done.
    rewrite (preds_of_deref _ _ _ Ha). done.
  - eapply same_but_edges_trans.
    + by apply (same_but_edges_insert h a na na').
    + apply deref_Ok in Hb1 as [_ Hb1].
      apply (same_but_edges_insert h1 b nb1); [done|].
      unfold erase_edges. done.
Qed.

Lemma addSuccessor_fails a b h :
  (∀ na, deref h a ≠ Ok na) ∨ (∀ nb, deref h b ≠ Ok nb) →
  addSuccessor a b h = Err UndefinedBehaviour.
Proof.
  intros Hbad. unfold addSuccessor, modify.
  assert (∀ h p, (∀ nd, deref h p ≠ Ok nd) → deref h p = Err UndefinedBehaviour)
    as Herr.
  { clear. intros h p Hno. unfold deref in *.
    destruct (p =? nullptr); [done|].
    destruct (h !! p) as [nd|]; [|done]. by destruct (Hno nd). }
  destruct (deref h a) as [na|] eqn:Ha; simpl.
  - destruct Hbad as [Hbad|Hbad]; [by destruct (Hbad na)|].
    pose proof Ha as [Ha0 _]%deref_Ok.
    rewrite deref_insert by done. case_decide as Hab.
    + subst. by destruct (Hbad na).
    + by rewrite (Herr _ _ Hbad).
  - clear Hbad. revert Ha. unfold deref. by repeat case_match; intros [= <-].
Qed.

Lemma symmetric_edges_add (S P : NodeRef → list NodeRef) a b :
  symmetric_edges S P →
  symmetric_edges
    (λ x, if decide (x = a) then S a ++ [b] else S x)
    (λ x, if decide (x = b) then P b ++ [a] else P x).
Proof.
  intros Hsym x y. simpl.
  destruct (decide (x = a)) as [->|Hx], (decide (y = b)) as [->|Hy];
    rewrite ?occurrences_app, ?Hsym; unfold occurrences; simpl;
    repeat destruct (N.eq_dec _ _); try congruence; lia.
Qed.

(** X1.  In a heap with symmetric edges, [a.addSuccessor(b)] on two nodes
    of the heap (the same node, too) returns, appends [b] to the
    successors of [a] and [a] to the predecessors of [b], changes no
    other field of any node, and leaves the edges symmetric.  When [a]
    or [b] is no node of the heap the call is undefined. *)
Theorem addSuccessor_symmetric (h : Heap) (a b : NodeRef) :
  (∀ na nb,
     edge_symmetric h → deref h a = Ok na → deref h b = Ok nb →
     ∃ h', addSuccessor a b h = Ok h'
       ∧ succs_of h' a = succs_of h a ++ [b]
       ∧ preds_of h' b = preds_of h b ++ [a]
       ∧ same_but_edges h h'
       ∧ edge_symmetric h')
  ∧ ((∀ na, deref h a ≠ Ok na) ∨ (∀ nb, deref h b ≠ Ok nb) →
     addSuccessor a b h = Err UndefinedBehaviour).
Proof.
  split; [|apply addSuccessor_fails].
  intros na nb Hsym Ha Hb.
  destruct (addSuccessor_spec a b h na nb Ha Hb) as (h' & Hrun & Hs & Hp & Hf).
  exists h'. split; [done|].
  split; [by rewrite Hs, decide_True|].
  split; [by rewrite Hp, decide_True|]. split; [done|].
  intros x y. rewrite Hs, Hp.
  apply (symmetric_edges_add (succs_of h) (preds_of h) a b Hsym x y).
Qed.

Lemma addSuccessor_symmetric_witness :
  (∃ h', addSuccessor 2 2 chain_heap = Ok h'
     ∧ succs_of h' 2 = succs_of chain_heap 2 ++ [2]
     ∧ preds_of h' 2 = preds_of chain_heap 2 ++ [2]
     ∧ same_but_edges chain_heap h'
     ∧ edge_symmetric h')
  ∧ addSuccessor 1 9 chain_heap = Err UndefinedBehaviour.
Proof.
  split.
  - apply (proj1 (addSuccessor_symmetric chain_heap 2 2)
             (set_predecessors [1] (PSNode_init NOOP))
             (set_predecessors [1] (PSNode_init NOOP))).
    + apply edge_symmetricb_sound. vm_compute. reflexivity.
    + vm_compute. reflexivity.
    + vm_compute. reflexivity.
  - apply (proj2 (addSuccessor_symmetric chain_heap 1 9)).
    right. intros nb. vm_compute. discriminate.
Defined.

(** ** Splicing a node into the graph *)

Lemma symmetric_edges_flip (S P : NodeRef → list NodeRef) :
  symmetric_edges S P → symmetric_edges P S.
Proof. intros Hsym a b. symmetry. apply Hsym. Qed.

(** The edges after a node [X] without edges has taken over the
    successors of [A] and has become the only successor of [A]. *)
Lemma symmetric_edges_splice (S P : NodeRef → list NodeRef) X A :
  symmetric_edges S P → X ≠ A → S X = [] → P X = [] →
  symmetric_edges
    (λ a, if decide (a = X) then S A
          else if decide (a = A) then [X] else S a)
    (λ b, if decide (b = X) then [A] else replace_refs A X (P b)).
Proof.
  intros Hsym HXA HS HP a b. simpl.
  assert (∀ a, occurrences X (S a) = 0%nat) as G1.
  { intros x. by rewrite Hsym, HP. }
  assert (∀ b, occurrences X (P b) = 0%nat) as G2.
  { intros x. by rewrite <- Hsym, HS. }
  destruct (decide (b = X)) as [->|Hb].
  - unfold occurrences at 2. simpl.
    destruct (decide (a = X)) as [->|Ha].
    + rewrite G1. by destruct (N.eq_dec A X).
    + destruct (decide (a = A)) as [->|Ha'].
      * unfold occurrences. simpl.
        destruct (N.eq_dec X X), (N.eq_dec A A); done.
      * rewrite G1. by destruct (N.eq_dec A a).
  - rewrite occurrences_replace_refs by done.
    destruct (decide (a = X)) as [->|Ha].
    + by rewrite G2, Hsym.
    + destruct (decide (a = A)) as [->|Ha'].
      * unfold occurrences. simpl. by destruct (N.eq_dec X b).
      * apply Hsym.
Qed.

Lemma redirect_predecessors_frame n this succs h h' :
  redirect_predecessors n this succs h = Ok h' → same_but_edges h h'.
Proof.
  revert h. induction succs as [|s succs IH]; intros h; simpl.
  - intros [= <-]. apply same_but_edges_refl.
  - destruct (modify s _ h) as [h1|] eqn:Hm; simpl; [|done].
    intros Hrest. eapply same_but_edges_trans; [|by eapply IH].
    eapply modify_same_but_edges; [|exact Hm]. intros nd. reflexivity.
Qed.

Lemma redirect_successors_spec n this preds h :
  (∀ p, p ∈ preds → ∃ nd, deref h p = Ok nd) →
  ∃ h', redirect_successors n this preds h = Ok h'
    ∧ (∀ a, preds_of h' a = preds_of h a)
    ∧ (∀ b, succs_of h' b
            = if decide (b ∈ preds) then replace_refs n this (succs_of h b)
              else succs_of h b)
    ∧ same_but_edges h h'.
Proof.
  revert h. induction preds as [|p preds IH]; intros h Hok.
  - exists h. split; [done|]. split; [done|]. split.
    + intros b. rewrite decide_False; [done|]. apply not_elem_of_nil.
    + apply same_but_edges_refl.
  - destruct (Hok p) as [pn Hp]; [left|].
    pose proof Hp as [Hp0 Hpl]%deref_Ok.
    simpl. rewrite (modify_deref _ _ _ _ Hp). simpl.
    set (h1 := <[p := _]> h).
    destruct (IH h1) as (h' & Hrun & Hpreds & Hsuccs & Hframe).
    { intros p' Hin. unfold h1. rewrite deref_insert by done.
      case_decide; [by eexists|]. apply Hok. by right. }
    exists h'. split; [done|]. split; [|split].
    + intros a. rewrite Hpreds. unfold h1. rewrite preds_of_insert by done.
      case_decide; [|done]. subst a. simpl.
      by rewrite (preds_of_deref _ _ _ Hp).
    + intros b. rewrite Hsuccs. unfold h1. rewrite !succs_of_insert by done.
      rewrite <- (succs_of_deref _ _ _ Hp). simpl.
      destruct (decide (b = p)) as [->|Hne].
      * rewrite (decide_True (P := (p ∈ p :: preds))) by left.
        case_decide; [apply replace_refs_idemp|done].
      * destruct (decide (b ∈ preds)) as [Hin|Hin].
        -- rewrite decide_True by (by right). done.
        -- rewrite decide_False; [done|].
           intros [?|?]%elem_of_cons; done.
    + eapply same_but_edges_trans; [|done].
      by apply (same_but_edges_insert h p pn).
Qed.

Lemma insertAfter_spec h X A nx na :
  deref h X = Ok nx → successors nx = [] → predecessors nx = [] →
  deref h A = Ok na → X ≠ A → X ∉ successors na →
  (∀ s, s ∈ successors na → ∃ nd, deref h s = Ok nd) →
  ∃ h', insertAfter X A h = Ok h'
    ∧ (∀ a, succs_of h' a
            = if decide (a = X) then succs_of h A
              else if decide (a = A) then [X] else succs_of h a)
    ∧ (∀ b, preds_of h' b
            = if decide (b = X) then [A]
              else if decide (b ∈ succs_of h A)
                   then replace_refs A X (preds_of h b)
                   else preds_of h b)
    ∧ same_but_edges h h'.
Proof.
  intros HX Hs Hp HA HXA HXS Hok.
  pose proof HX as [HX0 HXl]%deref_Ok. pose proof HA as [HA0 HAl]%deref_Ok.
  rewrite (succs_of_deref _ _ _ HA).
  unfold insertAfter. rewrite HX. simpl.
  unfold predecessorsNum, successorsNum. rewrite Hs, Hp. simpl.
  rewrite HA. simpl.
  rewrite (modify_deref _ _ _ _ HX). simpl.
  set (h1 := <[X := _]> h).
  assert (deref h1 A = Ok na) as HA1.
  { unfold h1. rewrite deref_insert, decide_False by done. done. }
  rewrite (modify_deref _ _ _ _ HA1). simpl.
  set (h2 := <[A := _]> h1).
  unfold addSuccessor.
  assert (deref h2 A = Ok (set_successors [] na)) as HA2.
  { unfold h2. rewrite deref_insert, decide_True by done. done. }
  rewrite (modify_deref _ _ _ _ HA2). simpl.
  set (h3 := <[A := _]> h2).
  assert (deref h3 X = Ok (set_successors (successors na) nx)) as HX3.
  { unfold h3, h2, h1.
    rewrite !deref_insert, decide_False, decide_False, decide_True by done.
    done. }
  rewrite (modify_deref _ _ _ _ HX3). simpl.
  set (h4 := <[X := _]> h3).
  assert (∀ a, succs_of h4 a
               = if decide (a = X) then successors na
                 else if decide (a = A) then [X] else succs_of h a) as Hs4.
  { intros a. unfold h4, h3, h2, h1. rewrite !succs_of_insert by done.
    repeat case_decide; done. }
  assert (∀ b, preds_of h4 b
               = if decide (b = X) then [A] else preds_of h b) as Hp4.
  { intros b. unfold h4, h3, h2, h1. rewrite !preds_of_insert by done.
    repeat case_decide; subst; try done; simpl.
    - by rewrite Hp.
    - symmetry. by apply preds_of_deref. }
  assert (same_but_edges h h4) as Hf4.
  { unfold h4, h3, h2, h1.
    eapply same_but_edges_trans;
      [by apply (same_but_edges_insert h X nx (set_successors (successors na) nx))|].
    eapply same_but_edges_trans;
      [apply (same_but_edges_insert _ A na (set_successors [] na));
       [by rewrite lookup_insert_ne|done]|].
    eapply same_but_edges_trans;
      [apply (same_but_edges_insert _ A (set_successors [] na)
                (set_successors [X] (set_successors [] na)));
       [by rewrite lookup_insert_eq|done]|].
    apply (same_but_edges_insert _ X (set_successors (successors na) nx));
      [|done].
    rewrite !lookup_insert_ne by done. by rewrite lookup_insert_eq. }
  assert (deref h4 X
          = Ok (set_predecessors ([] ++ [A]) (set_successors (successors na) nx)))
    as HX4.
  { unfold h4. rewrite deref_insert, decide_True by done. by rewrite Hp. }
  rewrite HX4. simpl.
  destruct (redirect_predecessors_spec A X (successors na) h4)
    as (h' & Hrun & Hs' & Hp').
  { intros s Hin. destruct (Hok s Hin) as [nd Hnd].
    unfold h4, h3, h2, h1. rewrite !deref_insert by done.
    repeat case_decide; by eexists. }
  exists h'. split; [done|]. split; [|split].
  - intros a. by rewrite Hs', Hs4.
  - intros b. rewrite Hp', !Hp4.
    destruct (decide (b = X)) as [->|Hb]; [by rewrite decide_False|done].
  - eapply same_but_edges_trans; [done|].
    by eapply redirect_predecessors_frame.
Qed.

Lemma symmetric_closed h a b :
  edge_symmetric h → b ∈ succs_of h a ∨ b ∈ preds_of h a →
  ∃ nd, deref h b = Ok nd.
Proof.
  intros Hsym Hin.
  assert (preds_of h b ≠ [] ∨ succs_of h b ≠ []) as Hne.
  { destruct Hin as [Hin|Hin]; apply occurrences_pos in Hin.
    - left. rewrite Hsym in Hin. intros Heq. rewrite Heq in Hin.
      simpl in Hin. lia.
    - right. rewrite <- Hsym in Hin. intros Heq. rewrite Heq in Hin.
      simpl in Hin. lia. }
  unfold preds_of, succs_of in Hne.
  destruct (deref h b) as [nd|]; [by exists nd|]. by destruct Hne.
Qed.

Lemma insertAfter_edges (h : Heap) (X A : NodeRef) (nx na : PSNode) :
  edge_symmetric h →
  deref h X = Ok nx → successors nx = [] → predecessors nx = [] →
  deref h A = Ok na → X ≠ A →
  ∃ h', insertAfter X A h = Ok h'
    ∧ (∀ a, succs_of h' a
            = if decide (a = X) then succs_of h A
              else if decide (a = A) then [X] else succs_of h a)
    ∧ (∀ b, preds_of h' b
            = if decide (b = X) then [A]
              else replace_refs A X (preds_of h b))
    ∧ same_but_edges h h'
    ∧ edge_symmetric h'.
Proof.
  intros Hsym HX Hs Hp HA HXA.
  pose proof (succs_of_deref _ _ _ HX) as HsX. rewrite Hs in HsX.
  pose proof (preds_of_deref _ _ _ HX) as HpX. rewrite Hp in HpX.
  pose proof (succs_of_deref _ _ _ HA) as HsA.
  destruct (insertAfter_spec h X A nx na) as (h' & Hrun & Hs' & Hp' & Hf);
    try done.
  { apply occurrences_zero. rewrite <- HsA, Hsym, HpX. done. }
  { intros s Hin. apply (symmetric_closed h A s Hsym). left. by rewrite HsA. }
  assert (∀ b, preds_of h' b
               = if decide (b = X) then [A]
                 else replace_refs A X (preds_of h b)) as Hp''.
  { intros b. rewrite Hp'. destruct (decide (b = X)); [done|].
    case_decide as Hin; [done|]. symmetry. apply replace_refs_absent.
    apply occurrences_zero. rewrite <- Hsym. by apply occurrences_zero. }
  exists h'. repeat (split; [done|]).
  intros a b. rewrite Hs', Hp''.
  by apply (symmetric_edges_splice (succs_of h) (preds_of h) X A).
Qed.

(** X2.  In a heap with symmetric edges, let [X] be a node without edges
    and [A] another node, with any successors (none, several, [A]
    itself).  Then [X.insertAfter(A)] returns; [X] has the successors
    that [A] had, [A] has the one successor [X], [X] has the one
    predecessor [A], every other node keeps its successors and has [A]
    replaced by [X] among its predecessors; no field but the edges
    changes, and the edges are symmetric again. *)
Theorem insertAfter_takes_over (h : Heap) (X A : NodeRef) (nx na : PSNode) :
  edge_symmetric h →
  deref h X = Ok nx → successors nx = [] → predecessors nx = [] →
  deref h A = Ok na → X ≠ A →
  ∃ h', insertAfter X A h = Ok h'
    ∧ (∀ a, succs_of h' a
            = if decide (a = X) then succs_of h A
              else if decide (a = A) then [X] else succs_of h a)
    ∧ (∀ b, preds_of h' b
            = if decide (b = X) then [A]
              else replace_refs A X (preds_of h b))
    ∧ same_but_edges h h'
    ∧ edge_symmetric h'.
Proof. apply insertAfter_edges. Qed.

Lemma insertAfter_takes_over_witness :
  ∃ h', insertAfter 3 2 chain_heap = Ok h'
    ∧ (∀ a, succs_of h' a
            = if decide (a = 3) then succs_of chain_heap 2
              else if decide (a = 2) then [3] else succs_of chain_heap a)
    ∧ (∀ b, preds_of h' b
            = if decide (b = 3) then [2]
              else replace_refs 2 3 (preds_of chain_heap b))
    ∧ same_but_edges chain_heap h'
    ∧ edge_symmetric h'.
Proof.
  apply (insertAfter_takes_over chain_heap 3 2
           (PSNode_init NOOP) (set_predecessors [1] (PSNode_init NOOP))).
  - apply edge_symmetricb_sound. vm_compute. reflexivity.
  - vm_compute. reflexivity.
  - reflexivity.
  - reflexivity.
  - vm_compute. reflexivity.
  - discriminate.
Defined.

(** ** Inserting a node before another *)

Lemma insertBefore_spec h X B nx nb :
  deref h X = Ok nx → successors nx = [] → predecessors nx = [] →
  deref h B = Ok nb → X ≠ B → X ∉ predecessors nb →
  (∀ p, p ∈ predecessors nb → ∃ nd, deref h p = Ok nd) →
  ∃ h', insertBefore X B h = Ok h'
    ∧ (∀ a, preds_of h' a
            = if decide (a = X) then preds_of h B
              else if decide (a = B) then [X] else preds_of h a)
    ∧ (∀ b, succs_of h' b
            = if decide (b = X) then [B]
              else if decide (b ∈ preds_of h B)
                   then replace_refs B X (succs_of h b)
                   else succs_of h b)
    ∧ same_but_edges h h'.
Proof.
  intros HX Hs Hp HB HXB HXP Hok.
  pose proof HX as [HX0 HXl]%deref_Ok. pose proof HB as [HB0 HBl]%deref_Ok.
  rewrite (preds_of_deref _ _ _ HB).
  unfold insertBefore. rewrite HX. simpl.
  unfold predecessorsNum, successorsNum. rewrite Hs, Hp. simpl.
  rewrite HB. simpl.
  rewrite (modify_deref _ _ _ _ HX). simpl.
  set (h1 := <[X := _]> h).
  assert (deref h1 B = Ok nb) as HB1.
  { unfold h1. rewrite deref_insert, decide_False by done. done. }
  rewrite (modify_deref _ _ _ _ HB1). simpl.
  set (h2 := <[B := _]> h1).
  unfold addSuccessor.
  assert (deref h2 X = Ok (set_predecessors (predecessors nb) nx)) as HX2.
  { unfold h2, h1.
    rewrite !deref_insert, decide_False, decide_True by done. done. }
  rewrite (modify_deref _ _ _ _ HX2). simpl.
  set (h3 := <[X := _]> h2).
  assert (deref h3 B = Ok (set_predecessors [] nb)) as HB3.
  { unfold h3, h2.
    rewrite !deref_insert, decide_False, decide_True by done. done. }
  rewrite (modify_deref _ _ _ _ HB3). simpl.
  set (h4 := <[B := _]> h3).
  assert (∀ a, preds_of h4 a
               = if decide (a = X) then predecessors nb
                 else if decide (a = B) then [X] else preds_of h a) as Hp4.
  { intros a. unfold h4, h3, h2, h1. rewrite !preds_of_insert by done.
    repeat case_decide; subst; done. }
  assert (∀ b, succs_of h4 b
               = if decide (b = X) then [B] else succs_of h b) as Hs4.
  { intros b. unfold h4, h3, h2, h1. rewrite !succs_of_insert by done.
    repeat case_decide; subst; try done; simpl.
    - symmetry. by apply succs_of_deref.
    - by rewrite Hs. }
  assert (same_but_edges h h4) as Hf4.
  { unfold h4, h3, h2, h1.
    eapply same_but_edges_trans;
      [by apply (same_but_edges_insert h X nx
                   (set_predecessors (predecessors nb) nx))|].
    eapply same_but_edges_trans;
      [apply (same_but_edges_insert _ B nb (set_predecessors [] nb));
       [by rewrite lookup_insert_ne|done]|].
    eapply same_but_edges_trans;
      [apply (same_but_edges_insert _ X (set_predecessors (predecessors nb) nx)
                (set_successors (successors nx ++ [B])
                   (set_predecessors (predecessors nb) nx)));
       [rewrite lookup_insert_ne by done; by rewrite lookup_insert_eq|done]|].
    apply (same_but_edges_insert _ B (set_predecessors [] nb)); [|done].
    rewrite lookup_insert_ne by done. by rewrite lookup_insert_eq. }
  assert (deref h4 X
          = Ok (set_successors ([] ++ [B])
                  (set_predecessors (predecessors nb) nx))) as HX4.
  { unfold h4, h3. rewrite !deref_insert, decide_False, decide_True by done.
    by rewrite Hs. }
  rewrite HX4. simpl.
  destruct (redirect_successors_spec B X (predecessors nb) h4)
    as (h' & Hrun & Hp' & Hs' & Hf').
  { intros p Hin. destruct (Hok p Hin) as [nd Hnd].
    unfold h4, h3, h2, h1. rewrite !deref_insert by done.
    repeat case_decide; by eexists. }
  exists h'. split; [done|]. split; [|split].
  - intros a. by rewrite Hp', Hp4.
  - intros b. rewrite Hs', !Hs4.
    destruct (decide (b = X)) as [->|Hb]; [by rewrite decide_False|done].
  - by eapply same_but_edges_trans.
Qed.

Lemma insertBefore_edges (h : Heap) (X B : NodeRef) (nx nb : PSNode) :
  edge_symmetric h →
  deref h X = Ok nx → successors nx = [] → predecessors nx = [] →
  deref h B = Ok nb → X ≠ B →
  ∃ h', insertBefore X B h = Ok h'
    ∧ (∀ a, preds_of h' a
            = if decide (a = X) then preds_of h B
              else if decide (a = B) then [X] else preds_of h a)
    ∧ (∀ b, succs_of h' b
            = if decide (b = X) then [B]
              else replace_refs B X (succs_of h b))
    ∧ same_but_edges h h'
    ∧ edge_symmetric h'.
Proof.
  intros Hsym HX Hs Hp HB HXB.
  pose proof (succs_of_deref _ _ _ HX) as HsX. rewrite Hs in HsX.
  pose proof (preds_of_deref _ _ _ HX) as HpX. rewrite Hp in HpX.
  pose proof (preds_of_deref _ _ _ HB) as HpB.
  destruct (insertBefore_spec h X B nx nb) as (h' & Hrun & Hp' & Hs' & Hf);
    try done.
  { apply occurrences_zero. rewrite <- HpB, <- Hsym, HsX. done. }
  { intros p Hin. apply (symmetric_closed h B p Hsym). right. by rewrite HpB. }
  assert (∀ b, succs_of h' b
               = if decide (b = X) then [B]
                 else replace_refs B X (succs_of h b)) as Hs''.
  { intros b. rewrite Hs'. destruct (decide (b = X)); [done|].
    case_decide as Hin; [done|]. symmetry. apply replace_refs_absent.
    apply occurrences_zero. rewrite Hsym. by apply occurrences_zero. }
  exists h'. repeat (split; [done|]).
  intros a b. rewrite Hs'', Hp'. symmetry.
  apply (symmetric_edges_splice (preds_of h) (succs_of h) X B); try done.
  by apply symmetric_edges_flip.
Qed.

(** X3.  In a heap with symmetric edges, let [X] be a node without edges
    and [B] another node, with any predecessors.  Then
    [X.insertBefore(B)] returns; [X] has the predecessors that [B] had
    and the one successor [B], [B] has the one predecessor [X], every
    other node keeps its predecessors and has [B] replaced by [X] among
    its successors; no field but the edges changes, and the edges are
    symmetric again. *)
Theorem insertBefore_takes_over (h : Heap) (X B : NodeRef) (nx nb : PSNode) :
  edge_symmetric h →
  deref h X = Ok nx → successors nx = [] → predecessors nx = [] →
  deref h B = Ok nb → X ≠ B →
  ∃ h', insertBefore X B h = Ok h'
    ∧ (∀ a, preds_of h' a
            = if decide (a = X) then preds_of h B
              else if decide (a = B) then [X] else preds_of h a)
    ∧ (∀ b, succs_of h' b
            = if decide (b = X) then [B]
              else replace_refs B X (succs_of h b))
    ∧ same_but_edges h h'
    ∧ edge_symmetric h'.
Proof. apply insertBefore_edges. Qed.

Lemma insertBefore_takes_over_witness :
  ∃ h', insertBefore 3 2 chain_heap = Ok h'
    ∧ (∀ a, preds_of h' a
            = if decide (a = 3) then preds_of chain_heap 2
              else if decide (a = 2) then [3] else preds_of chain_heap a)
    ∧ (∀ b, succs_of h' b
            = if decide (b = 3) then [2]
              else replace_refs 2 3 (succs_of chain_heap b))
    ∧ same_but_edges chain_heap h'
    ∧ edge_symmetric h'.
Proof.
  apply (insertBefore_takes_over chain_heap 3 2
           (PSNode_init NOOP) (set_predecessors [1] (PSNode_init NOOP))).
  - apply edge_symmetricb_sound. vm_compute. reflexivity.
  - vm_compute. reflexivity.
  - reflexivity.
  - reflexivity.
  - vm_compute. reflexivity.
  - discriminate.
Defined.

(** ** Inserting a sequence before a node *)

Lemma replace_refs_same n l : replace_refs n n l = l.
Proof.
  rewrite replace_refs_map. induction l as [|x l IH]; [done|]. simpl.
  rewrite IH. unfold redirect. by case_decide; subst.
Qed.

(** The edges after the sequence from [F] to [L] has been put before
    [T]: [F] takes over the predecessors of [T], and [L] gets the
    successor [T]. *)
Lemma symmetric_edges_prepend (S P : NodeRef → list NodeRef) T F L :
  symmetric_edges S P → P F = [] → S L = [] →
  symmetric_edges
    (λ a, if decide (a = L) then [T] else replace_refs T F (S a))
    (λ b, if decide (b = T) then [L]
          else if decide (b = F) then P T else P b).
Proof.
  intros Hsym HF HL a b. simpl.
  assert (∀ x, occurrences F (S x) = 0%nat) as G1.
  { intros x. by rewrite Hsym, HF. }
  assert (∀ x, occurrences L (P x) = 0%nat) as G2.
  { intros x. by rewrite <- Hsym, HL. }
  destruct (decide (a = L)) as [->|Ha].
  - unfold occurrences at 1. simpl.
    destruct (decide (b = T)) as [->|Hb].
    + unfold occurrences. simpl.
      destruct (N.eq_dec T T), (N.eq_dec L L); done.
    + destruct (N.eq_dec T b); [done|]. case_decide; by rewrite G2.
  - destruct (decide (F = T)) as [->|HFT].
    + rewrite replace_refs_same.
      destruct (decide (b = T)) as [->|Hb]; [|apply Hsym].
      rewrite G1. unfold occurrences. simpl. by destruct (N.eq_dec L a).
    + rewrite occurrences_replace_refs by done.
      destruct (decide (b = T)) as [->|Hb].
      * rewrite decide_False by done.
        unfold occurrences. simpl. by destruct (N.eq_dec L a).
      * destruct (decide (b = F)) as [->|Hb'].
        -- by rewrite G1, Hsym.
        -- apply Hsym.
Qed.

Lemma insertSequenceBefore_edges (h : Heap) (T F L : NodeRef)
    (tn fn ln : PSNode) :
  edge_symmetric h →
  deref h T = Ok tn →
  deref h F = Ok fn → predecessors fn = [] →
  deref h L = Ok ln → successors ln = [] →
  ∃ h', insertSequenceBefore T (F, L) h = Ok h'
    ∧ (∀ a, succs_of h' a
            = if decide (a = L) then [T]
              else replace_refs T F (succs_of h a))
    ∧ (∀ b, preds_of h' b
            = if decide (b = T) then [L]
              else if decide (b = F) then preds_of h T else preds_of h b)
    ∧ same_but_edges h h'
    ∧ edge_symmetric h'.
Proof.
  intros Hsym HT HF HpF HL HsL.
  pose proof HT as [HT0 HTl]%deref_Ok. pose proof HF as [HF0 HFl]%deref_Ok.
  pose proof (preds_of_deref _ _ _ HT) as HpT.
  pose proof (preds_of_deref _ _ _ HF) as HpF'. rewrite HpF in HpF'.
  pose proof (succs_of_deref _ _ _ HL) as HsL'. rewrite HsL in HsL'.
  unfold insertSequenceBefore. simpl.
  rewrite HF. simpl. unfold predecessorsNum, successorsNum.
  rewrite HpF. simpl. rewrite HL. simpl. rewrite HsL. simpl.
  rewrite HT. simpl. rewrite (modify_deref _ _ _ _ HT). simpl.
  set (h1 := <[T := set_predecessors [] tn]> h).
  assert (∃ f1, deref h1 F = Ok f1 ∧ successors f1 = successors fn
                ∧ erase_edges f1 = erase_edges fn) as (f1 & Hf1 & Hsf1 & Hef1).
  { unfold h1. rewrite deref_insert by done.
    destruct (decide (F = T)) as [->|Hne].
    - exists (set_predecessors [] tn). rewrite HT in HF. by injection HF as <-.
    - by exists fn. }
  rewrite (modify_deref _ _ _ _ Hf1). simpl.
  set (h2 := <[F := set_predecessors (predecessors tn) f1]> h1).
  assert (deref h2 F = Ok (set_predecessors (predecessors tn) f1)) as Hf2.
  { unfold h2. by rewrite deref_insert, decide_True. }
  rewrite Hf2. simpl.
  assert (∀ b, preds_of h2 b
               = if decide (b = F) then preds_of h T
                 else if decide (b = T) then [] else preds_of h b) as Hp2.
  { intros b. unfold h2, h1. rewrite !preds_of_insert by done.
    rewrite HpT. repeat case_decide; done. }
  assert (∀ a, succs_of h2 a = succs_of h a) as Hs2.
  { intros a. unfold h2, h1. rewrite !succs_of_insert by done. simpl.
    destruct (decide (a = F)) as [->|Ha].
    - rewrite Hsf1. symmetry. by apply succs_of_deref.
    - case_decide; [|done]. subst. symmetry. by apply succs_of_deref. }
  assert (same_but_edges h h2) as Hfr2.
  { unfold h2, h1. eapply same_but_edges_trans.
    - by apply (same_but_edges_insert h T tn (set_predecessors [] tn)).
    - apply deref_Ok in Hf1 as [_ Hf1].
      apply (same_but_edges_insert _ F f1); [done|].
      unfold erase_edges. done. }
  destruct (redirect_successors_spec T F (predecessors tn) h2)
    as (h3 & Hrun3 & Hp3 & Hs3 & Hfr3).
  { intros p Hin.
    destruct (symmetric_closed h T p Hsym) as [nd Hnd].
    { right. by rewrite HpT. }
    destruct (same_but_edges_deref _ _ _ _ Hfr2 Hnd) as (nd' & Hnd' & _).
    by exists nd'. }
  rewrite Hrun3. simpl.
  assert (same_but_edges h h3) as Hfr by (by eapply same_but_edges_trans).
  destruct (same_but_edges_deref _ _ _ _ Hfr HL) as (l3 & Hl3 & _).
  destruct (same_but_edges_deref _ _ _ _ Hfr HT) as (t3 & Ht3 & _).
  destruct (addSuccessor_spec L T h3 l3 t3 Hl3 Ht3)
    as (h4 & Hrun4 & Hs4 & Hp4 & Hfr4).
  rewrite Hrun4.
  assert (∀ a, succs_of h3 a = replace_refs T F (succs_of h a)) as Hs3'.
  { intros a. rewrite Hs3, Hs2. case_decide as Hin; [done|].
    symmetry. apply replace_refs_absent, occurrences_zero.
    rewrite Hsym, HpT. by apply occurrences_zero. }
  assert (∀ a, succs_of h4 a
               = if decide (a = L) then [T]
                 else replace_refs T F (succs_of h a)) as Hs'.
  { intros a. rewrite Hs4, !Hs3'. case_decide; [|done].
    rewrite HsL'. by rewrite replace_refs_map. }
  assert (∀ b, preds_of h4 b
               = if decide (b = T) then [L]
                 else if decide (b = F) then preds_of h T
                      else preds_of h b) as Hp'.
  { intros b. rewrite Hp4, !Hp3, !Hp2.
    destruct (decide (b = T)) as [->|Hb]; [|done].
    rewrite (decide_True (P := (T = T))) by done.
    case_decide as HTF; [|done]. subst. by rewrite HpF'. }
  exists h4. split; [done|]. split; [done|]. split; [done|].
  split; [by eapply same_but_edges_trans|].
  intros a b. rewrite Hs', Hp'.
  by apply (symmetric_edges_prepend (succs_of h) (preds_of h) T F L).
Qed.

(** X4.  In a heap with symmetric edges, let the sequence from [F] to [L]
    ([F] without predecessors, [L] without successors, possibly the same
    node) be inserted before the node [T].  The call returns; [F] has
    the predecessors that [T] had, [T] has the one predecessor [L], [L]
    has the one successor [T], every other node has [T] replaced by [F]
    among its successors; no field but the edges changes, and the edges
    are symmetric again. *)
Theorem insertSequenceBefore_takes_over (h : Heap) (T F L : NodeRef)
    (tn fn ln : PSNode) :
  edge_symmetric h →
  deref h T = Ok tn →
  deref h F = Ok fn → predecessors fn = [] →
  deref h L = Ok ln → successors ln = [] →
  ∃ h', insertSequenceBefore T (F, L) h = Ok h'
    ∧ (∀ a, succs_of h' a
            = if decide (a = L) then [T]
              else replace_refs T F (succs_of h a))
    ∧ (∀ b, preds_of h' b
            = if decide (b = T) then [L]
              else if decide (b = F) then preds_of h T else preds_of h b)
    ∧ same_but_edges h h'
    ∧ edge_symmetric h'.
Proof. apply insertSequenceBefore_edges. Qed.

Lemma insertSequenceBefore_takes_over_witness :
  ∃ h', insertSequenceBefore 2 (4, 5) sequence_heap = Ok h'
    ∧ (∀ a, succs_of h' a
            = if decide (a = 5) then [2]
              else replace_refs 2 4 (succs_of sequence_heap a))
    ∧ (∀ b, preds_of h' b
            = if decide (b = 2) then [5]
              else if decide (b = 4) then preds_of sequence_heap 2
                   else preds_of sequence_heap b)
    ∧ same_but_edges sequence_heap h'
    ∧ edge_symmetric h'.
Proof.
  apply (insertSequenceBefore_takes_over sequence_heap 2 4 5
           (set_predecessors [1] (PSNode_init NOOP))
           (set_successors [5] (PSNode_init NOOP))
           (set_predecessors [4] (PSNode_init NOOP))).
  - apply edge_symmetricb_sound. vm_compute. reflexivity.
  - vm_compute. reflexivity.
  - vm_compute. reflexivity.
  - reflexivity.
  - vm_compute. reflexivity.
  - reflexivity.
Defined.

(** ** How the primitives compose *)

Lemma node_by_parts nd nd' :
  erase_edges nd = erase_edges nd' →
  successors nd = successors nd' → predecessors nd = predecessors nd' →
  nd = nd'.
Proof.
  destruct nd, nd'. unfold erase_edges. simpl.
  intros [= -> -> -> -> -> -> -> -> -> ->] -> ->. done.
Qed.

Lemma deref_by_parts h1 h2 :
  (∀ a, erase_edges <$> h1 !! a = erase_edges <$> h2 !! a) →
  (∀ a, succs_of h1 a = succs_of h2 a) →
  (∀ a, preds_of h1 a = preds_of h2 a) →
  ∀ a, deref h1 a = deref h2 a.
Proof.
  intros He Hs Hp a. specialize (He a). specialize (Hs a). specialize (Hp a).
  unfold succs_of, preds_of, deref in *.
  destruct (a =? nullptr); [done|].
  destruct (h1 !! a) as [n1|], (h2 !! a) as [n2|]; simpl in *; try done.
  f_equal. apply node_by_parts; congruence.
Qed.

(** X5.  In a heap with symmetric edges, inserting the one-node sequence
    [(X, X)] before [B] is the same as [X.insertBefore(B)], for a node
    [X] without edges: both calls return, and every pointer leads to the
    same node in the two results. *)
Theorem insertSequenceBefore_single (h : Heap) (X B : NodeRef)
    (nx nb : PSNode) :
  edge_symmetric h →
  deref h X = Ok nx → successors nx = [] → predecessors nx = [] →
  deref h B = Ok nb → X ≠ B →
  ∃ h1 h2,
    insertSequenceBefore B (X, X) h = Ok h1
    ∧ insertBefore X B h = Ok h2
    ∧ ∀ a, deref h1 a = deref h2 a.
Proof.
  intros Hsym HX Hs Hp HB HXB.
  destruct (insertSequenceBefore_edges h B X X nb nx nx)
    as (h1 & Hrun1 & Hs1 & Hp1 & Hf1 & _); try done.
  destruct (insertBefore_edges h X B nx nb)
    as (h2 & Hrun2 & Hp2 & Hs2 & Hf2 & _); try done.
  exists h1, h2. split; [done|]. split; [done|].
  apply deref_by_parts.
  - intros a. by rewrite Hf1, Hf2.
  - intros a. by rewrite Hs1, Hs2.
  - intros a. rewrite Hp1, Hp2. repeat case_decide; subst; done.
Qed.

Lemma insertSequenceBefore_single_witness :
  ∃ h1 h2,
    insertSequenceBefore 2 (3, 3) chain_heap = Ok h1
    ∧ insertBefore 3 2 chain_heap = Ok h2
    ∧ ∀ a, deref h1 a = deref h2 a.
Proof.
  apply (insertSequenceBefore_single chain_heap 3 2
           (PSNode_init NOOP) (set_predecessors [1] (PSNode_init NOOP))).
  - apply edge_symmetricb_sound. vm_compute. reflexivity.
  - vm_compute. reflexivity.
  - reflexivity.
  - reflexivity.
  - vm_compute. reflexivity.
  - discriminate.
Defined.

Lemma PSNode_new_no_edges this t args nd :
  PSNode_new this t args = Ok nd →
  successors nd = [] ∧ predecessors nd = [] ∧ type nd = t ∧ dfsid nd = 0.
Proof.
  unfold PSNode_new. intros Hnew.
  destruct t; simpl in Hnew;
    repeat match type of Hnew with
    | context [va_arg_node ?a] =>
        destruct a as [|[?|?] ?]; simpl in Hnew; try discriminate
    | context [va_arg_u64 ?a] =>
        destruct a as [|[?|?] ?]; simpl in Hnew; try discriminate
    | context [va_null_terminated ?a] =>
        destruct (va_null_terminated a); simpl in Hnew; try discriminate
    end;
    inversion Hnew; subst nd; simpl; try done;
    unfold addPointsTo; simpl; done.
Qed.

Lemma fresh_node_symmetric h X nd :
  edge_symmetric h → X ≠ nullptr → h !! X = None →
  successors nd = [] → predecessors nd = [] →
  edge_symmetric (<[X := nd]> h).
Proof.
  intros Hsym HX0 Hnone Hs Hp.
  assert (succs_of h X = [] ∧ preds_of h X = []) as [HsX HpX].
  { unfold succs_of, preds_of, deref. rewrite Hnone.
    by destruct (X =? nullptr). }
  intros a b. rewrite succs_of_insert, preds_of_insert by done.
  rewrite Hs, Hp.
  destruct (decide (a = X)) as [->|Ha], (decide (b = X)) as [->|Hb].
  - done.
  - by rewrite <- Hsym, HsX.
  - by rewrite Hsym, HpX.
  - apply Hsym.
Qed.

(** X6.  A node that the constructor has just built at a free address
    can be inserted after any node [A] of a heap with symmetric edges,
    whatever the kind of the node: the call returns, the new node stands
    between [A] and the successors [A] had, the new node keeps what the
    constructor gave it, and the edges are symmetric again. *)
Theorem new_node_insertAfter (h : Heap) (X A : NodeRef) (t : PSNodeType)
    (args : list va_item) (nd na : PSNode) :
  edge_symmetric h →
  X ≠ nullptr → h !! X = None →
  PSNode_new X t args = Ok nd →
  deref h A = Ok na →
  ∃ h' nd',
    insertAfter X A (<[X := nd]> h) = Ok h'
    ∧ succs_of h' A = [X]
    ∧ succs_of h' X = successors na
    ∧ preds_of h' X = [A]
    ∧ deref h' X = Ok nd'
    ∧ erase_edges nd' = nd
    ∧ edge_symmetric h'.
Proof.
  intros Hsym HX0 Hnone Hnew HA.
  destruct (PSNode_new_no_edges _ _ _ _ Hnew) as (Hs & Hp & _).
  pose proof HA as [HA0 HAl]%deref_Ok.
  assert (X ≠ A) as HXA by (intros ->; congruence).
  destruct (insertAfter_edges (<[X := nd]> h) X A nd na)
    as (h' & Hrun & Hs' & Hp' & Hf & Hsym'); try done.
  - by apply fresh_node_symmetric.
  - by rewrite deref_insert, decide_True.
  - by rewrite deref_insert, decide_False.
  - destruct (same_but_edges_deref (<[X := nd]> h) h' X nd Hf)
      as (nd' & Hnd' & He); [by rewrite deref_insert, decide_True|].
    exists h', nd'. split; [done|].
    split; [by rewrite Hs', decide_False, decide_True|].
    split.
    { rewrite Hs', decide_True by done. rewrite succs_of_insert by done.
      rewrite decide_False by done. by apply succs_of_deref. }
    split; [by rewrite Hp', decide_True|]. split; [done|].
    split; [|done]. rewrite He. destruct nd. simpl in *. by subst.
Qed.

Lemma new_node_insertAfter_witness :
  ∃ h' nd',
    insertAfter 7 1 (<[7 := (addPointsTo 7 (Concrete 0) (PSNode_init ALLOC)).2]>
                       chain_heap) = Ok h'
    ∧ succs_of h' 1 = [7]
    ∧ succs_of h' 7 = successors (set_successors [2] (PSNode_init NOOP))
    ∧ preds_of h' 7 = [1]
    ∧ deref h' 7 = Ok nd'
    ∧ erase_edges nd' = (addPointsTo 7 (Concrete 0) (PSNode_init ALLOC)).2
    ∧ edge_symmetric h'.
Proof.
  apply (new_node_insertAfter chain_heap 7 1 ALLOC []).
  - apply edge_symmetricb_sound. vm_compute. reflexivity.
  - discriminate.
  - vm_compute. reflexivity.
  - reflexivity.
  - vm_compute. reflexivity.
Defined.

(** X7.  After [X.insertAfter(A)] the node [A] has a single successor,
    and [getSingleSuccessor] returns [X] for it; the node [X] has a
    single predecessor, and [getSinglePredecessor] returns [A] for it. *)
Theorem insertAfter_single_neighbours (h : Heap) (X A : NodeRef)
    (nx na : PSNode) :
  edge_symmetric h →
  deref h X = Ok nx → successors nx = [] → predecessors nx = [] →
  deref h A = Ok na → X ≠ A →
  ∃ h' nx' na',
    insertAfter X A h = Ok h'
    ∧ deref h' X = Ok nx' ∧ deref h' A = Ok na'
    ∧ getSingleSuccessor na' = Ok X
    ∧ getSinglePredecessor nx' = Ok A.
Proof.
  intros Hsym HX Hs Hp HA HXA.
  destruct (insertAfter_edges h X A nx na)
    as (h' & Hrun & Hs' & Hp' & Hf & _); try done.
  destruct (same_but_edges_deref h h' X nx Hf HX) as (nx' & HX' & _).
  destruct (same_but_edges_deref h h' A na Hf HA) as (na' & HA' & _).
  exists h', nx', na'. repeat (split; [done|]).
  pose proof (Hs' A) as HsA. rewrite (succs_of_deref _ _ _ HA') in HsA.
  rewrite decide_False, decide_True in HsA by done.
  pose proof (Hp' X) as HpX. rewrite (preds_of_deref _ _ _ HX') in HpX.
  rewrite decide_True in HpX by done.
  unfold getSingleSuccessor, getSinglePredecessor. by rewrite HsA, HpX.
Qed.

Lemma insertAfter_single_neighbours_witness :
  ∃ h' nx' na',
    insertAfter 3 1 chain_heap = Ok h'
    ∧ deref h' 3 = Ok nx' ∧ deref h' 1 = Ok na'
    ∧ getSingleSuccessor na' = Ok 3
    ∧ getSinglePredecessor nx' = Ok 1.
Proof.
  apply (insertAfter_single_neighbours chain_heap 3 1
           (PSNode_init NOOP) (set_successors [2] (PSNode_init NOOP))).
  - apply edge_symmetricb_sound. vm_compute. reflexivity.
  - vm_compute. reflexivity.
  - reflexivity.
  - reflexivity.
  - vm_compute. reflexivity.
  - discriminate.
Defined.

(** ** Violated preconditions *)

Lemma length_not_nil {A} (l : list A) : l ≠ [] → (N.of_nat (length l) =? 0) = false.
Proof. destruct l; [done|]. intros _. apply N.eqb_neq. simpl. lia. Qed.

Lemma length_not_one {A} (l : list A) :
  length l ≠ 1%nat → (N.of_nat (length l) =? 1) = false.
Proof. intros Hne. apply N.eqb_neq. lia. Qed.

(** X8.  The assertions of the graph primitives.  [insertAfter] and
    [insertBefore] fail their assertion when the receiver has a
    predecessor or a successor, whatever the other node is;
    [insertSequenceBefore] fails it when the first node of the sequence
    has a predecessor or the last one a successor;
    [replaceSingleSuccessor], [getSingleSuccessor] and
    [getSinglePredecessor] fail it unless there is exactly one successor
    or predecessor.  And [replaceSingleSuccessor] ends in the
    [length_error] of [reserve] when the old successor is another node
    than the new one and has no predecessor. *)
Theorem graph_primitives_abort :
  (∀ h this n nd,
     deref h this = Ok nd → predecessors nd ≠ [] ∨ successors nd ≠ [] →
     insertAfter this n h = Err AssertionFailed
     ∧ insertBefore this n h = Err AssertionFailed)
  ∧ (∀ h this F L fn ln,
       deref h F = Ok fn → deref h L = Ok ln →
       predecessors fn ≠ [] ∨ successors ln ≠ [] →
       insertSequenceBefore this (F, L) h = Err AssertionFailed)
  ∧ (∀ h this succ nd,
       deref h this = Ok nd → length (successors nd) ≠ 1%nat →
       replaceSingleSuccessor this succ h = Err AssertionFailed)
  ∧ (∀ nd,
       (length (successors nd) ≠ 1%nat →
        getSingleSuccessor nd = Err AssertionFailed)
       ∧ (length (predecessors nd) ≠ 1%nat →
          getSinglePredecessor nd = Err AssertionFailed))
  ∧ (∀ h this succ old nd sn on,
       deref h this = Ok nd → successors nd = [old] →
       deref h succ = Ok sn → deref h old = Ok on →
       old ≠ succ → old ≠ this → predecessors on = [] →
       replaceSingleSuccessor this succ h = Err LengthError).
Proof.
  split; [|split; [|split; [|split]]].
  - intros h this n nd Hd Hedge.
    unfold insertAfter, insertBefore, predecessorsNum, successorsNum.
    rewrite Hd. simpl.
    destruct (predecessors nd) as [|p ps] eqn:Hp; simpl.
    + destruct Hedge as [?|Hs]; [done|].
      by rewrite (length_not_nil _ Hs).
    + done.
  - intros h this F L fn ln HF HL Hedge.
    unfold insertSequenceBefore, predecessorsNum, successorsNum. simpl.
    rewrite HF. simpl.
    destruct (predecessors fn) as [|p ps] eqn:Hp; simpl; [|done].
    rewrite HL. simpl. destruct Hedge as [?|Hs]; [done|].
    by rewrite (length_not_nil _ Hs).
  - intros h this succ nd Hd Hlen. unfold replaceSingleSuccessor.
    rewrite Hd. simpl. by rewrite (length_not_one _ Hlen).
  - intros nd. unfold getSingleSuccessor, getSinglePredecessor.
    split; intros Hlen; by rewrite (length_not_one _ Hlen).
  - intros h this succ old nd sn on Hthis Hs Hsucc Hold Hos Hot Hp.
    pose proof Hthis as [Ht0 _]%deref_Ok. pose proof Hsucc as [Hs0 _]%deref_Ok.
    unfold replaceSingleSuccessor. rewrite Hthis. simpl. rewrite Hs. simpl.
    rewrite (modify_deref _ _ _ _ Hthis). simpl.
    set (h1 := <[this := set_successors [] nd]> h).
    assert (∃ n1, deref h1 this = Ok n1) as [n1 Hn1].
    { unfold h1. rewrite deref_insert, decide_True by done. by eexists. }
    assert (∃ s1, deref h1 succ = Ok s1) as [s1 Hs1].
    { unfold h1. rewrite deref_insert by done. case_decide; by eexists. }
    destruct (addSuccessor_spec this succ h1 n1 s1 Hn1 Hs1)
      as (h2 & Hrun & _ & Hp2 & _).
    rewrite Hrun. simpl.
    assert (preds_of h2 old = []) as Hpo.
    { rewrite Hp2, decide_False by done. unfold h1.
      rewrite preds_of_insert, decide_False by done.
      by rewrite (preds_of_deref _ _ _ Hold). }
    unfold preds_of in Hpo.
    destruct (deref h2 old) as [on2|] eqn:Hon2.
    + simpl. unfold predecessorsNum. by rewrite Hpo.
    + exfalso. revert Hon2. unfold addSuccessor in Hrun.
      rewrite (modify_deref _ _ _ _ Hn1) in Hrun. simpl in Hrun.
      apply modify_Ok in Hrun as (x & Hx & ->).
      pose proof Hold as [Ho0 _]%deref_Ok.
      unfold h1. rewrite !deref_insert by done.
      repeat case_decide; try done. by rewrite Hold.
Qed.

Lemma graph_primitives_abort_witness :
  (insertAfter 2 1 chain_heap = Err AssertionFailed
   ∧ insertBefore 2 1 chain_heap = Err AssertionFailed)
  ∧ insertSequenceBefore 1 (2, 3) chain_heap = Err AssertionFailed
  ∧ replaceSingleSuccessor 3 1 chain_heap = Err AssertionFailed
  ∧ getSingleSuccessor (PSNode_init NOOP) = Err AssertionFailed
  ∧ replaceSingleSuccessor 5 4
      (<[5 := set_successors [2] (PSNode_init NOOP)]>
         (<[2 := PSNode_init NOOP]> (<[4 := PSNode_init NOOP]> ∅)))
    = Err LengthError.
Proof.
  split; [|split; [|split; [|split]]].
  - apply (proj1 graph_primitives_abort chain_heap 2 1
             (set_predecessors [1] (PSNode_init NOOP))).
    + vm_compute. reflexivity.
    + left. discriminate.
  - apply (proj1 (proj2 graph_primitives_abort) chain_heap 1 2 3
             (set_predecessors [1] (PSNode_init NOOP)) (PSNode_init NOOP)).
    + vm_compute. reflexivity.
    + vm_compute. reflexivity.
    + left. discriminate.
  - apply (proj1 (proj2 (proj2 graph_primitives_abort)) chain_heap 3 1
             (PSNode_init NOOP)).
    + vm_compute. reflexivity.
    + simpl. lia.
  - apply (proj1 (proj2 (proj2 (proj2 graph_primitives_abort)))
             (PSNode_init NOOP)).
    simpl. lia.
  - apply (proj2 (proj2 (proj2 (proj2 graph_primitives_abort))) _ 5 4 2
             (set_successors [2] (PSNode_init NOOP)) (PSNode_init NOOP)
             (PSNode_init NOOP)); try done; vm_compute; reflexivity.
Defined.

(** * Further properties of the traversal *)

Lemma same_but_marks_refl h : same_but_marks h h.
Proof. by intros a. Qed.

Lemma same_but_marks_trans h1 h2 h3 :
  same_but_marks h1 h2 → same_but_marks h2 h3 → same_but_marks h1 h3.
Proof. intros H12 H23 a. by rewrite H23, H12. Qed.

Lemma same_but_marks_mark num h p nd :
  h !! p = Some nd → same_but_marks h (<[p := set_dfsid num nd]> h).
Proof.
  intros Hp a. destruct (decide (a = p)) as [->|Hne].
  - by rewrite lookup_insert_eq, Hp.
  - by rewrite lookup_insert_ne.
Qed.

Lemma visit_successors_ok num succs fifo h fifo' h' :
  visit_successors num succs fifo h = Ok (fifo', h') →
  same_edges h h' ∧ same_but_marks h h'
  ∧ ∃ new, fifo' = fifo ++ new ∧ ∀ n, n ∈ new → n ∈ succs.
Proof.
  revert fifo h. induction succs as [|s succs IH]; intros fifo h; simpl.
  - intros [= <- <-]. split; [apply same_edges_refl|].
    split; [apply same_but_marks_refl|]. exists []. rewrite app_nil_r.
    split; [done|]. intros n Hn. by apply elem_of_nil in Hn.
  - destruct (deref h s) as [sn|] eqn:Hs; simpl; [|done].
    pose proof Hs as [_ Hl]%deref_Ok.
    destruct (negb (dfsid sn =? num)).
    + rewrite (modify_deref _ _ _ _ Hs). simpl. intros Hrest.
      apply IH in Hrest as (He & Hm & new & -> & Hnew).
      split; [eapply same_edges_trans; [by apply same_edges_mark|done]|].
      split; [eapply same_but_marks_trans;
              [by apply same_but_marks_mark|done]|].
      exists (s :: new). unfold QueueFIFO_push. rewrite <- app_assoc.
      split; [done|]. intros n [->|Hn]%elem_of_cons; [left|right; auto].
    + intros Hrest. apply IH in Hrest as (He & Hm & new & -> & Hnew).
      split; [done|]. split; [done|]. exists new. split; [done|].
      intros n Hn. right. auto.
Qed.

(** What the loop of the traversal emits, for a property [R] of nodes
    that passes from a node to its successors. *)
Lemma getNodes_loop_ok (R : NodeRef → Prop) h0 num fuel fifo cont h cont' h' :
  (∀ n m, R n → m ∈ succs_of h0 n → R m) →
  same_edges h0 h →
  (∀ n, n ∈ fifo → R n) →
  getNodes_loop fuel num fifo cont h = Ok (cont', h') →
  same_edges h0 h' ∧ same_but_marks h h'
  ∧ ∃ l, cont' = cont ++ fifo ++ l ∧ ∀ n, n ∈ l → R n.
Proof.
  intros HR. revert fifo cont h.
  induction fuel as [|fuel IH]; intros fifo cont h Hsame Hfifo.
  - destruct fifo; simpl; [|done]. intros [= <- <-].
    split; [done|]. split; [apply same_but_marks_refl|]. exists [].
    rewrite !app_nil_r. split; [done|]. intros n Hn. by apply elem_of_nil in Hn.
  - destruct fifo as [|cur rest]; simpl.
    { intros [= <- <-]. split; [done|]. split; [apply same_but_marks_refl|].
      exists []. rewrite !app_nil_r. split; [done|].
      intros n Hn. by apply elem_of_nil in Hn. }
    destruct (deref h cur) as [cn|] eqn:Hcur; simpl; [|done].
    destruct (visit_successors num (successors cn) rest h)
      as [[fifo1 h1]|] eqn:Hv; simpl; [|done].
    apply visit_successors_ok in Hv as (He1 & Hm1 & new & -> & Hnew).
    intros Hrest. apply IH in Hrest as (He & Hm & l & -> & Hl).
    + split; [done|]. split; [by eapply same_but_marks_trans|].
      exists (new ++ l). unfold QueueFIFO_push.
      rewrite <- !app_assoc. simpl. split; [done|].
      intros n [Hn|Hn]%elem_of_app; [|by apply Hl].
      apply (HR cur); [apply Hfifo; left|].
      rewrite <- (same_edges_succs_of h0 h) by done.
      rewrite (succs_of_deref _ _ _ Hcur). by apply Hnew.
    + by eapply same_edges_trans.
    + intros n [Hn|Hn]%elem_of_app; [apply Hfifo; by right|].
      apply (HR cur); [apply Hfifo; left|].
      rewrite <- (same_edges_succs_of h0 h) by done.
      rewrite (succs_of_deref _ _ _ Hcur). by apply Hnew.
Qed.

Lemma getNodes_ok cont start_node start_set ps cont' ps' :
  getNodes cont start_node start_set ps = Ok (cont', ps') →
  ps' = set_nodes (nodes ps') (set_dfsnum (incr_dfsnum (dfsnum ps)) ps)
  ∧ same_edges (nodes ps) (nodes ps')
  ∧ same_but_marks (nodes ps) (nodes ps')
  ∧ ∃ l, cont' = cont ++ start_nodes start_node start_set ps ++ l
         ∧ ∀ n, n ∈ l →
             ∃ s, s ∈ start_nodes start_node start_set ps
                  ∧ reachable (nodes ps) s n.
Proof.
  unfold getNodes, assert.
  destruct (negb (root ps =? nullptr)); simpl; [|done].
  destruct (negb _); simpl; [|done].
  destruct (modify _ _ _) as [h|] eqn:Hm; simpl; [|done].
  apply modify_Ok in Hm as (rn & [_ Hrn]%deref_Ok & ->).
  fold (start_nodes start_node start_set ps).
  destruct (getNodes_loop _ _ _ _ _) as [[c h']|] eqn:Hl; simpl; [|done].
  intros [= <- <-]. simpl.
  apply (getNodes_loop_ok
           (λ n, ∃ s, s ∈ start_nodes start_node start_set ps
                      ∧ reachable (nodes ps) s n) (nodes ps))
    in Hl as (He & Hmk & l & -> & Hl).
  - split; [done|]. split; [done|]. split; [|by exists l].
    eapply same_but_marks_trans; [|done]. by apply same_but_marks_mark.
  - intros n m (s & Hs & Hr) Hm. exists s. split; [done|].
    by eapply reachable_step.
  - by apply same_edges_mark.
  - intros n Hn. exists n. split; [done|]. apply reachable_refl.
Qed.



(** X10.  Whatever the start is, a traversal that returns has only
    appended to the container: first the start nodes, in the order of
    the queue, and then nodes that are reachable from a start node along
    successor edges. *)
Theorem getNodes_emits_reachable cont start_node start_set ps cont' ps' :
  getNodes cont start_node start_set ps = Ok (cont', ps') →
  ∃ l, cont' = cont ++ start_nodes start_node start_set ps ++ l
       ∧ ∀ n, n ∈ start_nodes start_node start_set ps ++ l →
           ∃ s, s ∈ start_nodes start_node start_set ps
                ∧ reachable (nodes ps) s n.
Proof.
  intros (_ & _ & _ & l & -> & Hl)%getNodes_ok.
  exists l. split; [done|]. intros n [Hn|Hn]%elem_of_app; [|by apply Hl].
  exists n. split; [done|]. apply reachable_refl.
Qed.

Lemma getNodes_emits_reachable_witness :
  let ps := PointerSubgraph_new 1 diamond_heap in
  let r := traversal_result [7] 0 (Some {[3; 2]}) ps in
  ∃ l, r.1 = [7] ++ start_nodes 0 (Some {[3; 2]}) ps ++ l
       ∧ ∀ n, n ∈ start_nodes 0 (Some {[3; 2]}) ps ++ l →
           ∃ s, s ∈ start_nodes 0 (Some {[3; 2]}) ps
                ∧ reachable (nodes ps) s n.
Proof.
  intros ps r.
  apply (getNodes_emits_reachable [7] 0 (Some {[3; 2]}) ps r.1 r.2).
  vm_compute. reflexivity.
Defined.

Lemma getNodes_start_root cont ps :
  getNodes cont (root ps) None ps = getNodes cont nullptr None ps.
Proof.
  unfold getNodes, assert.
  by destruct (root ps =? nullptr).
Qed.

Lemma edge_symmetric_closed h : edge_symmetric h → heap_closed h.
Proof.
  intros Hsym a b Hb. apply (symmetric_closed h a b Hsym). by left.
Qed.

Lemma fresh_number num (h : Heap) :
  map_Forall (λ _ nd, dfsid nd ≠ num) h → ∀ n, ¬ marked num h n.
Proof.
  intros Hall n (nd & [_ Hd]%deref_Ok & Hid). by apply (Hall n nd Hd).
Qed.

(** X11.  Started at the root (by default, or with the root given as the
    start node), with a number that marks no node yet, and in a heap
    where every successor is a node, the traversal returns and emits
    the root first and then every other node reachable from the root,
    each node exactly once; the edges are as before. *)
Theorem getNodes_root_exactly_once cont start_node ps rn :
  start_node = nullptr ∨ start_node = root ps →
  deref (nodes ps) (root ps) = Ok rn →
  heap_closed (nodes ps) →
  (∀ n, ¬ marked (incr_dfsnum (dfsnum ps)) (nodes ps) n) →
  ∃ l ps',
    getNodes cont start_node None ps = Ok (cont ++ root ps :: l, ps')
    ∧ same_edges (nodes ps) (nodes ps')
    ∧ NoDup (root ps :: l)
    ∧ ∀ n, n ∈ root ps :: l ↔ reachable (nodes ps) (root ps) n.
Proof.
  intros Hstart Hroot Hcl Hfresh.
  assert (getNodes cont start_node None ps = getNodes cont nullptr None ps)
    as ->.
  { destruct Hstart as [->| ->]; [done|apply getNodes_start_root]. }
  destruct (getNodes_from_root cont ps rn Hroot Hcl Hfresh)
    as (l0 & ps' & Hrun & He & Hnd & Hl0).
  destruct (getNodes_ok _ _ _ _ _ _ Hrun) as (_ & _ & _ & l & Heq & _).
  simpl in Heq. apply app_inv_head in Heq. subst l0.
  exists l, ps'. done.
Qed.

Lemma getNodes_root_exactly_once_witness :
  ∃ l ps',
    getNodes [7] 1 None (PointerSubgraph_new 1 diamond_heap)
    = Ok ([7] ++ root (PointerSubgraph_new 1 diamond_heap) :: l, ps')
    ∧ same_edges (nodes (PointerSubgraph_new 1 diamond_heap)) (nodes ps')
    ∧ NoDup (root (PointerSubgraph_new 1 diamond_heap) :: l)
    ∧ ∀ n, n ∈ root (PointerSubgraph_new 1 diamond_heap) :: l
           ↔ reachable (nodes (PointerSubgraph_new 1 diamond_heap))
               (root (PointerSubgraph_new 1 diamond_heap)) n.
Proof.
  apply (getNodes_root_exactly_once [7] 1 (PointerSubgraph_new 1 diamond_heap)
           (set_successors [2; 3] (PSNode_init NOOP))).
  - by right.
  - vm_compute. reflexivity.
  - apply edge_symmetric_closed, edge_symmetricb_sound.
    vm_compute. reflexivity.
  - apply fresh_number. apply (bool_decide_unpack _). vm_compute. exact I.
Defined.

(** X12.  The traversal terminates.  A loop that is given as many
    iterations as there are nodes on the queue and nodes not yet marked
    never uses them up, and [getNodes] gives its loop that many: it
    returns, or it fails an assertion or a dereference. *)
Theorem getNodes_loop_terminates :
  (∀ fuel num fifo cont h,
     (length fifo + unmarked num h ≤ fuel)%nat →
     getNodes_loop fuel num fifo cont h ≠ Err OutOfFuel)
  ∧ (∀ cont start_node start_set ps,
       getNodes cont start_node start_set ps ≠ Err OutOfFuel).
Proof. split; [apply getNodes_loop_fuel|apply getNodes_terminates]. Qed.

Lemma getNodes_loop_terminates_witness :
  getNodes_loop 5 1 [1] [] diamond_heap ≠ Err OutOfFuel.
Proof.
  apply (proj1 getNodes_loop_terminates). vm_compute. lia.
Defined.

(** ** The traversal into a set *)

Lemma mark_successors_ok num succs fifo h fifo' h' :
  mark_successors num succs fifo h = Ok (fifo', h') → fifo' = fifo ++ succs.
Proof.
  revert fifo h. induction succs as [|s succs IH]; intros fifo h; simpl.
  - intros [= <- _]. by rewrite app_nil_r.
  - destruct (modify s _ h) as [h1|]; simpl; [|done].
    intros ->%IH. unfold QueueFIFO_push. by rewrite <- app_assoc.
Qed.

Lemma mark_successors_fuel num succs fifo h :
  mark_successors num succs fifo h ≠ Err OutOfFuel.
Proof.
  revert fifo h. induction succs as [|s succs IH]; intros fifo h; simpl; [done|].
  pose proof (modify_fuel s (set_dfsid num) h).
  destruct (modify s _ h) as [h1|[]]; simpl; try done.
Qed.

Lemma getNodes_set_loop_distinct fuel num fifo cont h cont' h' :
  getNodes_set_loop fuel num fifo cont h = Ok (cont', h') →
  NoDup fifo ∧ (cont ⊆ cont') ∧ ∀ x, x ∈ fifo → (x ∉ cont) ∧ x ∈ cont'.
Proof.
  revert fifo cont h. induction fuel as [|fuel IH]; intros fifo cont h.
  - destruct fifo; simpl; [|done]. intros [= <- _].
    split; [constructor|]. split; [done|].
    intros x Hx. by apply elem_of_nil in Hx.
  - destruct fifo as [|cur rest]; simpl.
    { intros [= <- _]. split; [constructor|]. split; [done|].
      intros x Hx. by apply elem_of_nil in Hx. }
    unfold assert. case_bool_decide as Hnew; simpl; [|done].
    destruct (deref h cur) as [cn|]; simpl; [|done].
    destruct (visit_successors num (successors cn) rest h)
      as [[fifo1 h1]|] eqn:Hv; simpl; [|done].
    apply visit_successors_ok in Hv as (_ & _ & new & -> & _).
    intros (Hnd & Hsub & Hall)%IH.
    apply NoDup_app in Hnd as (Hnd & _ & _).
    assert (cur ∉ rest) as Hcur.
    { intros Hin. destruct (Hall cur) as [Hnot _];
        [apply elem_of_app; by left|].
      apply Hnot, elem_of_union. left. by apply elem_of_singleton. }
    split; [by constructor|]. split.
    { intros y Hy. apply Hsub, elem_of_union. by right. }
    intros x [->|Hx]%elem_of_cons.
    + split; [done|]. apply Hsub, elem_of_union. left.
      by apply elem_of_singleton.
    + destruct (Hall x) as [Hnot Hin]; [apply elem_of_app; by left|].
      split; [|done]. intros Hc. apply Hnot, elem_of_union. by right.
Qed.

Lemma getNodes_set_loop_fuel fuel num fifo cont h :
  (length fifo + unmarked num h ≤ fuel)%nat →
  getNodes_set_loop fuel num fifo cont h ≠ Err OutOfFuel.
Proof.
  revert fifo cont h. induction fuel as [|fuel IH]; intros fifo cont h Hle.
  - destruct fifo; simpl in *; [done|lia].
  - destruct fifo as [|cur fifo]; simpl; [done|].
    unfold assert. case_bool_decide; simpl; [|done].
    pose proof (deref_fuel h cur).
    destruct (deref h cur) as [cn|[]]; simpl; try done.
    pose proof (visit_successors_fuel num (successors cn) fifo h).
    destruct (visit_successors num (successors cn) fifo h)
      as [[fifo' h']|[]] eqn:Hv; simpl; try done.
    apply IH. apply visit_successors_measure in Hv. simpl in Hle. lia.
Qed.

(** X13.  The traversal into a set returns only when the queue it starts
    with (the root if no node is given, then the successors of the
    node) holds no node twice and no node of the container, and then
    the container has grown and holds these nodes.  It does not return
    when the root, taken by default, is its own successor.  Its loop
    never uses up the iterations it is given. *)
Theorem getNodes_set_inserts_once :
  (∀ cont n ps cont' ps',
     getNodes_set cont n ps = Ok (cont', ps') →
     NoDup (set_start_queue n ps) ∧ (cont ⊆ cont')
     ∧ ∀ x, x ∈ set_start_queue n ps → (x ∉ cont) ∧ x ∈ cont')
  ∧ (∀ cont ps r,
       root ps ∈ succs_of (nodes ps) (root ps) →
       getNodes_set cont nullptr ps ≠ Ok r)
  ∧ (∀ cont n ps, getNodes_set cont n ps ≠ Err OutOfFuel).
Proof.
  assert (∀ cont n ps cont' ps',
            getNodes_set cont n ps = Ok (cont', ps') →
            NoDup (set_start_queue n ps) ∧ (cont ⊆ cont')
            ∧ ∀ x, x ∈ set_start_queue n ps → (x ∉ cont) ∧ x ∈ cont') as Hmain.
  { intros cont n ps cont' ps'. unfold getNodes_set, set_start_queue. simpl.
    destruct (n =? nullptr) eqn:Hn.
    - destruct (deref (nodes ps) (root ps)) as [nn|] eqn:Hd; simpl; [|done].
      rewrite (succs_of_deref _ _ _ Hd).
      destruct (mark_successors _ _ _ _) as [[fifo h]|] eqn:Hm; simpl; [|done].
      apply mark_successors_ok in Hm as ->.
      destruct (getNodes_set_loop _ _ _ _ _) as [[c h']|] eqn:Hl; simpl; [|done].
      intros [= <- _]. by apply getNodes_set_loop_distinct in Hl.
    - destruct (deref (nodes ps) n) as [nn|] eqn:Hd; simpl; [|done].
      rewrite (succs_of_deref _ _ _ Hd).
      destruct (mark_successors _ _ _ _) as [[fifo h]|] eqn:Hm; simpl; [|done].
      apply mark_successors_ok in Hm as ->.
      destruct (getNodes_set_loop _ _ _ _ _) as [[c h']|] eqn:Hl; simpl; [|done].
      intros [= <- _]. by apply getNodes_set_loop_distinct in Hl. }
  split; [done|]. split.
  - intros cont ps [cont' ps'] Hself Hrun.
    apply Hmain in Hrun as (Hnd & _). unfold set_start_queue in Hnd.
    simpl in Hnd. by apply NoDup_cons in Hnd as [Hnot _].
  - intros cont n ps. unfold getNodes_set.
    pose proof (deref_fuel (nodes ps) (if n =? nullptr then root ps else n)).
    simpl. destruct (deref _ _) as [nn|[]]; simpl; try done.
    match goal with
    | |- context [mark_successors ?a ?b ?c ?d] =>
        pose proof (mark_successors_fuel a b c d);
        destruct (mark_successors a b c d) as [[fifo h]|[]]
    end; simpl; try done.
    match goal with
    | |- context [getNodes_set_loop ?f ?a ?b ?c ?d] =>
        pose proof (getNodes_set_loop_fuel f a b c d) as Hfuel;
        destruct (getNodes_set_loop f a b c d) as [[c' h']|[]]
    end; simpl; try done.
    exfalso. apply Hfuel; [|done].
    pose proof (map_size_filter
                  (λ kv : NodeRef * PSNode,
                     dfsid kv.2 ≠ incr_dfsnum (dfsnum ps)) h).
    unfold unmarked. simpl. lia.
Qed.

Lemma getNodes_set_inserts_once_witness :
  let ps := PointerSubgraph_new 1 diamond_heap in
  let r := set_traversal_result {[7]} 4 ps in
  (NoDup (set_start_queue 4 ps) ∧ ({[7]} ⊆ r.1)
   ∧ ∀ x, x ∈ set_start_queue 4 ps → (x ∉ ({[7]} : gset NodeRef)) ∧ x ∈ r.1)
  ∧ getNodes_set ∅ 0 (PointerSubgraph_new 2 self_loop_heap)
    ≠ Ok (∅, PointerSubgraph_new 2 self_loop_heap).
Proof.
  intros ps r. split.
  - apply (proj1 getNodes_set_inserts_once {[7]} 4 ps r.1 r.2).
    vm_compute. reflexivity.
  - apply (proj1 (proj2 getNodes_set_inserts_once)).
    vm_compute. left.
Defined.

(** * The order of the calls of an iteration *)

Lemma enqueue_default_appends n ps ps' :
  enqueue_default n ps = Ok ps' →
  same_but_marks (nodes ps) (nodes ps')
  ∧ ∃ l, queue ps' = queue ps ++ (if n =? nullptr then root ps else n) :: l
         ∧ ∀ m, m ∈ l →
             reachable (nodes ps) (if n =? nullptr then root ps else n) m.
Proof.
  unfold enqueue_default.
  destruct (getNodes (queue ps) n None ps) as [[q ps1]|] eqn:Hg; simpl;
    [|done].
  intros [= <-]. simpl.
  apply getNodes_ok in Hg as (_ & _ & Hm & l & -> & Hl).
  split; [done|]. exists l. split; [done|].
  intros m Hin. destruct (Hl m Hin) as (s & Hs & Hr).
  simpl in Hs. by apply list_elem_of_singleton in Hs as ->.
Qed.

(** C5.  An iteration of the main loop makes its calls on the popped
    node [cur] in the order [beforeProcessed(cur)], [processNode(cur)],
    [enqueue(cur)] if [processNode] returned true, and
    [afterProcessed(cur)] last: whatever the virtual functions and
    [processNode] are, each of these calls starts in the state the call
    before it has left, the state after [afterProcessed] is the state
    after the iteration, and every such chain of calls is an iteration.
    The log lists the calls in that order.  A loop that returns has made
    a sequence of such iterations, each on the node at the head of the
    queue, until the queue was empty, and every such sequence is a run
    of the loop.  The [enqueue] of the base class, [getNodes(queue,
    cur)], changes visit marks only and appends to the queue: [cur] (the
    root for a null [cur]), then only nodes reachable from it. *)
Theorem solver_calls_in_order `{Hooks}
    (processNode : NodeRef → PointerSubgraph → result (bool * PointerSubgraph)) :
  calls_in_order processNode (iteration_enqueue_first processNode)
  ∧ (∀ cur ps tr ps' tr',
       loop_body processNode cur ps tr = Ok (ps', tr') →
       ∃ changed, iteration_enqueue_first processNode cur ps changed ps'
                  ∧ tr' = tr ++ iteration_events cur changed)
  ∧ (∀ fuel ps tr ps' tr',
       run_loop processNode fuel ps tr = Ok (ps', tr') →
       ∃ steps, loop_iterations processNode ps steps ps'
                ∧ tr' = tr ++ iterations iteration_events steps)
  ∧ (∀ ps steps ps' tr,
       loop_iterations processNode ps steps ps' →
       run_loop processNode (length steps) ps tr
       = Ok (ps', tr ++ iterations iteration_events steps))
  ∧ (∀ gmo n ps ps',
       enqueue (Hooks := base_hooks gmo) n ps = Ok ps' →
       same_but_marks (nodes ps) (nodes ps')
       ∧ ∃ l, queue ps' = queue ps ++ (if n =? nullptr then root ps else n) :: l
              ∧ ∀ m, m ∈ l →
                  reachable (nodes ps)
                            (if n =? nullptr then root ps else n) m).
Proof.
  split; [|split; [|split; [|split]]].
  - intros cur ps tr ps'. split.
    + intros [tr' Hbody].
      apply loop_body_order in Hbody as (changed & Hiter & _).
      by exists changed.
    + intros [changed Hiter]. eexists.
      by apply loop_body_complete.
  - apply loop_body_order.
  - apply run_loop_order.
  - intros ps steps ps' tr. apply run_loop_complete.
  - intros gmo n ps ps'. apply enqueue_default_appends.
Qed.

Lemma solver_calls_in_order_witness :
  ∃ changed,
    iteration_enqueue_first (H := restart_hooks)
      (processNode (H := restart_hooks)) 5
      (PointerSubgraph_new 1 store_after_load_heap) changed
      restart_iteration.1
    ∧ [EvPop 5; EvBeforeProcessed 5; EvProcessNode 5 true; EvEnqueue 5;
       EvAfterProcessed 5]
      = [] ++ iteration_events 5 changed.
Proof.
  apply (proj1 (proj2 (solver_calls_in_order (H := restart_hooks)
                         (processNode (H := restart_hooks))))
           5 (PointerSubgraph_new 1 store_after_load_heap) []
           restart_iteration.1).
  vm_compute. reflexivity.
Defined.

(** C5 with [afterProcessed] called before [enqueue] does not hold.  The
    STORE node of [store_after_load_heap] changes a memory object when
    it is processed first, so the iteration calls [enqueue] on it.  In
    an analysis whose [afterProcessed] pushes the root, the iteration
    leaves the queue [5; 1]: [enqueue] has run on the empty queue, and
    [afterProcessed] on the queue [5].  With [afterProcessed] first the
    queue would be [1; 5]. *)
Lemma enqueue_precedes_afterProcessed :
  ¬ calls_in_order (H := restart_hooks) (processNode (H := restart_hooks))
      (iteration_enqueue_last (H := restart_hooks)
         (processNode (H := restart_hooks))).
Proof.
  intros Hclaim.
  destruct (proj1 (Hclaim 5 (PointerSubgraph_new 1 store_after_load_heap) []
                          restart_iteration.1))
    as (changed & ps1 & ps2 & ps3 & Hb & Hp & Ha & He).
  { exists restart_iteration.2. vm_compute. reflexivity. }
  injection Hb as <-.
  assert (changed = true) as ->.
  { revert Hp. vm_compute. by intros [= <- _]. }
  assert (queue ps2 = []) as Hq2.
  { revert Hp. vm_compute. by intros [= <-]. }
  injection Ha as <-.
  unfold enqueue_if in He. simpl in He.
  apply enqueue_default_appends in He as (_ & l & Hq & _).
  revert Hq. simpl. rewrite Hq2. vm_compute. by intros [= ?].
Qed.

(** * Further properties of the solver *)

Section SolverMore.
Context `{Hooks}.
Variable transfer :
  NodeRef → PointerSubgraph → result (bool * PointerSubgraph).

Lemma debug_loop_exit fuel ps tr ps' tr' :
  debug_loop transfer fuel ps tr = Ok (ps', tr') → queue ps' = [].
Proof.
  revert ps tr. induction fuel as [|fuel IH]; intros ps tr; simpl.
  - destruct (queue ps) as [|cur q] eqn:Hq; [|done]. by intros [= <- <-].
  - destruct (queue ps) as [|cur q] eqn:Hq; [by intros [= <- <-]|].
    destruct (debug_body transfer cur (set_queue q ps) tr)
      as [[ps1 tr1]|]; simpl; [|done].
    apply IH.
Qed.

Lemma run_exit DEBUG_ENABLED fuel ps ps' tr :
  run transfer DEBUG_ENABLED fuel ps = Ok (ps', tr) → queue ps' = [].
Proof.
  unfold run. destruct (assert _); simpl; [|done].
  destruct (seed_queue ps) as [ps0|]; simpl; [|done].
  destruct (run_loop transfer fuel ps0 []) as [[ps1 tr1]|]; simpl; [|done].
  destruct (run_loop transfer fuel ps1 tr1) as [[ps2 tr2]|] eqn:H2;
    simpl; [|done].
  apply run_loop_exit in H2. unfold debug_pass. destruct DEBUG_ENABLED.
  - destruct (seed_queue ps2) as [ps3|]; simpl; [|done].
    apply debug_loop_exit.
  - by intros [= <- _].
Qed.
End SolverMore.

(** X14.  When [run] returns nothing is pending: the queue is empty and
    [pendingInQueue] is 0, whatever the transfer function and the hooks
    are, with and without [DEBUG_ENABLED]. *)
Theorem run_leaves_queue_empty `{Hooks}
    (transfer : NodeRef → PointerSubgraph → result (bool * PointerSubgraph))
    (DEBUG_ENABLED : bool) (fuel : nat) (ps ps' : PointerSubgraph)
    (tr : list event) :
  run transfer DEBUG_ENABLED fuel ps = Ok (ps', tr) →
  queue ps' = [] ∧ pendingInQueue ps' = 0.
Proof.
  intros Hq%run_exit. unfold pendingInQueue. by rewrite Hq.
Qed.

Lemma run_leaves_queue_empty_witness :
  queue (state_after_run true (PointerSubgraph_new 1 sentinel_heap)) = []
  ∧ pendingInQueue (state_after_run true (PointerSubgraph_new 1 sentinel_heap))
    = 0.
Proof.
  apply (run_leaves_queue_empty (H := flow_insensitive)
           (processNode (H := flow_insensitive)) true 100
           (PointerSubgraph_new 1 sentinel_heap) _
           (match run (H := flow_insensitive)
                      (processNode (H := flow_insensitive)) true 100
                      (PointerSubgraph_new 1 sentinel_heap) with
            | Ok (_, tr) => tr
            | Err _ => []
            end)).
  vm_compute. reflexivity.
Defined.

(** X15.  The assertions of the traversal and of the solver.  Without a
    root, [getNodes] and [run] fail their assertion, [run] before it
    calls a hook; and [getNodes] fails its assertion when it is given
    both a start node and a start set. *)
Theorem traversal_and_run_abort :
  (∀ cont start_node start_set ps,
     root ps = nullptr →
     getNodes cont start_node start_set ps = Err AssertionFailed)
  ∧ (∀ cont start_node s ps,
       start_node ≠ nullptr →
       getNodes cont start_node (Some s) ps = Err AssertionFailed)
  ∧ (∀ (H : Hooks) transfer DEBUG_ENABLED fuel ps,
       root ps = nullptr →
       run transfer DEBUG_ENABLED fuel ps = Err AssertionFailed).
Proof.
  split; [|split].
  - intros cont sn ss ps Hr. unfold getNodes. by rewrite Hr.
  - intros cont sn s ps Hsn. unfold getNodes, assert.
    destruct (negb (root ps =? nullptr)); simpl; [|done].
    apply N.eqb_neq in Hsn. by rewrite Hsn.
  - intros H transfer dbg fuel ps Hr. unfold run. by rewrite Hr.
Qed.

Lemma traversal_and_run_abort_witness :
  getNodes [] 0 None (PointerSubgraph_new 0 chain_heap) = Err AssertionFailed
  ∧ getNodes [] 2 (Some {[1]}) (PointerSubgraph_new 1 chain_heap)
    = Err AssertionFailed
  ∧ run (H := flow_insensitive) (processNode (H := flow_insensitive)) false 10
      (PointerSubgraph_new 0 chain_heap) = Err AssertionFailed.
Proof.
  split; [|split].
  - by apply (proj1 traversal_and_run_abort).
  - by apply (proj1 (proj2 traversal_and_run_abort)).
  - by apply (proj2 (proj2 traversal_and_run_abort)).
Defined.

(** X16.  The seeding of [run], [queue.push(root); getNodes(queue)],
    puts the root on the queue twice: in a closed heap, with a number
    that marks no node yet, the queue afterwards is the queue before,
    the root, and then the root again followed by every other node
    reachable from it, each once. *)
Theorem seed_queue_root_twice ps rn :
  deref (nodes ps) (root ps) = Ok rn →
  heap_closed (nodes ps) →
  (∀ n, ¬ marked (incr_dfsnum (dfsnum ps)) (nodes ps) n) →
  ∃ l ps',
    seed_queue ps = Ok ps'
    ∧ queue ps' = queue ps ++ root ps :: root ps :: l
    ∧ NoDup (root ps :: l)
    ∧ ∀ n, n ∈ root ps :: l ↔ reachable (nodes ps) (root ps) n.
Proof.
  intros Hroot Hcl Hfresh. unfold seed_queue.
  set (ps1 := set_queue (QueueFIFO_push (root ps) (queue ps)) ps).
  destruct (getNodes_from_root (queue ps1) ps1 rn Hroot Hcl Hfresh)
    as (l0 & ps' & Hrun & _ & Hnd & Hl0).
  destruct (getNodes_ok _ _ _ _ _ _ Hrun) as (_ & _ & _ & l & Heq & _).
  simpl in Heq. apply app_inv_head in Heq. subst l0.
  exists l, (set_queue (QueueFIFO_push (root ps) (queue ps) ++ root ps :: l) ps').
  rewrite Hrun. simpl. split; [done|]. split; [|done].
  unfold QueueFIFO_push. by rewrite <- app_assoc.
Qed.

Lemma seed_queue_root_twice_witness :
  ∃ l ps',
    seed_queue (PointerSubgraph_new 1 diamond_heap) = Ok ps'
    ∧ queue ps' = queue (PointerSubgraph_new 1 diamond_heap)
                  ++ root (PointerSubgraph_new 1 diamond_heap)
                  :: root (PointerSubgraph_new 1 diamond_heap) :: l
    ∧ NoDup (root (PointerSubgraph_new 1 diamond_heap) :: l)
    ∧ ∀ n, n ∈ root (PointerSubgraph_new 1 diamond_heap) :: l
           ↔ reachable (nodes (PointerSubgraph_new 1 diamond_heap))
               (root (PointerSubgraph_new 1 diamond_heap)) n.
Proof.
  apply (seed_queue_root_twice (PointerSubgraph_new 1 diamond_heap)
           (set_successors [2; 3] (PSNode_init NOOP))).
  - vm_compute. reflexivity.
  - apply edge_symmetric_closed, edge_symmetricb_sound.
    vm_compute. reflexivity.
  - apply fresh_number. apply (bool_decide_unpack _). vm_compute. exact I.
Defined.



(** * Further properties of operands and points-to sets *)

(** X18.  [addOperand] appends: it returns the new number of operands,
    the operand it has added is the last one for [getOperand], the
    operands that were there are still at their indices, and the index
    after the last one is out of range. *)
Theorem addOperand_getOperand (nd : PSNode) (n : NodeRef) :
  (addOperand n nd).1 = N.of_nat (length (operands nd)) + 1
  ∧ getOperand (Z.of_N (addOperand n nd).1 - 1) (addOperand n nd).2 = Ok n
  ∧ (∀ i op, getOperand i nd = Ok op →
             getOperand i (addOperand n nd).2 = Ok op)
  ∧ getOperand (Z.of_N (addOperand n nd).1) (addOperand n nd).2
    = Err AssertionFailed.
Proof.
  unfold addOperand. simpl. rewrite length_app. simpl.
  split; [lia|]. split; [|split].
  - unfold getOperand. simpl. rewrite length_app. simpl.
    replace (Z.to_nat (Z.of_N (N.of_nat (length (operands nd) + 1)) - 1))
      with (length (operands nd)) by lia.
    assert (((0 <=? Z.of_N (N.of_nat (length (operands nd) + 1)) - 1)%Z
             && (length (operands nd) <? length (operands nd) + 1)%nat)
            = true) as ->.
    { apply andb_true_iff. split; [apply Z.leb_le; lia|apply Nat.ltb_lt; lia]. }
    simpl. rewrite lookup_app_r by lia. by rewrite Nat.sub_diag.
  - intros i op. unfold getOperand. simpl. rewrite length_app. simpl.
    destruct ((0 <=? i)%Z && (Z.to_nat i <? length (operands nd))%nat)
      eqn:Hin; simpl; [|done].
    apply andb_true_iff in Hin as [Hlo Hhi%Nat.ltb_lt].
    assert (((0 <=? i)%Z
             && (Z.to_nat i <? length (operands nd) + 1)%nat) = true) as ->.
    { apply andb_true_iff. split; [done|apply Nat.ltb_lt; lia]. }
    simpl. by rewrite lookup_app_l by lia.
  - unfold getOperand. simpl. rewrite length_app. simpl.
    assert (((0 <=? Z.of_N (N.of_nat (length (operands nd) + 1)))%Z
             && (Z.to_nat (Z.of_N (N.of_nat (length (operands nd) + 1)))
                 <? length (operands nd) + 1)%nat) = false) as ->; [|done].
    apply andb_false_iff. right. apply Nat.ltb_ge. lia.
Qed.

Lemma addOperand_getOperand_witness :
  getOperand 1 (addOperand 9 (set_operands [7; 8] (PSNode_init STORE))).2
  = Ok 8.
Proof.
  apply (proj1 (proj2 (proj2 (addOperand_getOperand
                                (set_operands [7; 8] (PSNode_init STORE)) 9)))
           1%Z 8).
  reflexivity.
Defined.


Lemma set_pointsTo_same nd : set_pointsTo (pointsTo nd) nd = nd.
Proof. by destruct nd. Qed.

Lemma doesPointsTo_elem p nd : doesPointsTo p nd = true ↔ p ∈ pointsTo nd.
Proof.
  unfold doesPointsTo, pts_count. case_decide; split; done.
Qed.

Lemma addPointsTo_concrete_spec n c nd :
  pointsTo nd ⊆ pointsTo (addPointsTo n (Concrete c) nd).2
  ∧ (Ptr n (Concrete c) ∈ pointsTo (addPointsTo n (Concrete c) nd).2
     ∨ Ptr n UNKNOWN_OFFSET ∈ pointsTo (addPointsTo n (Concrete c) nd).2)
  ∧ ((addPointsTo n (Concrete c) nd).1 = true
     ↔ pointsTo (addPointsTo n (Concrete c) nd).2 ≠ pointsTo nd)
  ∧ ((addPointsTo n (Concrete c) nd).1 = false
     → (addPointsTo n (Concrete c) nd).2 = nd)
  ∧ set_pointsTo (pointsTo nd) (addPointsTo n (Concrete c) nd).2 = nd.
Proof.
  destruct (decide (Ptr n UNKNOWN_OFFSET ∈ pointsTo nd)) as [Hu|Hu].
  - rewrite addPointsTo_present by done. simpl.
    split; [done|]. split; [by right|]. split; [done|]. split; [done|].
    apply set_pointsTo_same.
  - rewrite addPointsTo_absent_concrete by done. simpl.
    split; [apply union_subseteq_r|]. split.
    { left. apply elem_of_union. left. by apply elem_of_singleton. }
    split; [|split].
    + rewrite bool_decide_eq_true. split.
      * intros Hnot Heq. apply Hnot. rewrite <- Heq.
        apply elem_of_union. left. by apply elem_of_singleton.
      * intros Hne Hin. apply Hne. apply subseteq_union_1_L.
        by apply singleton_subseteq_l.
    + rewrite bool_decide_eq_false. intros Hin%dec_stable.
      assert ({[Ptr n (Concrete c)]} ∪ pointsTo nd = pointsTo nd) as ->.
      { apply subseteq_union_1_L. by apply singleton_subseteq_l. }
      apply set_pointsTo_same.
    + by destruct nd.
Qed.

(** X19.  [addPointsTo(n, c)] at a concrete offset only adds: the
    pointers that were in the set stay, and afterwards the node points
    to [(n, c)] or to [(n, UNKNOWN)] by [doesPointsTo].  The call
    returns true exactly when the set has changed, a call that returns
    false leaves the node as it was, and no field but the set
    changes. *)
Theorem addPointsTo_concrete_adds (nd : PSNode) (n : NodeRef) (c : N) :
  pointsTo nd ⊆ pointsTo (addPointsTo n (Concrete c) nd).2
  ∧ (doesPointsTo (Ptr n (Concrete c)) (addPointsTo n (Concrete c) nd).2
     = true
     ∨ doesPointsTo (Ptr n UNKNOWN_OFFSET) (addPointsTo n (Concrete c) nd).2
       = true)
  ∧ ((addPointsTo n (Concrete c) nd).1 = true
     ↔ pointsTo (addPointsTo n (Concrete c) nd).2 ≠ pointsTo nd)
  ∧ ((addPointsTo n (Concrete c) nd).1 = false
     → (addPointsTo n (Concrete c) nd).2 = nd)
  ∧ set_pointsTo (pointsTo nd) (addPointsTo n (Concrete c) nd).2 = nd.
Proof.
  destruct (addPointsTo_concrete_spec n c nd) as (H1 & H2 & H3 & H4 & H5).
  split; [done|]. split; [|done].
  rewrite !doesPointsTo_elem. done.
Qed.

Lemma addPointsTo_concrete_adds_witness :
  (addPointsTo 2 (Concrete 4)
     (addPointsTo 2 (Concrete 4) (PSNode_init LOAD)).2).2
  = (addPointsTo 2 (Concrete 4) (PSNode_init LOAD)).2.
Proof.
  apply (proj1 (proj2 (proj2 (proj2 (addPointsTo_concrete_adds _ 2 4))))).
  vm_compute. reflexivity.
Defined.

(** A pointer is covered by a set that holds it or holds the UNKNOWN
    entry of its target. *)
Lemma covered_mono (p : Pointer) (s s' : PointsToSetT) :
  s ⊆ s' →
  p ∈ s ∨ Ptr (ptr_target p) UNKNOWN_OFFSET ∈ s →
  p ∈ s' ∨ Ptr (ptr_target p) UNKNOWN_OFFSET ∈ s'.
Proof. intros Hsub [?|?]; [left|right]; by apply Hsub. Qed.

Lemma addPointsTo_covered p nd :
  isUnknown (ptr_offset p) = false →
  p ∈ pointsTo nd ∨ Ptr (ptr_target p) UNKNOWN_OFFSET ∈ pointsTo nd →
  addPointsTo_ptr p nd = (false, nd).
Proof.
  destruct p as [t [c|]]; [|done]. intros _ Hcov. unfold addPointsTo_ptr.
  simpl in *.
  destruct (decide (Ptr t UNKNOWN_OFFSET ∈ pointsTo nd)) as [Hu|Hu].
  { by rewrite addPointsTo_present. }
  destruct Hcov as [Hin|?]; [|done].
  rewrite addPointsTo_absent_concrete by done.
  rewrite bool_decide_eq_false_2 by (by intros Hnot).
  assert ({[Ptr t (Concrete c)]} ∪ pointsTo nd = pointsTo nd) as ->.
  { apply subseteq_union_1_L. by apply singleton_subseteq_l. }
  by rewrite set_pointsTo_same.
Qed.

Lemma addPointsTo_list_flag ptrs changed nd :
  addPointsTo_list ptrs changed nd
  = (changed || (addPointsTo_list ptrs false nd).1,
     (addPointsTo_list ptrs false nd).2).
Proof.
  revert changed nd. induction ptrs as [|p ptrs IH]; intros changed nd; simpl.
  - by rewrite orb_false_r.
  - destruct (addPointsTo_ptr p nd) as [c nd1].
    rewrite (IH (changed || c)), (IH (false || c)). simpl.
    by rewrite orb_assoc.
Qed.

Lemma addPointsTo_list_covered ptrs nd :
  Forall (λ p, isUnknown (ptr_offset p) = false) ptrs →
  Forall (λ p, p ∈ pointsTo nd
               ∨ Ptr (ptr_target p) UNKNOWN_OFFSET ∈ pointsTo nd) ptrs →
  addPointsTo_list ptrs false nd = (false, nd).
Proof.
  induction 1 as [|p ptrs Hp _ IH]; [done|].
  intros [Hcov Hrest]%Forall_cons. simpl.
  rewrite (addPointsTo_covered p nd Hp Hcov). simpl. by apply IH.
Qed.

Lemma addPointsTo_list_concrete ptrs nd :
  Forall (λ p, isUnknown (ptr_offset p) = false) ptrs →
  pointsTo nd ⊆ pointsTo (addPointsTo_list ptrs false nd).2
  ∧ Forall (λ p, p ∈ pointsTo (addPointsTo_list ptrs false nd).2
                 ∨ Ptr (ptr_target p) UNKNOWN_OFFSET
                     ∈ pointsTo (addPointsTo_list ptrs false nd).2) ptrs
  ∧ ((addPointsTo_list ptrs false nd).1 = true
     ↔ pointsTo (addPointsTo_list ptrs false nd).2 ≠ pointsTo nd).
Proof.
  intros Hconc. revert nd.
  induction Hconc as [|p ptrs Hp _ IH]; intros nd.
  { simpl. split; [done|]. split; [constructor|]. split; done. }
  simpl. unfold addPointsTo_ptr.
  destruct p as [t [c|]]; [|done]. simpl.
  destruct (addPointsTo_concrete_spec t c nd) as (H1 & H2 & H3 & _).
  destruct (addPointsTo t (Concrete c) nd) as [c0 nd0]. simpl in *.
  rewrite addPointsTo_list_flag. simpl.
  destruct (IH nd0) as (I1 & I2 & I3).
  split; [by etrans|]. split; [|].
  - constructor; [|done]. by apply (covered_mono (Ptr t (Concrete c)) _ _ I1).
  - rewrite orb_true_iff, H3, I3. split.
    + intros [Hne|Hne] Heq; apply Hne.
      * apply (anti_symm (⊆)); [by rewrite <- Heq|done].
      * apply (anti_symm (⊆)); [by rewrite Heq|done].
    + intros Hne.
      destruct (decide (pointsTo nd0 = pointsTo nd)) as [Heq|?]; [|by left].
      right. by rewrite Heq.
Qed.

(** X20.  [addPointsTo] of a set of pointers at concrete offsets only
    adds: the pointers of the node stay, each pointer of the set is in
    the node's set afterwards or is subsumed by the UNKNOWN entry of
    its target, and the call returns true exactly when the node's set
    has changed.  Adding the same set again returns false and changes
    nothing. *)
Theorem addPointsTo_set_concrete (ptrs : PointsToSetT) (nd : PSNode) :
  (∀ p, p ∈ ptrs → isUnknown (ptr_offset p) = false) →
  pointsTo nd ⊆ pointsTo (addPointsTo_set ptrs nd).2
  ∧ (∀ p, p ∈ ptrs →
       doesPointsTo p (addPointsTo_set ptrs nd).2 = true
       ∨ doesPointsTo (Ptr (ptr_target p) UNKNOWN_OFFSET)
           (addPointsTo_set ptrs nd).2 = true)
  ∧ ((addPointsTo_set ptrs nd).1 = true
     ↔ pointsTo (addPointsTo_set ptrs nd).2 ≠ pointsTo nd)
  ∧ addPointsTo_set ptrs (addPointsTo_set ptrs nd).2
    = (false, (addPointsTo_set ptrs nd).2).
Proof.
  intros Hconc. unfold addPointsTo_set.
  assert (Forall (λ p, isUnknown (ptr_offset p) = false) (elements ptrs))
    as Hall.
  { apply Forall_forall. intros p Hp. by apply Hconc, elem_of_elements. }
  destruct (addPointsTo_list_concrete (elements ptrs) nd Hall)
    as (H1 & H2 & H3).
  split; [done|]. split; [|split; [done|]].
  - intros p Hp%elem_of_elements. rewrite !doesPointsTo_elem.
    by apply (proj1 (Forall_forall _ _) H2).
  - by apply addPointsTo_list_covered.
Qed.

Lemma addPointsTo_set_concrete_witness :
  addPointsTo_set {[Ptr 1 (Concrete 0); Ptr 2 (Concrete 8)]}
    (addPointsTo_set {[Ptr 1 (Concrete 0); Ptr 2 (Concrete 8)]}
       (set_pointsTo {[Ptr 2 UNKNOWN_OFFSET]} (PSNode_init PHI))).2
  = (false,
     (addPointsTo_set {[Ptr 1 (Concrete 0); Ptr 2 (Concrete 8)]}
        (set_pointsTo {[Ptr 2 UNKNOWN_OFFSET]} (PSNode_init PHI))).2).
Proof.
  apply (addPointsTo_set_concrete
           {[Ptr 1 (Concrete 0); Ptr 2 (Concrete 8)]}
           (set_pointsTo {[Ptr 2 UNKNOWN_OFFSET]} (PSNode_init PHI))).
  intros p [Hp|Hp]%elem_of_union; apply elem_of_singleton in Hp; by subst.
Defined.

Lemma va_null_terminated_ops ops rest :
  Forall (λ op, op ≠ nullptr) ops →
  va_null_terminated (map VaNode ops ++ VaNode nullptr :: rest) = Ok ops.
Proof.
  induction 1 as [|op ops Hop _ IH]; [done|]. simpl.
  apply N.eqb_neq in Hop. rewrite Hop, IH. done.
Qed.

Lemma va_null_terminated_missing ops :
  Forall (λ op, op ≠ nullptr) ops →
  va_null_terminated (map VaNode ops) = Err UndefinedBehaviour.
Proof.
  induction 1 as [|op ops Hop _ IH]; [done|]. simpl.
  apply N.eqb_neq in Hop. rewrite Hop, IH. done.
Qed.

(** X21.  The constructor of a PHI, CALL, CALL_RETURN or RETURN node
    takes as operands the nodes given before the null terminator, in
    their order, and [getOperand] returns them by index; arguments
    after the terminator are not read.  Without a terminator the
    constructor reads past its arguments, which is undefined. *)
Theorem PSNode_new_null_terminated (this : NodeRef) (t : PSNodeType)
    (ops : list NodeRef) (rest : list va_item) :
  t ∈ [PHI; CALL; CALL_RETURN; RETURN] →
  Forall (λ op, op ≠ nullptr) ops →
  (∃ nd, PSNode_new this t (map VaNode ops ++ VaNode nullptr :: rest) = Ok nd
         ∧ operands nd = ops
         ∧ (∀ i op, ops !! i = Some op → getOperand (Z.of_nat i) nd = Ok op)
         ∧ getOperand (Z.of_nat (length ops)) nd = Err AssertionFailed)
  ∧ PSNode_new this t (map VaNode ops) = Err UndefinedBehaviour.
Proof.
  intros Ht Hops.
  assert (PSNode_new this t (map VaNode ops ++ VaNode nullptr :: rest)
          = Ok (set_operands ops (PSNode_init t))
          ∧ PSNode_new this t (map VaNode ops) = Err UndefinedBehaviour)
    as [Hnew Hmiss].
  { unfold PSNode_new.
    rewrite (va_null_terminated_ops ops rest Hops).
    rewrite (va_null_terminated_missing ops Hops).
    repeat (apply elem_of_cons in Ht as [->|Ht]; [done|]).
    by apply elem_of_nil in Ht. }
  split; [|done]. exists (set_operands ops (PSNode_init t)).
  split; [done|]. split; [done|]. split.
  - intros i op Hi. unfold getOperand. simpl. rewrite Nat2Z.id.
    pose proof (lookup_lt_Some _ _ _ Hi) as Hlt.
    assert (((0 <=? Z.of_nat i)%Z && (i <? length ops)%nat) = true) as ->.
    { apply andb_true_iff. split; [apply Z.leb_le; lia|by apply Nat.ltb_lt]. }
    simpl. by rewrite Hi.
  - unfold getOperand. simpl. rewrite Nat2Z.id.
    assert (((0 <=? Z.of_nat (length ops))%Z
             && (length ops <? length ops)%nat) = false) as ->; [|done].
    apply andb_false_iff. right. apply Nat.ltb_ge. lia.
Qed.

Lemma PSNode_new_null_terminated_witness :
  (∃ nd, PSNode_new 9 PHI (map VaNode [3; 4] ++ VaNode nullptr :: [VaNode 5])
         = Ok nd
         ∧ operands nd = [3; 4]
         ∧ (∀ i op, [3; 4] !! i = Some op → getOperand (Z.of_nat i) nd = Ok op)
         ∧ getOperand (Z.of_nat (length [3; 4])) nd = Err AssertionFailed)
  ∧ PSNode_new 9 PHI (map VaNode [3; 4]) = Err UndefinedBehaviour.
Proof.
  apply (PSNode_new_null_terminated 9 PHI [3; 4] [VaNode 5]).
  - left.
  - repeat constructor; discriminate.
Defined.
